(** * SubVision: the subtitle codec and the audio range extractor

    A shallow embedding of the deterministic core of SubVision:

    - [parseSRT] (src/App.tsx) and [convertToSRT]
      (src/services/geminiService.ts), the SRT subtitle codec;
    - [extractAudioForTranscription] and [audioBufferToWav] (src/App.tsx),
      the time-window slicer and the 16-bit PCM WAV writer;
    - [translateSubtitles] and [transcribeAudio]
      (src/services/geminiService.ts), the wrappers around the translation
      and the transcription collaborator.

    Conventions of the embedding.

    - A JavaScript string is a list of code units; the code units are the
      256 values of [ascii], so only the Latin-1 part of a string is
      represented.
    - A JavaScript number is [number]: NaN, the two infinities, or a
      rational kept in lowest terms; the sign of zero is not represented.
      [num_add], [num_mul] and [num_div] are the exact operations; [add64],
      [mul64] and [div64] are those of the program, which round the exact
      result to binary64.
    - [Codec64] is the subtitle codec as the program computes it.  [Codec]
      is the same code over the exact operations: the two read the same
      blocks, lines, speakers, texts and ids and fail alike, so what does
      not depend on the value of a time is stated of [Codec], and what does
      is stated of [Codec64].  The audio slicer rounds as the program does.
    - [undefined] is [None]; a thrown exception is [Throw].
    - The host clock ([Date.now]) and the translation collaborator are
      arguments of the functions that use them. *)

From Stdlib Require Import ZArith QArith Qround Qminmax Qabs Qpower.
From Stdlib Require Import List String Ascii Lia Lqa Bool.
From Stdlib Require Import DecimalString DecimalNat DecimalZ Permutation.
From Stdlib Require Import DecimalPos FinFun Sorting.Sorted.
Import ListNotations.
Open Scope Z_scope.

(** ** Outcomes of computations that may throw *)

Inductive exn : Type :=
| TypeError
| RangeError
| SyntaxError
| Error (msg : string).

Inductive outcome (A : Type) : Type :=
| Ok (a : A)
| Throw (e : exn).
Arguments Ok {A} a.
Arguments Throw {A} e.

Definition bind {A B : Type} (m : outcome A) (k : A -> outcome B) : outcome B :=
  match m with
  | Ok a => k a
  | Throw e => Throw e
  end.

Notation "'do' x <- m ; k" := (bind m (fun x => k))
  (at level 10, x name, m at level 100, k at level 200).

(** ** The host language *)

Module JS.

(** *** Strings *)

Definition str : Type := list ascii.

Definition lit (s : string) : str := list_ascii_of_string s.

Definition LF : ascii := "010"%char.

(** White space and line terminators among the code units below 256: TAB,
    LF, VT, FF, CR, SP and NBSP.  This is the class [\s] of regular
    expressions and the class that [trim] strips. *)
Definition is_ws (c : ascii) : bool :=
  let n := nat_of_ascii c in
  ((9 <=? n)%nat && (n <=? 13)%nat) || (n =? 32)%nat || (n =? 160)%nat.

Definition is_digit (c : ascii) : bool :=
  let n := nat_of_ascii c in (48 <=? n)%nat && (n <=? 57)%nat.

Fixpoint takeWhile {A : Type} (p : A -> bool) (l : list A) : list A :=
  match l with
  | [] => []
  | a :: l' => if p a then a :: takeWhile p l' else []
  end.

Fixpoint dropWhile {A : Type} (p : A -> bool) (l : list A) : list A :=
  match l with
  | [] => []
  | a :: l' => if p a then dropWhile p l' else l
  end.

Definition trimStart (s : str) : str := dropWhile is_ws s.
Definition trimEnd (s : str) : str := rev (dropWhile is_ws (rev s)).

(** [String.prototype.trim] *)
Definition trim (s : str) : str := trimEnd (trimStart s).

Fixpoint starts_with (p s : str) : bool :=
  match p, s with
  | [], _ => true
  | a :: p', b :: s' => Ascii.eqb a b && starts_with p' s'
  | _ :: _, [] => false
  end.

Definition cons_head {A : Type} (c : A) (l : list (list A)) : list (list A) :=
  match l with
  | [] => [[c]]
  | h :: t => (c :: h) :: t
  end.

(** [String.prototype.split] for a separator that never matches the empty
    string.  [m s] is the length of the match that starts at the head of
    [s], if there is one.  The scan goes left to right; after a match the
    next [skip] code units belong to the separator.  The result always has
    at least one element, and splitting the empty string gives one empty
    string. *)
Fixpoint split_go (m : str -> option nat) (skip : nat) (s : str) : list str :=
  match s with
  | [] => [[]]
  | c :: s' =>
      match skip with
      | S k => split_go m k s'
      | O =>
          match m s with
          | Some (S k) => [] :: split_go m k s'
          | _ => cons_head c (split_go m 0 s')
          end
      end
  end.

(** A string separator matches where it is a prefix. *)
Definition match_str (sep : str) (s : str) : option nat :=
  if starts_with sep s then Some (List.length sep) else None.

(** [s.split(sep)] for a non-empty string [sep]. *)
Definition split (sep : str) (s : str) : list str := split_go (match_str sep) 0 s.

Fixpoint last_index_of (c : ascii) (l : str) (i : nat) (found : option nat) : option nat :=
  match l with
  | [] => found
  | a :: l' => last_index_of c l' (S i) (if Ascii.eqb a c then Some i else found)
  end.

(** The regular expression [/\n\s*\n/] at the head of [s]: a line feed, the
    longest run of white space that still leaves a line feed to end on, and
    that line feed.  Since a line feed is itself white space, the match ends
    at the last line feed of the maximal white-space run that follows the
    first one. *)
Definition match_blank_line (s : str) : option nat :=
  match s with
  | c :: s' =>
      if Ascii.eqb c LF then
        match last_index_of LF (takeWhile is_ws s') 0 None with
        | Some i => Some (S (S i))
        | None => None
        end
      else None
  | [] => None
  end.

(** [s.split(/\n\s*\n/)] *)
Definition split_blank_lines (s : str) : list str := split_go match_blank_line 0 s.

(** [Array.prototype.join] on strings *)
Fixpoint join (sep : str) (l : list str) : str :=
  match l with
  | [] => []
  | [a] => a
  | a :: l' => a ++ sep ++ join sep l'
  end.

(** [s.padStart(n, "0")] *)
Definition padStart0 (n : nat) (s : str) : str :=
  repeat "0"%char (n - List.length s) ++ s.

(** [s.substr(start, len)] for non-negative arguments *)
Definition substr (start len : nat) (s : str) : str := firstn len (skipn start s).

(** The regular expression [/^([^:]+):/]: the capture is the longest run of
    code units other than a colon at the start of [s]; it must be non-empty
    and a colon must follow. *)
Definition not_colon (c : ascii) : bool := negb (Ascii.eqb c ":"%char).

Definition match_speaker (s : str) : option str :=
  let name := takeWhile not_colon s in
  match name, dropWhile not_colon s with
  | _ :: _, _ :: _ => Some name
  | _, _ => None
  end.

(** [s.replace(/^[^:]+:\s*/, '')]: the same prefix, its colon and the white
    space after it are removed; a string without such a prefix is
    unchanged. *)
Definition strip_speaker (s : str) : str :=
  match takeWhile not_colon s, dropWhile not_colon s with
  | _ :: _, _ :: rest => dropWhile is_ws rest
  | _, _ => s
  end.

(** *** Numbers *)

Inductive number : Type :=
| NaN
| PosInf
| NegInf
| Fin (q : Q).

Definition fin (q : Q) : number := Fin (Qred q).
Definition of_Z (z : Z) : number := Fin (inject_Z z).

Definition Qltb (a b : Q) : bool := negb (Qle_bool b a).

(** Truncation toward zero *)
Definition Qtrunc (q : Q) : Z := Z.quot (Qnum q) (Zpos (Qden q)).

Definition num_neg (x : number) : number :=
  match x with
  | NaN => NaN
  | PosInf => NegInf
  | NegInf => PosInf
  | Fin q => fin (- q)
  end.

Definition num_add (x y : number) : number :=
  match x, y with
  | NaN, _ | _, NaN => NaN
  | PosInf, NegInf | NegInf, PosInf => NaN
  | PosInf, _ | _, PosInf => PosInf
  | NegInf, _ | _, NegInf => NegInf
  | Fin a, Fin b => fin (a + b)
  end.

Definition num_sub (x y : number) : number := num_add x (num_neg y).

Definition inf_of_sign (positive : bool) : number :=
  if positive then PosInf else NegInf.

Definition num_mul (x y : number) : number :=
  match x, y with
  | NaN, _ | _, NaN => NaN
  | Fin a, Fin b => fin (a * b)
  | Fin a, PosInf | PosInf, Fin a =>
      if Qeq_bool a 0 then NaN else inf_of_sign (Qltb 0 a)
  | Fin a, NegInf | NegInf, Fin a =>
      if Qeq_bool a 0 then NaN else inf_of_sign (Qltb a 0)
  | PosInf, PosInf | NegInf, NegInf => PosInf
  | PosInf, NegInf | NegInf, PosInf => NegInf
  end.

Definition num_div (x y : number) : number :=
  match x, y with
  | NaN, _ | _, NaN => NaN
  | Fin a, Fin b =>
      if Qeq_bool b 0
      then (if Qeq_bool a 0 then NaN else inf_of_sign (Qltb 0 a))
      else fin (a / b)
  | Fin _, _ => Fin 0
  | PosInf, Fin b => inf_of_sign (Qle_bool 0 b)
  | NegInf, Fin b => inf_of_sign (Qltb b 0)
  | _, _ => NaN
  end.

(** The remainder operator [%]: the result has the sign of the dividend. *)
Definition num_rem (x y : number) : number :=
  match x, y with
  | Fin a, Fin b =>
      if Qeq_bool b 0 then NaN
      else fin (a - b * inject_Z (Qtrunc (a / b)))
  | Fin a, PosInf | Fin a, NegInf => Fin a
  | _, _ => NaN
  end.

(** [x < y] *)
Definition num_lt (x y : number) : bool :=
  match x, y with
  | NaN, _ | _, NaN => false
  | Fin a, Fin b => Qltb a b
  | NegInf, NegInf => false
  | NegInf, _ => true
  | _, PosInf => match x with PosInf => false | _ => true end
  | _, _ => false
  end.

Definition Math_max (x y : number) : number :=
  match x, y with
  | NaN, _ | _, NaN => NaN
  | _, _ => if num_lt x y then y else x
  end.

Definition Math_min (x y : number) : number :=
  match x, y with
  | NaN, _ | _, NaN => NaN
  | _, _ => if num_lt y x then y else x
  end.

Definition Math_floor (x : number) : number :=
  match x with
  | Fin q => of_Z (Qfloor q)
  | _ => x
  end.

(** *** Binary64

    The operations above are exact.  The program computes in binary64: an
    operation gives the binary64 number nearest to its exact result, a tie
    going to the even significand, and an infinity past the largest finite
    number.  [%] and [Math.floor] are exact in binary64, and so is the sign
    of a difference. *)

Definition pow2 (e : Z) : Q := (2 ^ e)%Q.

(** The exponent of the binade of a number other than 0: the floor of its
    binary logarithm. *)
Definition Qlog2 (x : Q) : Z :=
  let k := Z.log2 (Z.abs (Qnum x)) - Z.log2 (Zpos (Qden x)) in
  if Qle_bool (pow2 k) (Qabs x) then k else k - 1.

(** Rounding to the nearest integer, a tie to the even one. *)
Definition rne (x : Q) : Z :=
  let f := Qfloor x in
  match (x - inject_Z f ?= 1 # 2)%Q with
  | Lt => f
  | Gt => f + 1
  | Eq => if Z.even f then f else f + 1
  end.

(** The exponent of the last place of the binary64 numbers around [x]: 52
    below the binade, and never below that of the subnormal numbers. *)
Definition ulp_exp (x : Q) : Z := Z.max (Qlog2 x - 52) (-1074).

(** The binary64 number nearest to [x], were the exponent unbounded above;
    [fin64] turns what is out of range into an infinity. *)
Definition round64 (x : Q) : Q :=
  if Qeq_bool x 0 then 0%Q
  else (inject_Z (rne (x / pow2 (ulp_exp x))) * pow2 (ulp_exp x))%Q.

(** [x] is a binary64 number. *)
Definition binary64 (x : Q) : bool := Qeq_bool (round64 x) x.

Definition fin64 (q : Q) : number :=
  let r := round64 q in
  if Qle_bool (pow2 1024) (Qabs r) then inf_of_sign (Qltb 0 r) else fin r.

(** The result of an operation as binary64 has it. *)
Definition rounded (x : number) : number :=
  match x with
  | Fin q => fin64 q
  | _ => x
  end.

Definition add64 (x y : number) : number := rounded (num_add x y).
Definition mul64 (x y : number) : number := rounded (num_mul x y).
Definition div64 (x y : number) : number := rounded (num_div x y).

(** The conversions of [DataView] setters: truncate, then wrap modulo the
    width; NaN and the infinities become 0. *)
Definition to_integer_wrapping (x : number) : Z :=
  match x with
  | Fin q => Qtrunc q
  | _ => 0
  end.

Definition ToUint8 (x : number) : Z := to_integer_wrapping x mod 2 ^ 8.
Definition ToUint16 (x : number) : Z := to_integer_wrapping x mod 2 ^ 16.
Definition ToUint32 (x : number) : Z := to_integer_wrapping x mod 2 ^ 32.
Definition ToInt16 (x : number) : Z :=
  let u := ToUint16 x in if u <? 2 ^ 15 then u else u - 2 ^ 16.

(** *** Numbers and strings *)

Definition str_eqb (a b : str) : bool :=
  (List.length a =? List.length b)%nat && starts_with a b.

Definition digit_val (c : ascii) : Z := Z.of_nat (nat_of_ascii c) - 48.

Definition digits_val (ds : str) : Z :=
  fold_left (fun acc c => acc * 10 + digit_val c) ds 0.

(** The value of [c] as a digit of the given radix, letters counting from
    10 in either case. *)
Definition radix_digit (radix : Z) (c : ascii) : option Z :=
  let n := Z.of_nat (nat_of_ascii c) in
  let v :=
    if (48 <=? n) && (n <=? 57) then Some (n - 48)
    else if (97 <=? n) && (n <=? 122) then Some (n - 87)
    else if (65 <=? n) && (n <=? 90) then Some (n - 55)
    else None in
  match v with
  | Some d => if d <? radix then Some d else None
  | None => None
  end.

Definition is_radix_digit (radix : Z) (c : ascii) : bool :=
  match radix_digit radix c with Some _ => true | None => false end.

Definition radix_val (radix : Z) (ds : str) : Z :=
  fold_left
    (fun acc c => acc * radix + match radix_digit radix c with Some d => d | None => 0 end)
    ds 0.

Definition is_nil {A : Type} (l : list A) : bool :=
  match l with [] => true | _ => false end.

(** The exponent part of a decimal literal, applied to the mantissa [m];
    [r] is all that is left of the literal. *)
Definition parse_exponent (m : Q) (r : str) : option Q :=
  match r with
  | [] => Some m
  | c :: r' =>
      if Ascii.eqb c "e"%char || Ascii.eqb c "E"%char then
        let '(neg, ds) :=
          match r' with
          | s :: t =>
              if Ascii.eqb s "-"%char then (true, t)
              else if Ascii.eqb s "+"%char then (false, t)
              else (false, r')
          | [] => (false, r')
          end in
        if negb (is_nil ds) && forallb is_digit ds
        then Some (m * Qpower 10 (if neg then - digits_val ds else digits_val ds))%Q
        else None
      else None
  end.

(** An unsigned decimal literal: [Infinity], or digits with an optional
    fraction and exponent; at least one digit before or after the point. *)
Definition parse_unsigned_decimal (s : str) : option number :=
  if str_eqb s (lit "Infinity") then Some PosInf
  else
    let ip := takeWhile is_digit s in
    match dropWhile is_digit s with
    | c :: r2 =>
        if Ascii.eqb c "."%char then
          let fp := takeWhile is_digit r2 in
          if is_nil ip && is_nil fp then None
          else
            option_map fin
              (parse_exponent
                 (inject_Z (digits_val (ip ++ fp))
                  / Qpower 10 (Z.of_nat (List.length fp)))%Q
                 (dropWhile is_digit r2))
        else if is_nil ip then None
        else option_map fin (parse_exponent (inject_Z (digits_val ip)) (c :: r2))
    | [] =>
        if is_nil ip then None
        else Some (of_Z (digits_val ip))
    end.

Definition parse_radix_literal (radix : Z) (ds : str) : number :=
  if negb (is_nil ds) && forallb (is_radix_digit radix) ds
  then of_Z (radix_val radix ds)
  else NaN.

(** [Number(s)] on a string: surrounding white space is ignored, the empty
    string is 0, a [0x], [0o] or [0b] literal has no sign, a decimal literal
    may have one, and anything else is NaN. *)
Definition Number (s : str) : number :=
  match trim s with
  | [] => of_Z 0
  | c :: r =>
      let prefix (x y : ascii) :=
        match r with
        | d :: _ => Ascii.eqb c "0"%char && (Ascii.eqb d x || Ascii.eqb d y)
        | [] => false
        end in
      if prefix "x"%char "X"%char then parse_radix_literal 16 (tl r)
      else if prefix "o"%char "O"%char then parse_radix_literal 8 (tl r)
      else if prefix "b"%char "B"%char then parse_radix_literal 2 (tl r)
      else if Ascii.eqb c "-"%char then
        match parse_unsigned_decimal r with Some v => num_neg v | None => NaN end
      else if Ascii.eqb c "+"%char then
        match parse_unsigned_decimal r with Some v => v | None => NaN end
      else
        match parse_unsigned_decimal (c :: r) with Some v => v | None => NaN end
  end.

(** [parseInt(s)] without a radix: leading white space and a sign are
    skipped, a [0x] prefix selects radix 16, and the longest prefix of
    digits is the value; no digit at all is NaN. *)
Definition parseInt (s : str) : number :=
  let s1 := trimStart s in
  let '(neg, s2) :=
    match s1 with
    | c :: t =>
        if Ascii.eqb c "-"%char then (true, t)
        else if Ascii.eqb c "+"%char then (false, t)
        else (false, s1)
    | [] => (false, s1)
    end in
  let '(radix, s3) :=
    match s2 with
    | a :: b :: t =>
        if Ascii.eqb a "0"%char && (Ascii.eqb b "x"%char || Ascii.eqb b "X"%char)
        then (16, t) else (10, s2)
    | _ => (10, s2)
    end in
  let ds := takeWhile (is_radix_digit radix) s3 in
  if is_nil ds then NaN
  else of_Z (if neg then - radix_val radix ds else radix_val radix ds).

(** [String(v)] of a possibly undefined string *)
Definition String_of (v : option str) : str :=
  match v with
  | Some s => s
  | None => lit "undefined"
  end.

(** An arithmetic operand that may be undefined: [undefined] converts to NaN. *)
Definition ToNumber (v : option number) : number :=
  match v with
  | Some x => x
  | None => NaN
  end.

(** Decimal notation of an integer, as in a template literal or [toString]
    of an integral number (below 10^21 in magnitude, where JavaScript still
    prints all digits). *)
Definition Z_toString (z : Z) : str := lit (NilZero.string_of_int (Z.to_int z)).

(** The decimal digits of [n / d] after the point, [fuel] of them at most. *)
Fixpoint fraction_digits (fuel : nat) (n d : Z) : str :=
  match fuel with
  | O => []
  | S fuel' =>
      if n =? 0 then []
      else ascii_of_nat (Z.to_nat (48 + n * 10 / d)) :: fraction_digits fuel' (n * 10 mod d) d
  end.

(** [x.toString()].  An integral number prints its digits (below 10^21 in
    magnitude, where JavaScript still prints them all).  A number with a
    fraction prints its integer part, a point and the digits of its decimal
    expansion, which is what JavaScript prints when the number is at least
    10^-6 in magnitude and the expansion has no more than the 15
    significant digits that identify a binary64 number.  The program
    applies [toString] to the result of [Math.floor] only. *)
Definition Number_toString (x : number) : str :=
  match x with
  | NaN => lit "NaN"
  | PosInf => lit "Infinity"
  | NegInf => lit "-Infinity"
  | Fin q =>
      let n := Qnum (Qred q) in
      let d := Zpos (Qden (Qred q)) in
      if d =? 1 then Z_toString n
      else (if n <? 0 then lit "-" else []) ++ Z_toString (Z.abs n / d) ++ lit "."
           ++ fraction_digits 20 (Z.abs n mod d) d
  end.

(** *** Dates

    A [Date] is its time value: milliseconds since the epoch, or [None] for
    an invalid date.  [setSeconds] works in local time; the host zone is
    taken to have a constant offset of whole minutes, under which setting
    the seconds of the local time and of the UTC time are the same
    operation. *)

Definition msPerDay : Z := 86400000.
Definition maxTimeValue : Z := 8640000000000000.

Definition Date_setSeconds (tv : option Z) (sec : number) : option Z :=
  match tv, sec with
  | Some t, Fin q =>
      let s := Qtrunc q in
      let day := t / msPerDay in
      let tod := t mod msPerDay in
      let h := tod / 3600000 in
      let m := (tod / 60000) mod 60 in
      let ms := tod mod 1000 in
      let v := day * msPerDay + (h * 3600000 + m * 60000 + s * 1000 + ms) in
      if Z.abs v <=? maxTimeValue then Some v else None
  | _, _ => None
  end.

(** Year, month and day of the proleptic Gregorian calendar from the number
    of days since 1970-01-01. *)
Definition civil_from_days (days : Z) : Z * Z * Z :=
  let z := days + 719468 in
  let era := z / 146097 in
  let doe := z - era * 146097 in
  let yoe := (doe - doe / 1460 + doe / 36524 - doe / 146096) / 365 in
  let doy := doe - (365 * yoe + yoe / 4 - yoe / 100) in
  let mp := (5 * doy + 2) / 153 in
  let d := doy - (153 * mp + 2) / 5 + 1 in
  let m := if mp <? 10 then mp + 3 else mp - 9 in
  (yoe + era * 400 + (if m <=? 2 then 1 else 0), m, d).

Definition pad (n : nat) (z : Z) : str := padStart0 n (Z_toString z).

(** [date.toISOString()]: four digits for the years 0 to 9999, a sign and
    six digits outside; an invalid date throws. *)
Definition Date_toISOString (tv : option Z) : outcome str :=
  match tv with
  | None => Throw RangeError
  | Some t =>
      let tod := t mod msPerDay in
      let '(y, mo, d) := civil_from_days (t / msPerDay) in
      let year :=
        if (0 <=? y) && (y <=? 9999) then pad 4 y
        else (if y <? 0 then lit "-" else lit "+") ++ pad 6 (Z.abs y) in
      Ok (year ++ lit "-" ++ pad 2 mo ++ lit "-" ++ pad 2 d ++ lit "T"
          ++ pad 2 (tod / 3600000) ++ lit ":" ++ pad 2 ((tod / 60000) mod 60)
          ++ lit ":" ++ pad 2 ((tod / 1000) mod 60)
          ++ lit "." ++ pad 3 (tod mod 1000) ++ lit "Z")
  end.

End JS.

(** ** The data model (types.ts) *)

Import JS.

Record Subtitle : Type := mkSubtitle {
  id : str;
  startTime : number;
  endTime : number;
  text : str;
  speaker : option str
}.

Inductive Step : Type :=
| idle
| extracting_audio
| detecting_speech
| generating_srt
| baking
| exporting_chunks
| complete
| assessing.

Record ProcessingStatus : Type := mkStatus {
  step : Step;
  progress : Z;
  message : string
}.

(** The part of the component state that [parseSRT] reads and writes. *)
Record AppState : Type := mkState {
  subtitles : list Subtitle;
  status : ProcessingStatus
}.

(** ** The subtitle codec *)

Module Codec.

(** [Array.prototype.map] with a callback that may throw: the callback
    gets the element and its index, and the first exception aborts the
    traversal. *)
Fixpoint mapM_from {A B : Type} (f : A -> nat -> outcome B) (i : nat) (l : list A)
  : outcome (list B) :=
  match l with
  | [] => Ok []
  | a :: l' => do b <- f a i; do bs <- mapM_from f (S i) l'; Ok (b :: bs)
  end.

Definition mapMi {A B : Type} (f : A -> nat -> outcome B) (l : list A) : outcome (list B) :=
  mapM_from f 0 l.

(** [.filter(s => s !== null)] *)
Fixpoint filter_non_null {A : Type} (l : list (option A)) : list A :=
  match l with
  | [] => []
  | Some a :: l' => a :: filter_non_null l'
  | None :: l' => filter_non_null l'
  end.

(** *** Decoding (src/App.tsx, parseSRT) *)

(** The inner [timeToSec].  Its argument is undefined when the time line
    has no arrow; reading [split] of undefined is a TypeError.  A missing
    component is undefined and makes the sum NaN. *)
Definition timeToSec (arg : option str) : outcome number :=
  match arg with
  | None => Throw TypeError
  | Some s =>
      let parts := split (lit ",") s in
      let hms := hd [] parts in
      let ms := nth_error parts 1 in
      let nums := map Number (split (lit ":") hms) in
      let h := ToNumber (nth_error nums 0) in
      let m := ToNumber (nth_error nums 1) in
      let sec := ToNumber (nth_error nums 2) in
      Ok (num_add
            (num_add (num_add (num_mul h (of_Z 3600)) (num_mul m (of_Z 60))) sec)
            (num_div (parseInt (String_of ms)) (of_Z 1000)))
  end.

(** The callback of [blocks.map]: one block and its index give a Subtitle,
    [null] (here [None]) for a block of fewer than three lines, or an
    exception.  [now] is the reading of [Date.now()] taken for the id. *)
Definition decodeBlock (now : nat -> Z) (block : str) (i : nat) : outcome (option Subtitle) :=
  let lines := split [LF] block in
  if (List.length lines <? 3)%nat then Ok None
  else
    let timeLine := nth 1 lines [] in
    let arrow := split (lit " --> ") timeLine in
    let startStr := nth_error arrow 0 in
    let endStr := nth_error arrow 1 in
    let textWithSpeaker := join (lit " ") (skipn 2 lines) in
    let speakerMatch := match_speaker textWithSpeaker in
    let text :=
      match speakerMatch with
      | Some _ => strip_speaker textWithSpeaker
      | None => textWithSpeaker
      end in
    let id := lit "srt-" ++ Z_toString (now i) ++ lit "-" ++ Z_toString (Z.of_nat i) in
    do st <- timeToSec startStr;
    do en <- timeToSec endStr;
    Ok (Some (mkSubtitle id st en text speakerMatch)).

(** The body of the [try]: every block is decoded, then the nulls are
    filtered out. *)
Definition decode (now : nat -> Z) (content : str) : outcome (list Subtitle) :=
  let blocks := split_blank_lines (trim content) in
  do parsed <- mapMi (decodeBlock now) blocks;
  Ok (filter_non_null parsed).

(** [parseSRT]: on success the collection is replaced and the status
    reports the import; on any exception only the status changes. *)
Definition parseSRT (now : nat -> Z) (content : str) (st : AppState) : AppState :=
  match decode now content with
  | Ok parsed =>
      mkState parsed (mkStatus idle 100 "SRT imported successfully.")
  | Throw _ =>
      mkState (subtitles st) (mkStatus idle 0 "Failed to parse SRT file.")
  end.

(** *** Encoding (src/services/geminiService.ts, convertToSRT) *)

(** The comparator [(a, b) => a.startTime - b.startTime] asks for [b]
    before [a] exactly when the difference is positive; a NaN difference
    counts as 0. *)
Definition after (a b : Subtitle) : bool :=
  num_lt (of_Z 0) (num_sub (startTime a) (startTime b)).

(** [a] goes before the first caption that it is not after. *)
Fixpoint insert_sorted (a : Subtitle) (l : list Subtitle) : list Subtitle :=
  match l with
  | [] => [a]
  | b :: l' => if after a b then b :: insert_sorted a l' else a :: l
  end.

(** [[...subtitles].sort(cmp)]: the sort of a copy.  The language requires
    the sort to be stable; for a consistent comparator that fixes the
    result, computed here by insertion from the right. *)
Definition sort_by_start (l : list Subtitle) : list Subtitle :=
  fold_right insert_sorted [] l.

(** The inner [formatTime]. *)
Definition formatTime (seconds : number) : outcome str :=
  let date := Date_setSeconds (Some 0) seconds in
  let ms :=
    padStart0 3
      (Number_toString (Math_floor (num_mul (num_rem seconds (of_Z 1)) (of_Z 1000)))) in
  do iso <- Date_toISOString date;
  let timeStr := substr 11 8 iso in
  Ok (timeStr ++ lit "," ++ ms).

(** A present, non-empty speaker is truthy. *)
Definition speakerLabel (sub : Subtitle) : str :=
  match speaker sub with
  | Some (c :: s) => (c :: s) ++ lit ": "
  | _ => []
  end.

(** The callback of [sorted.map]: the block of one caption, numbered from 1. *)
Definition encodeBlock (sub : Subtitle) (index : nat) : outcome str :=
  do a <- formatTime (startTime sub);
  do b <- formatTime (endTime sub);
  Ok (Z_toString (Z.of_nat index + 1) ++ [LF] ++ a ++ lit " --> " ++ b ++ [LF]
      ++ speakerLabel sub ++ text sub ++ [LF]).

(** The blocks end with a line feed and are joined with one more. *)
Definition convertToSRT (subs : list Subtitle) : outcome str :=
  let sorted := sort_by_start subs in
  do blocks <- mapMi encodeBlock sorted;
  Ok (join [LF] blocks).

End Codec.

(** ** The subtitle codec in binary64

    The codec with the arithmetic of the program: every sum, product and
    quotient is rounded to binary64, and so is every number read from a
    string.  [Codec] above is the same code over exact numbers; the two
    differ in the values of the times and in nothing else. *)

Module Codec64.

Import Codec.

(** *** Decoding (src/App.tsx, parseSRT) *)

Definition timeToSec (arg : option str) : outcome number :=
  match arg with
  | None => Throw TypeError
  | Some s =>
      let parts := split (lit ",") s in
      let hms := hd [] parts in
      let ms := nth_error parts 1 in
      let nums := map (fun field => rounded (Number field)) (split (lit ":") hms) in
      let h := ToNumber (nth_error nums 0) in
      let m := ToNumber (nth_error nums 1) in
      let sec := ToNumber (nth_error nums 2) in
      Ok (add64
            (add64 (add64 (mul64 h (of_Z 3600)) (mul64 m (of_Z 60))) sec)
            (div64 (rounded (parseInt (String_of ms))) (of_Z 1000)))
  end.

Definition decodeBlock (now : nat -> Z) (block : str) (i : nat) : outcome (option Subtitle) :=
  let lines := split [LF] block in
  if (List.length lines <? 3)%nat then Ok None
  else
    let timeLine := nth 1 lines [] in
    let arrow := split (lit " --> ") timeLine in
    let startStr := nth_error arrow 0 in
    let endStr := nth_error arrow 1 in
    let textWithSpeaker := join (lit " ") (skipn 2 lines) in
    let speakerMatch := match_speaker textWithSpeaker in
    let text :=
      match speakerMatch with
      | Some _ => strip_speaker textWithSpeaker
      | None => textWithSpeaker
      end in
    let id := lit "srt-" ++ Z_toString (now i) ++ lit "-" ++ Z_toString (Z.of_nat i) in
    do st <- timeToSec startStr;
    do en <- timeToSec endStr;
    Ok (Some (mkSubtitle id st en text speakerMatch)).

Definition decode (now : nat -> Z) (content : str) : outcome (list Subtitle) :=
  let blocks := split_blank_lines (trim content) in
  do parsed <- mapMi (decodeBlock now) blocks;
  Ok (filter_non_null parsed).

Definition parseSRT (now : nat -> Z) (content : str) (st : AppState) : AppState :=
  match decode now content with
  | Ok parsed =>
      mkState parsed (mkStatus idle 100 "SRT imported successfully.")
  | Throw _ =>
      mkState (subtitles st) (mkStatus idle 0 "Failed to parse SRT file.")
  end.

(** *** Encoding (src/services/geminiService.ts, convertToSRT) *)

Definition formatTime (seconds : number) : outcome str :=
  let date := Date_setSeconds (Some 0) seconds in
  let ms :=
    padStart0 3
      (Number_toString (Math_floor (mul64 (num_rem seconds (of_Z 1)) (of_Z 1000)))) in
  do iso <- Date_toISOString date;
  let timeStr := substr 11 8 iso in
  Ok (timeStr ++ lit "," ++ ms).

Definition encodeBlock (sub : Subtitle) (index : nat) : outcome str :=
  do a <- formatTime (startTime sub);
  do b <- formatTime (endTime sub);
  Ok (Z_toString (Z.of_nat index + 1) ++ [LF] ++ a ++ lit " --> " ++ b ++ [LF]
      ++ speakerLabel sub ++ text sub ++ [LF]).

(** The order of the sort is that of [sort_by_start]: the difference of two
    binary64 numbers has the sign of their exact difference. *)
Definition convertToSRT (subs : list Subtitle) : outcome str :=
  let sorted := sort_by_start subs in
  do blocks <- mapMi encodeBlock sorted;
  Ok (join [LF] blocks).

End Codec64.

(** ** The audio range extractor (src/App.tsx) *)

Module Audio.

(** A decoded audio signal.  It has at least one channel and every channel
    has the same number of frames, the [length] of the buffer; samples are
    32-bit floats read as numbers. *)
Record AudioBuffer : Type := mkBuffer {
  sampleRate : Q;
  channel0 : list number;
  otherChannels : list (list number)
}.

Definition length (b : AudioBuffer) : nat := List.length (channel0 b).

(** [buffer.duration] is the length over the sample rate, as binary64
    has the quotient. *)
Definition duration (b : AudioBuffer) : Q :=
  round64 (inject_Z (Z.of_nat (length b)) / sampleRate b).

(** [audioCtx.createBuffer(1, frameCount, sampleRate)]: one channel of
    [frameCount] silent frames.  The checks a host makes on the arguments
    before it allocates are not part of this model; Web Audio asks a host
    to reject a frame count of 0 with a NotSupportedError. *)
Definition createBuffer (frameCount : nat) (rate : Q) : AudioBuffer :=
  mkBuffer rate (repeat (Fin 0) frameCount) [].

(** [a.subarray(begin, end)]: a negative index counts from the end, and
    both indices are clamped to the array. *)
Definition subarray {A : Type} (begin end_ : Z) (a : list A) : list A :=
  let len := Z.of_nat (List.length a) in
  let clamp (k : Z) := if k <? 0 then Z.max (len + k) 0 else Z.min k len in
  let beginIndex := clamp begin in
  let endIndex := clamp end_ in
  firstn (Z.to_nat (Z.max (endIndex - beginIndex) 0)) (skipn (Z.to_nat beginIndex) a).

(** [target.set(source)]: the source overwrites the start of the target; a
    source longer than the target is a RangeError. *)
Definition typed_set {A : Type} (target source : list A) : outcome (list A) :=
  if (List.length source <=? List.length target)%nat
  then Ok (source ++ skipn (List.length source) target)
  else Throw RangeError.

(** Lines 146 to 153 of [extractAudioForTranscription]: the window
    [start, end_) of the decoded signal as a one-channel buffer. *)
Definition sliceAudio (start end_ : Q) (audioBuffer : AudioBuffer) : outcome AudioBuffer :=
  let rate := sampleRate audioBuffer in
  let startSample := Qfloor (round64 (start * rate)) in
  let endSample := Qfloor (round64 (Qmin end_ (duration audioBuffer) * rate)) in
  let frameCount := Z.max 0 (endSample - startSample) in
  let slicedBuffer := createBuffer (Z.to_nat frameCount) rate in
  let channelData := channel0 audioBuffer in
  do slicedData <- typed_set (channel0 slicedBuffer) (subarray startSample endSample channelData);
  Ok (mkBuffer rate slicedData (otherChannels slicedBuffer)).

(** *** The byte array behind the [DataView] *)

Definition bytes : Type := list Z.

(** A store of [vs] at byte offset [off]; outside the array it is a
    RangeError. *)
Definition store (off : nat) (vs : list Z) (mem : bytes) : outcome bytes :=
  if (off + List.length vs <=? List.length mem)%nat
  then Ok (firstn off mem ++ vs ++ skipn (off + List.length vs) mem)
  else Throw RangeError.

Definition load (off n : nat) (mem : bytes) : list Z := firstn n (skipn off mem).

(** Little-endian bytes of an unsigned value, and the value of
    little-endian bytes. *)
Fixpoint le_bytes (n : nat) (v : Z) : list Z :=
  match n with
  | O => []
  | S n' => v mod 256 :: le_bytes n' (v / 256)
  end.

Fixpoint le_value (l : list Z) : Z :=
  match l with
  | [] => 0
  | b :: l' => b + 256 * le_value l'
  end.

Definition setUint8 (off : nat) (v : number) (mem : bytes) : outcome bytes :=
  store off [ToUint8 v] mem.

(** The setters below are the little-endian ones ([true] as last argument). *)
Definition setUint16 (off : nat) (v : number) (mem : bytes) : outcome bytes :=
  store off (le_bytes 2 (ToUint16 v)) mem.

Definition setUint32 (off : nat) (v : number) (mem : bytes) : outcome bytes :=
  store off (le_bytes 4 (ToUint32 v)) mem.

Definition setInt16 (off : nat) (v : number) (mem : bytes) : outcome bytes :=
  store off (le_bytes 2 (ToInt16 v mod 2 ^ 16)) mem.

Definition getUint16 (off : nat) (mem : bytes) : Z := le_value (load off 2 mem).
Definition getUint32 (off : nat) (mem : bytes) : Z := le_value (load off 4 mem).
Definition getInt16 (off : nat) (mem : bytes) : Z :=
  let u := getUint16 off mem in if u <? 2 ^ 15 then u else u - 2 ^ 16.

(** The inner [writeString]: one [setUint8] per code unit. *)
Fixpoint writeString (offset : nat) (s : str) (mem : bytes) : outcome bytes :=
  match s with
  | [] => Ok mem
  | c :: s' =>
      do mem' <- setUint8 offset (of_Z (Z.of_nat (nat_of_ascii c))) mem;
      writeString (S offset) s' mem'
  end.

(** The value that the sample loop hands to [setInt16]:
    [s < 0 ? s * 0x8000 : s * 0x7FFF] for the clamped sample [s]. *)
Definition clampSample (x : number) : number :=
  Math_max (of_Z (-1)) (Math_min (of_Z 1) x).

Definition scaleSample (s : number) : number :=
  if num_lt s (of_Z 0) then num_mul s (of_Z 32768) else num_mul s (of_Z 32767).

(** The loop [for (i = 0; i < buffer.length; i++, offset += 2)]. *)
Fixpoint writeSamples (channel : list number) (offset : nat) (mem : bytes) : outcome bytes :=
  match channel with
  | [] => Ok mem
  | x :: rest =>
      let s := clampSample x in
      do mem' <- setInt16 offset (scaleSample s) mem;
      writeSamples rest (offset + 2) mem'
  end.

Definition audioBufferToWav (buffer : AudioBuffer) : outcome bytes :=
  let n := Z.of_nat (length buffer) in
  let array := repeat 0 (length buffer * 2 + 44) in
  let rate := Fin (sampleRate buffer) in
  do m <- writeString 0 (lit "RIFF") array;
  do m <- setUint32 4 (of_Z (32 + n * 2)) m;
  do m <- writeString 8 (lit "WAVE") m;
  do m <- writeString 12 (lit "fmt ") m;
  do m <- setUint32 16 (of_Z 16) m;
  do m <- setUint16 20 (of_Z 1) m;
  do m <- setUint16 22 (of_Z 1) m;
  do m <- setUint32 24 rate m;
  do m <- setUint32 28 (num_mul rate (of_Z 2)) m;
  do m <- setUint16 32 (of_Z 2) m;
  do m <- setUint16 34 (of_Z 16) m;
  do m <- writeString 36 (lit "data") m;
  do m <- setUint32 40 (of_Z (n * 2)) m;
  writeSamples (channel0 buffer) 44 m.

(** [extractAudioForTranscription] up to the WAV bytes; the source then
    returns their base64 text. *)
Definition extractAudioForTranscription (start end_ : Q) (audioBuffer : AudioBuffer)
  : outcome bytes :=
  do slicedBuffer <- sliceAudio start end_ audioBuffer;
  audioBufferToWav slicedBuffer.

End Audio.

(** ** The translation wrapper (src/services/geminiService.ts) *)

Module Translate.

(** A value produced by [JSON.parse]. *)
#[warnings="-register-all"]
Inductive json : Type :=
| JNull
| JBool (b : bool)
| JNum (x : number)
| JStr (s : str)
| JArr (items : list json)
| JObj (fields : list (str * json)).

(** The request sent to the collaborator.  The prompt is a fixed text
    except for the adult-context paragraph, so the request is the flag and
    the serialised collection. *)
Record Request : Type := mkRequest {
  withAdultContext : bool;
  data : str
}.

Section Collaborator.

(** [ai.models.generateContent]: the call throws, or answers with
    [response.text], which may be undefined. *)
Variable generateContent : Request -> outcome (option str).
Variable JSON_stringify : list Subtitle -> str.
Variable JSON_parse : str -> outcome json.

Definition translateSubtitles (subs : list Subtitle) (adultContext : bool)
  : outcome (list json) :=
  do response <- generateContent
       (mkRequest adultContext (lit "JSON DATA TO PROCESS: " ++ JSON_stringify subs));
  match option_map trim response with
  | None | Some [] => Throw (Error "No translation response received.")
  | Some jsonStr =>
      do translated <- JSON_parse jsonStr;
      match translated with
      | JArr items => Ok items
      | _ => Throw (Error "AI response was not a valid array.")
      end
  end.

End Collaborator.

(** Property lookup on a parsed object *)
Fixpoint lookup (k : str) (fields : list (str * json)) : option json :=
  match fields with
  | [] => None
  | (k', v) :: rest => if str_eqb k k' then Some v else lookup k rest
  end.

Definition get (k : string) (j : json) : option json :=
  match j with
  | JObj fields => lookup (lit k) fields
  | _ => None
  end.

(** The returned element [j] carries the id, the times and the speaker of
    the caption [c]. *)
Definition echoes (c : Subtitle) (j : json) : Prop :=
  get "id" j = Some (JStr (id c))
  /\ get "startTime" j = Some (JNum (startTime c))
  /\ get "endTime" j = Some (JNum (endTime c))
  /\ get "speaker" j = option_map JStr (speaker c).

Definition preserves (subs : list Subtitle) (out : list json) : Prop :=
  Forall2 echoes subs out.

End Translate.

(** ** The transcription wrapper (src/services/geminiService.ts) *)

Module Transcribe.

Import Translate.

(** The request sent to the collaborator.  The prompt is a fixed text
    except for the start time offset, the adult-context paragraph and the
    enhanced-mode paragraph; the thinking budget follows the enhanced mode;
    the audio is attached as it came. *)
Record AudioRequest : Type := mkAudioRequest {
  offset : number;
  enhanced : bool;
  adult : bool;
  inlineData : str
}.

(** [l.map((x, i) => f(x, i))], counting from [i]. *)
Fixpoint map_from {A B : Type} (f : A -> nat -> B) (i : nat) (l : list A) : list B :=
  match l with
  | [] => []
  | a :: l' => f a i :: map_from f (S i) l'
  end.

(** The own enumerable properties that a spread [{...s}] copies: the
    fields of an object, the elements of an array and the code units of a
    string under their indices, and nothing for the other values. *)
Definition own_properties (s : json) : list (str * json) :=
  match s with
  | JObj fields => fields
  | JArr items => map_from (fun v i => (Z_toString (Z.of_nat i), v)) 0 items
  | JStr u => map_from (fun c i => (Z_toString (Z.of_nat i), JStr [c])) 0 u
  | _ => []
  end.

(** A property written after the spread: a key that is there keeps its
    place and takes the new value, a new key goes last. *)
Fixpoint set_property (k : str) (v : json) (fields : list (str * json)) : list (str * json) :=
  match fields with
  | [] => [(k, v)]
  | (k', v') :: rest =>
      if str_eqb k k' then (k, v) :: rest else (k', v') :: set_property k v rest
  end.

(** The callback of [rawSubs.map]: the spread of [s] with the id
    [sub-<Date.now()>-<index>] written over it. *)
Definition with_id (now : nat -> Z) (s : json) (index : nat) : json :=
  JObj (set_property (lit "id")
          (JStr (lit "sub-" ++ Z_toString (now index) ++ lit "-" ++ Z_toString (Z.of_nat index)))
          (own_properties s)).

Section Collaborator.

Variable generateContent : AudioRequest -> outcome (option str).
Variable JSON_parse : str -> outcome json.

(** [response.text] is tested as it is, without a trim; [rawSubs.map] of a
    value that is not an array is a TypeError, as no value that
    [JSON.parse] returns has a callable [map]. *)
Definition transcribeAudio (now : nat -> Z) (audioBase64 : str) (startTime : number)
    (enhancedMode adultContext : bool) : outcome (list json) :=
  do response <- generateContent
       (mkAudioRequest startTime enhancedMode adultContext audioBase64);
  match response with
  | None | Some [] => Throw (Error "No transcription received")
  | Some jsonStr =>
      do rawSubs <- JSON_parse jsonStr;
      match rawSubs with
      | JArr items => Ok (map_from (with_id now) 0 items)
      | _ => Throw TypeError
      end
  end.

End Collaborator.

End Transcribe.

(** * Specification vocabulary

    The notions in which the properties below are stated.  Nothing here is
    part of the program. *)

Module CodecSpec.

Import Codec.

(** [payload] starts with the non-empty, colon-free [name], then a colon,
    then [tail]: the shape that [/^([^:]+):/] matches, with [name] captured. *)
Definition colon_prefix (payload name tail : str) : Prop :=
  name <> [] /\ ~ In ":"%char name /\ payload = name ++ ":"%char :: tail.

(** A matcher that only matches at the code unit [c]. *)
Definition starts_at (m : str -> option nat) (c : ascii) : Prop :=
  forall a s, a <> c -> m (a :: s) = None.

(** No match of [m] starts inside [pre] when [rest] follows it. *)
Fixpoint no_match (m : str -> option nat) (pre rest : str) : Prop :=
  match pre with
  | [] => True
  | c :: p => m (c :: p ++ rest) = None /\ no_match m p rest
  end.

(** Equality of numbers, decided on the fractions as they are stored. *)
Definition number_eqb (x y : number) : bool :=
  match x, y with
  | NaN, NaN | PosInf, PosInf | NegInf, NegInf => true
  | Fin a, Fin b => (Qnum a =? Qnum b) && (Qden a =? Qden b)%positive
  | _, _ => false
  end.

(** Checks of a two-digit and of a three-digit field: the field has its
    width, holds digits only, and reads back as the number it prints. *)
Definition two_digits (n : nat) : bool :=
  let s := pad 2 (Z.of_nat n) in
  (List.length s =? 2)%nat && forallb is_digit s
  && number_eqb (Number s) (of_Z (Z.of_nat n)).

Definition three_digits (n : nat) : bool :=
  let s := pad 3 (Z.of_nat n) in
  (List.length s =? 3)%nat && forallb is_digit s
  && number_eqb (parseInt s) (of_Z (Z.of_nat n)).

(** The time code [HH:MM:SS,mmm] of four fields. *)
Definition timecode (h m s ms : Z) : str :=
  pad 2 h ++ lit ":" ++ pad 2 m ++ lit ":" ++ pad 2 s ++ lit "," ++ pad 3 ms.

(** The whole milliseconds of a time, in seconds. *)
Definition truncate_ms (q : Q) : Q := (inject_Z (Qfloor (q * 1000)) / 1000)%Q.

(** The time code of a time of day: the clock fields of its whole seconds
    and the whole milliseconds of its fraction. *)
Definition timecode_of (q : Q) : str :=
  let T := Qfloor q in
  timecode (T / 3600) ((T / 60) mod 60) (T mod 60) (Qfloor ((q - inject_Z T) * 1000)).

(** A finite time from 0 up to, not including, 24 hours. *)
Definition time_of_day (x : number) : bool :=
  match x with
  | Fin q => Qle_bool 0 q && Qltb q 86400
  | _ => false
  end.

(** A time cut to whole milliseconds. *)
Definition truncate_time (x : number) : number :=
  match x with
  | Fin q => fin (truncate_ms q)
  | _ => x
  end.

(** A string without a line feed. *)
Definition plain_line (s : str) : bool := forallb (fun c => negb (Ascii.eqb c LF)) s.

Definition visible (c : ascii) : bool := negb (is_ws c).

(** A non-empty string whose first and last code units are not white space. *)
Definition visible_ends (s : str) : bool :=
  match s with
  | [] => false
  | c :: _ => visible c && visible (last s c)
  end.

(** The time code of a finite time of day; other numbers have none. *)
Definition timecode_of_number (x : number) : str :=
  match x with
  | Fin q => timecode_of q
  | _ => []
  end.

(** A block inside which no blank line starts and whose first code unit is
    visible; a string whose last code unit is visible. *)
Definition good_block (b : str) : Prop :=
  (forall rest, no_match match_blank_line b rest)
  /\ exists d s, b = d :: s /\ is_ws d = false.

Definition ends_visible (b : str) : Prop :=
  exists t y, b = t ++ [y] /\ is_ws y = false.

(** The lines of a block, its text payload, and the blocks of a file. *)
Definition lines_of (block : str) : list str := split [LF] block.

Definition payload_of (block : str) : str := join (lit " ") (skipn 2 (lines_of block)).

Definition blocks_of (content : str) : list str := split_blank_lines (trim content).

(** A block of at least three lines whose second line has an arrow. *)
Definition well_formed_block (block : str) : Prop :=
  (3 <= List.length (lines_of block))%nat
  /\ (2 <= List.length (split (lit " --> ") (nth 1 (lines_of block) [])))%nat.

(** The same, decided; and the blocks of at least three lines. *)
Definition well_formed_blockb (block : str) : bool :=
  (3 <=? List.length (lines_of block))%nat
  && (2 <=? List.length (split (lit " --> ") (nth 1 (lines_of block) [])))%nat.

Definition long_block (ib : nat * str) : bool :=
  (3 <=? List.length (lines_of (snd ib)))%nat.

(** The blocks with their indices, counted from [i]. *)
Definition indexed_from (i : nat) (blocks : list str) : list (nat * str) :=
  combine (seq i (List.length blocks)) blocks.

(** The two statuses that [parseSRT] sets. *)
Definition import_ok : ProcessingStatus := mkStatus idle 100 "SRT imported successfully.".
Definition import_failed : ProcessingStatus := mkStatus idle 0 "Failed to parse SRT file.".

(** A blank-line sequence starts somewhere in [s]. *)
Fixpoint has_blank_line (s : str) : bool :=
  match s with
  | [] => false
  | _ :: s' =>
      match match_blank_line s with
      | Some _ => true
      | None => has_blank_line s'
      end
  end.

(** The captions for which the round trip is stated: non-negative times
    with the start not after the end, and a text without a blank-line
    sequence. *)
Definition in_stated_domain (c : Subtitle) : bool :=
  match startTime c, endTime c with
  | Fin a, Fin b => Qle_bool 0 a && Qle_bool a b && negb (has_blank_line (text c))
  | _, _ => false
  end.

(** A caption without speaker whose text has a colon. *)
Definition note : Subtitle :=
  mkSubtitle (lit "sub-0-0") (Fin 1) (Fin 2) (lit "Note: hi") None.

End CodecSpec.

Module AudioSpec.

Import Audio.

(** The code units of a tag as bytes. *)
Definition tag (s : string) : bytes :=
  map (fun c => ToUint8 (of_Z (Z.of_nat (nat_of_ascii c)))) (lit s).

(** The 44 bytes that [audioBufferToWav] writes before the samples, for [n]
    frames at the given rate. *)
Definition wav_header (n : Z) (rate : number) : bytes :=
  tag "RIFF" ++ le_bytes 4 (ToUint32 (of_Z (32 + n * 2)))
  ++ tag "WAVE" ++ tag "fmt " ++ le_bytes 4 (ToUint32 (of_Z 16))
  ++ le_bytes 2 (ToUint16 (of_Z 1)) ++ le_bytes 2 (ToUint16 (of_Z 1))
  ++ le_bytes 4 (ToUint32 rate) ++ le_bytes 4 (ToUint32 (num_mul rate (of_Z 2)))
  ++ le_bytes 2 (ToUint16 (of_Z 2)) ++ le_bytes 2 (ToUint16 (of_Z 16))
  ++ tag "data" ++ le_bytes 4 (ToUint32 (of_Z (n * 2))).

(** The 16-bit integer of a sample, and its two bytes. *)
Definition sample16 (x : number) : Z := ToInt16 (scaleSample (clampSample x)).

Definition sample_bytes (x : number) : bytes := le_bytes 2 (sample16 x mod 2 ^ 16).

(** The clamp of a finite sample. *)
Definition clampQ (q : Q) : Q :=
  let m := if Qltb q 1 then q else 1%Q in
  if Qltb (-1) m then m else (-1)%Q.

(** A signal of a size that a host decodes: a rate from 1 Hz to 1 MHz and
    fewer than 2^32 frames. *)
Definition well_sized (b : AudioBuffer) : bool :=
  Qle_bool 1 (sampleRate b) && Qle_bool (sampleRate b) 1000000
  && (Z.of_nat (length b) <? 2 ^ 32).

End AudioSpec.

Module TranslateSpec.

Import Translate.

(** A collaborator that answers every request with an empty array, and a
    parser that reads that one answer as [JSON.parse] does. *)
Definition answers_empty_array (_ : Request) : outcome (option str) := Ok (Some (lit "[]")).

Definition parse_empty_array (s : str) : outcome json :=
  if str_eqb s (lit "[]") then Ok (JArr []) else Throw SyntaxError.

(** A serialiser whose output these collaborators do not look at. *)
Definition no_data (_ : list Subtitle) : str := [].

(** A caption to translate. *)
Definition one_caption : Subtitle :=
  mkSubtitle (lit "sub-0-0") (Fin 1) (Fin 2) (lit "hola") (Some (lit "Speaker 1")).

(** The array of [one_caption] with a translated text, its JSON text, a
    collaborator that answers with that text and a line feed, and a parser
    that reads that one answer as [JSON.parse] does. *)
Definition echo_translated : list json :=
  [JObj [(lit "id", JStr (lit "sub-0-0")); (lit "startTime", JNum (Fin 1));
         (lit "endTime", JNum (Fin 2)); (lit "speaker", JStr (lit "Speaker 1"));
         (lit "text", JStr (lit "hello"))]].

Definition quoted (s : string) : str := ["034"%char] ++ lit s ++ ["034"%char].

Definition echo_text : str :=
  lit "[{" ++ quoted "id" ++ lit ":" ++ quoted "sub-0-0" ++ lit ","
  ++ quoted "startTime" ++ lit ":1," ++ quoted "endTime" ++ lit ":2,"
  ++ quoted "speaker" ++ lit ":" ++ quoted "Speaker 1" ++ lit ","
  ++ quoted "text" ++ lit ":" ++ quoted "hello" ++ lit "}]".

Definition answers_echo (_ : Request) : outcome (option str) :=
  Ok (Some (echo_text ++ [LF])).

Definition parse_echo (s : str) : outcome json :=
  if str_eqb s echo_text then Ok (JArr echo_translated) else Throw SyntaxError.

End TranslateSpec.

Module CodecTerms.

Import Codec CodecSpec.

(** The id that [parseSRT] gives the caption of block [i]. *)
Definition srt_id (now : nat -> Z) (i : nat) : str :=
  lit "srt-" ++ Z_toString (now i) ++ lit "-" ++ Z_toString (Z.of_nat i).

(** A caption whose start time is finite. *)
Definition finite_start (c : Subtitle) : bool :=
  match startTime c with Fin _ => true | _ => false end.

(** [a] starts no later than [b]. *)
Definition starts_before (a b : Subtitle) : Prop :=
  match startTime a, startTime b with
  | Fin x, Fin y => (x <= y)%Q
  | _, _ => False
  end.

(** [c] starts at [k]. *)
Definition starts_at_time (k : Q) (c : Subtitle) : bool :=
  match startTime c with Fin x => Qeq_bool x k | _ => false end.

(** No two different captions of [l] start at the same time. *)
Definition distinct_starts (l : list Subtitle) : Prop :=
  forall a b, In a l -> In b l -> starts_before a b -> starts_before b a -> a = b.

(** A time that [formatTime] can print: finite, and within the range of
    dates once truncated to seconds. *)
Definition formattable (x : number) : bool :=
  match x with
  | Fin q => Z.abs (Qtrunc q * 1000) <=? maxTimeValue
  | _ => false
  end.

Definition exportable (c : Subtitle) : bool :=
  formattable (startTime c) && formattable (endTime c).

(** Three captions, two of which start together, and a file of two blocks. *)
Definition three_captions : list Subtitle :=
  [mkSubtitle (lit "a") (Fin 5) (Fin 6) (lit "late") None;
   mkSubtitle (lit "b") (Fin 1) (Fin 2) (lit "first") None;
   mkSubtitle (lit "c") (Fin 1) (Fin 3) (lit "second") (Some (lit "Ann"))].

Definition two_blocks : str :=
  lit "1" ++ [LF] ++ lit "00:00:01,000 --> 00:00:02,000" ++ [LF] ++ lit "Hello" ++ [LF]
  ++ [LF] ++ lit "2" ++ [LF] ++ lit "00:00:03,000 --> 00:00:04,500" ++ [LF] ++ lit "Ann: Hi".

(** The carriage return, and the check that [parseInt] reads three digits
    before one. *)
Definition CR : ascii := "013"%char.

Definition three_digits_CR (n : nat) : bool :=
  number_eqb (parseInt (pad 3 (Z.of_nat n) ++ [CR])) (of_Z (Z.of_nat n)).

(** A caption for a file with CRLF line ends: finite times of day and a
    one-line text with visible ends and no colon. *)
Definition crlf_ok (c : Subtitle) : bool :=
  time_of_day (startTime c) && time_of_day (endTime c)
  && plain_line (text c) && visible_ends (text c) && forallb not_colon (text c).

(** The block of a caption with CRLF line ends, without the final one; the
    blocks of a collection; the file, whose blocks are separated by an
    empty line. *)
Definition crlf_body (c : Subtitle) (i : nat) : str :=
  Z_toString (Z.of_nat i + 1) ++ [CR; LF] ++ timecode_of_number (startTime c) ++ lit " --> "
  ++ timecode_of_number (endTime c) ++ [CR; LF] ++ text c.

Fixpoint crlf_bodies_from (i : nat) (l : list Subtitle) : list str :=
  match l with
  | [] => []
  | c :: l' => crlf_body c i :: crlf_bodies_from (S i) l'
  end.

Definition crlf_file (l : list Subtitle) : str :=
  join [CR; LF; CR; LF] (crlf_bodies_from 0 l).

(** What the import makes of such a file: every text but the last keeps a
    carriage return. *)
Definition imported (now : nat -> Z) (c : Subtitle) (j : nat) (tail : str) : Subtitle :=
  mkSubtitle (srt_id now j) (truncate_time (startTime c)) (truncate_time (endTime c))
    (text c ++ tail) None.

Fixpoint imported_from (now : nat -> Z) (j : nat) (l : list Subtitle) : list Subtitle :=
  match l with
  | [] => []
  | [c] => [imported now c j []]
  | c :: l' => imported now c j [CR] :: imported_from now (S j) l'
  end.

(** The pieces into which the blank-line expression cuts the file. *)
Fixpoint crlf_pieces_from (i : nat) (l : list Subtitle) : list str :=
  match l with
  | [] => []
  | [c] => [crlf_body c i]
  | c :: l' => (crlf_body c i ++ [CR]) :: crlf_pieces_from (S i) l'
  end.

End CodecTerms.

Module Codec64Spec.

Import Codec CodecSpec.

(** The number that [timeToSec] computes from [T] whole seconds and [ms]
    milliseconds: the quotient is rounded, then the sum. *)
Definition read64 (T ms : Z) : Q := round64 (inject_Z T + round64 (inject_Z ms / 1000)).

(** The milliseconds that [formatTime] prints: 1000 times the fraction of
    the second, rounded, then floored. *)
Definition ms64 (q : Q) : Z := Qfloor (round64 ((q - inject_Z (Qfloor q)) * 1000)).

(** The time code that [formatTime] gives a time of day. *)
Definition timecode64_of (q : Q) : str :=
  let T := Qfloor q in
  timecode (T / 3600) ((T / 60) mod 60) (T mod 60) (ms64 q).

Definition timecode64_of_number (x : number) : str :=
  match x with
  | Fin q => timecode64_of q
  | _ => []
  end.

(** A time of day that is a binary64 number. *)
Definition time64 (x : number) : bool :=
  match x with
  | Fin q => time_of_day x && binary64 q
  | _ => false
  end.

(** A time of day printed by [formatTime] and read by [timeToSec]. *)
Definition reread (x : number) : number :=
  match x with
  | Fin q => fin (read64 (Qfloor q) (ms64 q))
  | _ => x
  end.

(** [y] is [x] cut to whole milliseconds, up to the rounding of the sum:
    less than a millisecond and 2^-36 seconds below [x], less than 2^-36
    seconds above it. *)
Definition close64 (x y : number) : Prop :=
  match x, y with
  | Fin a, Fin b => (a - (1 # 1000) - pow2 (-36) < b)%Q /\ (b < a + pow2 (-36))%Q
  | _, _ => False
  end.

(** A string whose last code unit is visible. *)
Definition visible_end (s : str) : bool :=
  match s with
  | [] => false
  | c :: _ => visible (last s c)
  end.

(** The speaker and the text that the codec carries.  Neither has a line
    feed.  Without speaker, the text ends with a visible code unit and has
    no colon prefix of its own.  With a speaker, the name is not empty and
    has no colon, and the text is empty or starts and ends with a visible
    code unit. *)
Definition words_ok (c : Subtitle) : bool :=
  plain_line (text c)
  && match speaker c with
     | None =>
         visible_end (text c)
         && match match_speaker (text c) with None => true | Some _ => false end
     | Some sp =>
         negb (is_nil sp) && forallb not_colon sp && plain_line sp
         && (is_nil (text c) || visible_ends (text c))
     end.

(** The captions that the codec carries through. *)
Definition carried (c : Subtitle) : bool :=
  time64 (startTime c) && time64 (endTime c) && words_ok c.

(** A block without its final line feed: the number, the time line, and
    the text line [ln]. *)
Definition block64 (c : Subtitle) (i : nat) (ln : str) : str :=
  Z_toString (Z.of_nat i + 1) ++ [LF] ++ timecode64_of_number (startTime c) ++ lit " --> "
  ++ timecode64_of_number (endTime c) ++ [LF] ++ ln.

(** The block of a caption, and what [trim] leaves of it at the end of a
    file: the space after the colon goes when no text follows it. *)
Definition body64 (c : Subtitle) (i : nat) : str := block64 c i (speakerLabel c ++ text c).

Definition kept_line (c : Subtitle) : str :=
  match speaker c, text c with
  | Some (x :: sp), [] => (x :: sp) ++ lit ":"
  | _, _ => speakerLabel c ++ text c
  end.

Definition stem64 (c : Subtitle) (i : nat) : str := block64 c i (kept_line c).

(** What decoding makes of the block of [c]. *)
Definition decoded64 (now : nat -> Z) (c : Subtitle) (j : nat) : Subtitle :=
  mkSubtitle (lit "srt-" ++ Z_toString (now j) ++ lit "-" ++ Z_toString (Z.of_nat j))
    (reread (startTime c)) (reread (endTime c)) (text c) (speaker c).

(** The blocks of a collection, numbered from [i]; the pieces into which
    the trimmed file is cut; and what decoding makes of them, numbered from
    [j]. *)
Fixpoint bodies64_from (i : nat) (l : list Subtitle) : list str :=
  match l with
  | [] => []
  | c :: l' => body64 c i :: bodies64_from (S i) l'
  end.

Fixpoint pieces64_from (i : nat) (l : list Subtitle) : list str :=
  match l with
  | [] => []
  | [c] => [stem64 c i]
  | c :: l' => body64 c i :: pieces64_from (S i) l'
  end.

Fixpoint decoded64_from (now : nat -> Z) (j : nat) (l : list Subtitle) : list Subtitle :=
  match l with
  | [] => []
  | c :: l' => decoded64 now c j :: decoded64_from now (S j) l'
  end.

(** The decoded caption [d] reproduces the caption [c]: same speaker and
    text, times within a millisecond up to rounding. *)
Definition reproduces64 (c d : Subtitle) : Prop :=
  speaker d = speaker c /\ text d = text c
  /\ close64 (startTime c) (startTime d) /\ close64 (endTime c) (endTime d).

(** Two outcomes agree: both are results, related by [R], or both are the
    same exception. *)
Definition agree {A : Type} (R : A -> A -> Prop) (x y : outcome A) : Prop :=
  match x, y with
  | Ok a, Ok b => R a b
  | Throw e, Throw e' => e = e'
  | _, _ => False
  end.

(** Two captions with the same id, speaker and text; two optional captions
    that are both absent or have these in common. *)
Definition same_words (c d : Subtitle) : Prop :=
  id d = id c /\ speaker d = speaker c /\ text d = text c.

Definition same_words_if_any (c d : option Subtitle) : Prop :=
  match c, d with
  | Some c', Some d' => same_words c' d'
  | None, None => True
  | _, _ => False
  end.

End Codec64Spec.

Module AudioTerms.

Import Audio.

(** A value that a byte can hold. *)
Definition is_byte (z : Z) : Prop := 0 <= z < 256.

(** The sample numbers of a window: where it starts and where it ends. *)
Definition startSample_of (start : Q) (b : AudioBuffer) : Z :=
  Qfloor (round64 (start * sampleRate b)).

Definition endSample_of (end_ : Q) (b : AudioBuffer) : Z :=
  Qfloor (round64 (Qmin end_ (duration b) * sampleRate b)).

(** The windows that [sliceAudio] cannot cut: the start is not negative,
    the end is, and the start lies before the end counted back from the
    end of the signal. *)
Definition unsliceable (start end_ : Q) (b : AudioBuffer) : bool :=
  (0 <=? startSample_of start b) && (endSample_of end_ b <? 0)
  && (startSample_of start b <? Z.of_nat (length b) + endSample_of end_ b).

(** Fifteen frames at 44100 Hz. *)
Definition fifteen_frames : AudioBuffer :=
  mkBuffer 44100 (map (fun k => Fin (inject_Z (Z.of_nat k) / 16)) (seq 0 15)) [].

(** Two seconds of two channels at 4 Hz. *)
Definition two_seconds : AudioBuffer :=
  mkBuffer 4
    [Fin 0; Fin 0.5; Fin 1; Fin 2; Fin (-0.5); Fin (-1); Fin (-2); NaN]
    [[Fin 1; Fin 1; Fin 1; Fin 1; Fin 1; Fin 1; Fin 1; Fin 1]].

End AudioTerms.

Module TranscribeSpec.

Import Translate TranslateSpec Transcribe.

(** The id that [transcribeAudio] gives the element [i] of the answer. *)
Definition sub_id (now : nat -> Z) (i : nat) : str :=
  lit "sub-" ++ Z_toString (now i) ++ lit "-" ++ Z_toString (Z.of_nat i).

(** [out] is [raw] renumbered: its id is the one of position [i], and every
    other property is the one that a spread of [raw] has. *)
Definition renumbered (now : nat -> Z) (i : nat) (raw out : json) : Prop :=
  get "id" out = Some (JStr (sub_id now i))
  /\ exists fields,
       out = JObj fields
       /\ forall k : str, k <> lit "id" -> lookup k fields = lookup k (own_properties raw).

Fixpoint renumbered_from (now : nat -> Z) (i : nat) (raws outs : list json) : Prop :=
  match raws, outs with
  | [], [] => True
  | raw :: raws', out :: outs' =>
      renumbered now i raw out /\ renumbered_from now (S i) raws' outs'
  | _, _ => False
  end.

(** An answer of one segment that carries an id of its own, a collaborator
    that gives it, and a parser that reads that one answer as [JSON.parse]
    does. *)
Definition segment_text : str :=
  lit "[{" ++ quoted "id" ++ lit ":" ++ quoted "mine" ++ lit ","
  ++ quoted "startTime" ++ lit ":1," ++ quoted "endTime" ++ lit ":2,"
  ++ quoted "speaker" ++ lit ":" ++ quoted "Speaker 1" ++ lit ","
  ++ quoted "text" ++ lit ":" ++ quoted "hola" ++ lit "}]".

Definition segment : list json :=
  [JObj [(lit "id", JStr (lit "mine")); (lit "startTime", JNum (Fin 1));
         (lit "endTime", JNum (Fin 2)); (lit "speaker", JStr (lit "Speaker 1"));
         (lit "text", JStr (lit "hola"))]].

Definition answers_segment (_ : AudioRequest) : outcome (option str) :=
  Ok (Some segment_text).

Definition parse_segment (s : str) : outcome json :=
  if str_eqb s segment_text then Ok (JArr segment) else Throw SyntaxError.

End TranscribeSpec.

Module TranslateTerms.

Import Translate.

(** A collaborator that answers every request with white space. *)
Definition answers_blank (_ : Request) : outcome (option str) := Ok (Some (LF :: lit "  ")).

End TranslateTerms.

(** * Properties of the rounding to binary64 *)

Module Binary64Props.

Import JS.

(** ** Powers of two *)

Lemma pow2_pos (e : Z) : (0 < pow2 e)%Q.
Proof. apply Qpower_0_lt. reflexivity. Qed.

Lemma pow2_add (a b : Z) : (pow2 (a + b) == pow2 a * pow2 b)%Q.
Proof. apply Qpower_plus. discriminate. Qed.

Lemma pow2_sub (a b : Z) : (pow2 (a - b) == pow2 a / pow2 b)%Q.
Proof. apply Qpower_minus. discriminate. Qed.

Lemma pow2_Z (e : Z) : 0 <= e -> (pow2 e == inject_Z (2 ^ e))%Q.
Proof. intros H. unfold pow2. now rewrite Zpower_Qpower. Qed.

Lemma pow2_le (a b : Z) : a <= b -> (pow2 a <= pow2 b)%Q.
Proof. intros H. apply Qpower_le_compat_l; [exact H | discriminate]. Qed.

Lemma pow2_lt (a b : Z) : a < b -> (pow2 a < pow2 b)%Q.
Proof. intros H. apply Qpower_lt_compat_l; [exact H | reflexivity]. Qed.

Lemma pow2_lt_inv (a b : Z) : (pow2 a < pow2 b)%Q -> a < b.
Proof.
  intros H. destruct (Z_lt_le_dec a b) as [L|L]; [exact L|].
  apply pow2_le in L. lra.
Qed.

Lemma pow2_succ (e : Z) : (pow2 (e + 1) == 2 * pow2 e)%Q.
Proof. rewrite pow2_add. change (pow2 1) with 2%Q. ring. Qed.

Lemma pow2_pred (e : Z) : (pow2 (e - 1) == pow2 e / 2)%Q.
Proof. rewrite pow2_sub. change (pow2 1) with 2%Q. reflexivity. Qed.

(** ** The binade of a number *)

Lemma Qdiv_lt_cross (A B C D : Z) :
  0 < B -> 0 < D -> A * D < C * B ->
  (inject_Z A / inject_Z B < inject_Z C / inject_Z D)%Q.
Proof.
  intros HB HD H.
  assert (QB : (0 < inject_Z B)%Q) by (change 0%Q with (inject_Z 0); now rewrite <- Zlt_Qlt).
  assert (QD : (0 < inject_Z D)%Q) by (change 0%Q with (inject_Z 0); now rewrite <- Zlt_Qlt).
  apply Qlt_shift_div_l; [exact QD|].
  setoid_replace (inject_Z A / inject_Z B * inject_Z D)%Q
    with (inject_Z A * inject_Z D / inject_Z B)%Q by (field; lra).
  apply Qlt_shift_div_r; [exact QB|].
  rewrite <- !inject_Z_mult, <- Zlt_Qlt. exact H.
Qed.

Lemma Qlog2_spec (x : Q) :
  ~ (x == 0)%Q -> (pow2 (Qlog2 x) <= Qabs x)%Q /\ (Qabs x < pow2 (Qlog2 x + 1))%Q.
Proof.
  intros Hx. destruct x as [n d].
  assert (Hn : n <> 0).
  { intros ->. apply Hx. reflexivity. }
  unfold Qlog2. cbn [Qnum Qden Qabs].
  set (N := Z.abs n). set (D := Zpos d).
  assert (HN : 0 < N) by (unfold N; lia).
  assert (HD : 0 < D) by (unfold D; lia).
  destruct (Z.log2_spec N HN) as [A1 A2]. destruct (Z.log2_spec D HD) as [B1 B2].
  pose proof (Z.log2_nonneg N) as PA. pose proof (Z.log2_nonneg D) as PB.
  set (a := Z.log2 N) in *. set (b := Z.log2 D) in *.
  assert (E : (N # d == inject_Z N / inject_Z D)%Q) by apply Qmake_Qdiv.
  assert (P2a : 0 < 2 ^ a) by (apply Z.pow_pos_nonneg; lia).
  assert (P2b : 0 < 2 ^ b) by (apply Z.pow_pos_nonneg; lia).
  assert (Lo : (pow2 (a - b - 1) < N # d)%Q).
  { replace (a - b - 1) with (a - (b + 1)) by lia.
    rewrite pow2_sub, (pow2_Z a), (pow2_Z (b + 1)), E by lia.
    apply Qdiv_lt_cross; [apply Z.pow_pos_nonneg; lia | exact HD |].
    replace (Z.succ b) with (b + 1) in B2 by lia. nia. }
  assert (Hi : (N # d < pow2 (a - b + 1))%Q).
  { replace (a - b + 1) with (a + 1 - b) by lia.
    rewrite pow2_sub, (pow2_Z (a + 1)), (pow2_Z b), E by lia.
    apply Qdiv_lt_cross; [exact HD | exact P2b |].
    replace (Z.succ a) with (a + 1) in A2 by lia. nia. }
  destruct (Qle_bool (pow2 (a - b)) (N # d)) eqn:C.
  - apply Qle_bool_iff in C. split; [exact C | exact Hi].
  - split; [apply Qlt_le_weak; exact Lo|].
    replace (a - b - 1 + 1) with (a - b) by lia.
    destruct (Qlt_le_dec (N # d) (pow2 (a - b))) as [L|L]; [exact L|].
    apply Qle_bool_iff in L. congruence.
Qed.

Lemma Qlog2_unique (x : Q) (L : Z) :
  (pow2 L <= Qabs x)%Q -> (Qabs x < pow2 (L + 1))%Q -> Qlog2 x = L.
Proof.
  intros H1 H2.
  assert (Hx : ~ (x == 0)%Q).
  { intros E. rewrite E in H1. change (Qabs 0) with 0%Q in H1.
    pose proof (pow2_pos L). lra. }
  destruct (Qlog2_spec x Hx) as [S1 S2].
  assert (Qlog2 x < L + 1) by (apply pow2_lt_inv; lra).
  assert (L < Qlog2 x + 1) by (apply pow2_lt_inv; lra).
  lia.
Qed.

Lemma Qlog2_comp (x y : Q) : ~ (y == 0)%Q -> (x == y)%Q -> Qlog2 x = Qlog2 y.
Proof.
  intros N E. destruct (Qlog2_spec y N) as [S1 S2].
  apply Qlog2_unique; now rewrite E.
Qed.

(** ** Rounding to an integer *)

Lemma rne_cases (x : Q) :
  let f := Qfloor x in
  (inject_Z f <= x)%Q /\ (x < inject_Z f + 1)%Q
  /\ (((x - inject_Z f < 1 # 2)%Q /\ rne x = f)
      \/ ((1 # 2 < x - inject_Z f)%Q /\ rne x = f + 1)
      \/ ((x - inject_Z f == 1 # 2)%Q /\ (rne x = f \/ rne x = f + 1)
          /\ Z.even (rne x) = true)).
Proof.
  intros f. pose proof (Qfloor_le x) as F1. pose proof (Qlt_floor x) as F2.
  fold f in F1, F2. rewrite inject_Z_plus in F2. change (inject_Z 1) with 1%Q in F2.
  split; [exact F1|]. split; [exact F2|].
  unfold rne. fold f.
  destruct (x - inject_Z f ?= 1 # 2)%Q eqn:C.
  - apply Qeq_alt in C. right. right. split; [exact C|].
    destruct (Z.even f) eqn:Ev; [auto|].
    split; [auto|]. rewrite Z.even_add, Ev. reflexivity.
  - apply Qlt_alt in C. left. auto.
  - apply Qgt_alt in C. right. left. auto.
Qed.

Lemma rne_error (x : Q) :
  (- (1 # 2) <= inject_Z (rne x) - x)%Q /\ (inject_Z (rne x) - x <= 1 # 2)%Q.
Proof.
  destruct (rne_cases x) as (F1 & F2 & [[C ->] | [[C ->] | (C & [-> | ->] & _)]]);
    try rewrite inject_Z_plus; try change (inject_Z 1) with 1%Q; lra.
Qed.

Lemma rne_comp (x y : Q) : (x == y)%Q -> rne x = rne y.
Proof.
  intros E. unfold rne. rewrite (Qfloor_comp x y E).
  assert (C : (x - inject_Z (Qfloor y) ?= 1 # 2)%Q = (y - inject_Z (Qfloor y) ?= 1 # 2)%Q).
  { apply Qcompare_comp; [now rewrite E | reflexivity]. }
  now rewrite C.
Qed.

Lemma rne_Z (z : Z) : rne (inject_Z z) = z.
Proof.
  destruct (rne_cases (inject_Z z)) as (_ & _ & H). rewrite Qfloor_Z in H.
  destruct H as [[_ E] | [[C _] | (C & _)]]; [exact E | lra | lra].
Qed.

Lemma rne_mono (x y : Q) : (x <= y)%Q -> rne x <= rne y.
Proof.
  intros H. pose proof (Qfloor_resp_le x y H) as F.
  destruct (rne_cases x) as (X1 & X2 & HX), (rne_cases y) as (Y1 & Y2 & HY).
  destruct (Z_lt_le_dec (Qfloor x) (Qfloor y)) as [L|L].
  - destruct HX as [[_ ->] | [[_ ->] | (_ & [-> | ->] & _)]];
      destruct HY as [[_ ->] | [[_ ->] | (_ & [-> | ->] & _)]]; lia.
  - assert (E : Qfloor x = Qfloor y) by lia. rewrite E in *.
    destruct HX as [[CX EX] | [[CX EX] | (CX & EX & VX)]];
      destruct HY as [[CY EY] | [[CY EY] | (CY & EY & VY)]];
      try lra; try lia.
    destruct EX as [EX|EX], EY as [EY|EY]; try lia.
    rewrite EX in VX. rewrite EY in VY. rewrite Z.even_add in VX. rewrite VY in VX.
    discriminate.
Qed.

Lemma rne_nonneg (x : Q) : (0 <= x)%Q -> 0 <= rne x.
Proof. intros H. rewrite <- (rne_Z 0). now apply rne_mono. Qed.

(** ** Rounding to binary64 *)

Lemma ulp_exp_comp (x y : Q) : ~ (y == 0)%Q -> (x == y)%Q -> ulp_exp x = ulp_exp y.
Proof. intros N E. unfold ulp_exp. now rewrite (Qlog2_comp x y N E). Qed.

Lemma round64_comp (x y : Q) : (x == y)%Q -> (round64 x == round64 y)%Q.
Proof.
  intros E. unfold round64.
  rewrite (Qeqb_comp x y E 0%Q 0%Q (Qeq_refl 0)).
  destruct (Qeq_bool y 0) eqn:Z0; [reflexivity|].
  assert (N : ~ (y == 0)%Q) by (intros H; apply Qeq_bool_iff in H; congruence).
  rewrite (ulp_exp_comp x y N E).
  rewrite (rne_comp (x / pow2 (ulp_exp y)) (y / pow2 (ulp_exp y))) by (now rewrite E).
  reflexivity.
Qed.

Lemma round64_0 : round64 0 = 0%Q.
Proof. reflexivity. Qed.

(** The rounded number on the grid of its last place. *)
Lemma round64_grid (x : Q) :
  ~ (x == 0)%Q ->
  (round64 x == inject_Z (rne (x / pow2 (ulp_exp x))) * pow2 (ulp_exp x))%Q.
Proof.
  intros N. unfold round64. destruct (Qeq_bool x 0) eqn:E; [|reflexivity].
  apply Qeq_bool_iff in E. contradiction.
Qed.

(** The error is at most half a unit in the last place. *)
Lemma round64_half_ulp (x : Q) :
  ~ (x == 0)%Q -> (Qabs (round64 x - x) <= pow2 (ulp_exp x) / 2)%Q.
Proof.
  intros N. rewrite (round64_grid x N).
  set (u := pow2 (ulp_exp x)). pose proof (pow2_pos (ulp_exp x)) as U. fold u in U.
  destruct (rne_error (x / u)) as [E1 E2]. set (r := inject_Z (rne (x / u))) in *.
  assert (X : (x == x / u * u)%Q) by (field; lra).
  apply Qabs_Qle_condition. split.
  - assert ((r - x / u) * u >= - (1 # 2) * u)%Q by (apply Qmult_le_compat_r; lra).
    setoid_replace (r * u - x)%Q with ((r - x / u) * u)%Q by (field; lra).
    setoid_replace (- (u / 2))%Q with (- (1 # 2) * u)%Q by field. exact H.
  - assert ((r - x / u) * u <= (1 # 2) * u)%Q by (apply Qmult_le_compat_r; lra).
    setoid_replace (r * u - x)%Q with ((r - x / u) * u)%Q by (field; lra).
    setoid_replace (u / 2)%Q with ((1 # 2) * u)%Q by field. exact H.
Qed.

(** The error relative to the number, with the subnormal floor. *)
Lemma round64_error (x : Q) :
  (Qabs (round64 x - x) <= Qabs x / inject_Z (2 ^ 53) + pow2 (-1075))%Q.
Proof.
  destruct (Qeq_dec x 0) as [Z0|N].
  - rewrite (round64_comp x 0 Z0), Z0, round64_0.
    change (Qabs (0 - 0)) with 0%Q. change (Qabs 0) with 0%Q.
    pose proof (pow2_pos (-1075)). unfold Qdiv. rewrite Qmult_0_l. lra.
  - pose proof (round64_half_ulp x N) as H.
    destruct (Qlog2_spec x N) as [S1 _].
    pose proof (Qabs_nonneg x) as A. pose proof (pow2_pos (-1075)) as P.
    assert (D : (0 <= Qabs x / inject_Z (2 ^ 53))%Q).
    { apply Qle_shift_div_l; [reflexivity | lra]. }
    unfold ulp_exp in H.
    destruct (Z.max_spec (Qlog2 x - 52) (-1074)) as [[_ M] | [_ M]]; rewrite M in H.
    + assert (E : (pow2 (-1074) / 2 == pow2 (-1075))%Q)
        by (rewrite <- pow2_pred; reflexivity).
      rewrite E in H. lra.
    + assert (E : (pow2 (Qlog2 x - 52) / 2 == pow2 (Qlog2 x) / inject_Z (2 ^ 53))%Q).
      { rewrite <- pow2_pred. replace (Qlog2 x - 52 - 1) with (Qlog2 x - 53) by lia.
        rewrite pow2_sub, (pow2_Z 53) by lia. reflexivity. }
      rewrite E in H.
      assert (pow2 (Qlog2 x) / inject_Z (2 ^ 53) <= Qabs x / inject_Z (2 ^ 53))%Q.
      { apply Qmult_le_compat_r; [exact S1|]. apply Qinv_le_0_compat. discriminate. }
      lra.
Qed.

Lemma round64_nonneg (x : Q) : (0 <= x)%Q -> (0 <= round64 x)%Q.
Proof.
  intros H. unfold round64. destruct (Qeq_bool x 0); [lra|].
  pose proof (pow2_pos (ulp_exp x)) as U.
  assert (0 <= x / pow2 (ulp_exp x))%Q by (apply Qle_shift_div_l; lra).
  apply rne_nonneg in H0. rewrite Zle_Qle in H0. change (inject_Z 0) with 0%Q in H0.
  apply Qmult_le_0_compat; lra.
Qed.

(** Every integer below 2^53 in magnitude is a binary64 number. *)
Lemma round64_Z (z : Z) : Z.abs z < 2 ^ 53 -> (round64 (inject_Z z) == inject_Z z)%Q.
Proof.
  intros H. destruct (Z.eq_dec z 0) as [->|N0]; [reflexivity|].
  assert (N : ~ (inject_Z z == 0)%Q).
  { intros E. apply N0. apply (proj1 (inject_Z_injective z 0)). exact E. }
  rewrite (round64_grid _ N).
  set (e := ulp_exp (inject_Z z)).
  assert (He : e <= 0).
  { unfold e, ulp_exp. destruct (Qlog2_spec _ N) as [S1 _].
    assert (Qlog2 (inject_Z z) < 53).
    { apply pow2_lt_inv. eapply Qle_lt_trans; [exact S1|].
      rewrite (pow2_Z 53) by lia.
      assert (E : (Qabs (inject_Z z) == inject_Z (Z.abs z))%Q) by reflexivity.
      rewrite E, <- Zlt_Qlt. exact H. }
    lia. }
  assert (P : (/ pow2 e == inject_Z (2 ^ (- e)))%Q).
  { rewrite <- (pow2_Z (- e)) by lia. unfold pow2. now rewrite Qpower_opp. }
  assert (Q1 : (inject_Z z / pow2 e == inject_Z (z * 2 ^ (- e)))%Q).
  { unfold Qdiv. rewrite P, inject_Z_mult. reflexivity. }
  rewrite (rne_comp _ _ Q1), rne_Z, inject_Z_mult, <- P.
  pose proof (pow2_pos e). field. lra.
Qed.

(** ** Bounds on the error *)

Lemma tiny_bound :
  (0 < pow2 (-1075))%Q
  /\ (pow2 (-1075) <= 1 # 10000000000000000000000000000000000000000)%Q.
Proof.
  split; [apply pow2_pos|].
  apply Qle_trans with (pow2 (-140)); [apply pow2_le; lia|].
  apply Qle_bool_iff. vm_compute. reflexivity.
Qed.

(** A number from 0 to [b] and its rounding differ by at most [b / 2^53],
    and the subnormal floor. *)
Lemma round64_near (x b : Q) :
  (0 <= x)%Q -> (x <= b)%Q ->
  (x - b / 9007199254740992 - pow2 (-1075) <= round64 x)%Q
  /\ (round64 x <= x + b / 9007199254740992 + pow2 (-1075))%Q.
Proof.
  intros H0 Hb. pose proof (round64_error x) as E.
  rewrite (Qabs_pos x H0) in E. change (inject_Z (2 ^ 53)) with 9007199254740992%Q in E.
  apply Qabs_Qle_condition in E. destruct E as [E1 E2].
  assert (D : (x / 9007199254740992 <= b / 9007199254740992)%Q).
  { apply Qmult_le_compat_r; [exact Hb | discriminate]. }
  split; lra.
Qed.

Lemma fin64_small (q : Q) : (Qabs q < pow2 1023)%Q -> fin64 q = fin (round64 q).
Proof.
  intros H. unfold fin64. cbv zeta.
  destruct (Qle_bool (pow2 1024) (Qabs (round64 q))) eqn:C; [|reflexivity].
  exfalso. apply Qle_bool_iff in C.
  pose proof (round64_error q) as E. pose proof (Qabs_nonneg q) as A.
  assert (T : (Qabs (round64 q) <= Qabs (round64 q - q) + Qabs q)%Q).
  { setoid_replace (round64 q) with ((round64 q - q) + q)%Q at 1 by ring.
    apply Qabs_triangle. }
  destruct tiny_bound as [_ T1].
  pose proof (pow2_le 1 1023 ltac:(lia)) as P1. change (pow2 1) with 2%Q in P1.
  pose proof (pow2_succ 1023) as P2. change (1023 + 1) with 1024 in P2.
  rewrite P2 in C.
  assert (D2 : (Qabs q / inject_Z (2 ^ 53) <= Qabs q / 2)%Q).
  { apply Qle_shift_div_r; [reflexivity|].
    change (inject_Z (2 ^ 53)) with 9007199254740992%Q.
    setoid_replace (Qabs q / 2 * 9007199254740992)%Q
      with (Qabs q * 4503599627370496)%Q by field.
    lra. }
  assert (H2 : (Qabs q / 2 < pow2 1023 / 2)%Q).
  { apply Qmult_lt_compat_r; [reflexivity | exact H]. }
  assert (H3 : (pow2 1023 / 2 + pow2 1023 / 2 == pow2 1023)%Q) by field.
  assert (H4 : (1 <= pow2 1023 / 2)%Q).
  { apply Qle_shift_div_l; [reflexivity | lra]. }
  lra.
Qed.

(** ** The operations on numbers of moderate size *)

Lemma modest (q : Q) : (Qabs q <= 1000000000)%Q -> (Qabs q < pow2 1023)%Q.
Proof.
  intros H. apply Qle_lt_trans with 1000000000%Q; [exact H|].
  apply Qlt_le_trans with (pow2 30); [reflexivity | apply pow2_le; lia].
Qed.

Lemma fin_eq (a b : Q) : (a == b)%Q -> fin a = fin b.
Proof. intros H. unfold fin. f_equal. now apply Qred_complete. Qed.

Lemma Qred_inject_Z (z : Z) : Qred (inject_Z z) = inject_Z z.
Proof.
  unfold inject_Z, Qred.
  generalize (Z.ggcd_gcd z 1) (Z.ggcd_correct_divisors z 1).
  destruct (Z.ggcd z 1) as (g, (aa, bb)). simpl. rewrite Z.gcd_1_r.
  intros -> [H1 H2]. rewrite Z.mul_1_l in H1, H2. subst. reflexivity.
Qed.

Lemma fin_of_Z (q : Q) (z : Z) : (q == inject_Z z)%Q -> fin q = of_Z z.
Proof. intros H. rewrite (fin_eq _ _ H). unfold fin, of_Z. now rewrite Qred_inject_Z. Qed.

Lemma rounded_fin (q : Q) : (Qabs q <= 1000000000)%Q -> rounded (Fin q) = fin (round64 q).
Proof. intros H. cbn [rounded]. apply fin64_small. now apply modest. Qed.

Lemma Qabs_inject_Z (z : Z) : Qabs (inject_Z z) = inject_Z (Z.abs z).
Proof. reflexivity. Qed.

Lemma modest_Z (z : Z) : Z.abs z <= 1000000000 -> (Qabs (inject_Z z) <= 1000000000)%Q.
Proof.
  intros H. rewrite Qabs_inject_Z. change 1000000000%Q with (inject_Z 1000000000).
  now rewrite <- Zle_Qle.
Qed.

(** An integer of moderate size is a binary64 number. *)
Lemma rounded_of_Z (z : Z) : Z.abs z <= 1000000000 -> rounded (of_Z z) = of_Z z.
Proof.
  intros H. unfold of_Z. rewrite rounded_fin by now apply modest_Z.
  apply fin_of_Z. apply round64_Z. lia.
Qed.

Lemma add64_fin (a b : Q) :
  (Qabs (a + b) <= 1000000000)%Q -> add64 (Fin a) (Fin b) = fin (round64 (a + b)).
Proof.
  intros H. unfold add64, num_add, fin at 1.
  rewrite rounded_fin by (now rewrite Qred_correct).
  apply fin_eq, round64_comp, Qred_correct.
Qed.

Lemma mul64_fin (a b : Q) :
  (Qabs (a * b) <= 1000000000)%Q -> mul64 (Fin a) (Fin b) = fin (round64 (a * b)).
Proof.
  intros H. unfold mul64, num_mul, fin at 1.
  rewrite rounded_fin by (now rewrite Qred_correct).
  apply fin_eq, round64_comp, Qred_correct.
Qed.

Lemma div64_fin (a b : Q) :
  ~ (b == 0)%Q -> (Qabs (a / b) <= 1000000000)%Q ->
  div64 (Fin a) (Fin b) = fin (round64 (a / b)).
Proof.
  intros N H. unfold div64, num_div.
  destruct (Qeq_bool b 0) eqn:E; [apply Qeq_bool_iff in E; contradiction|].
  unfold fin at 1. rewrite rounded_fin by (now rewrite Qred_correct).
  apply fin_eq, round64_comp, Qred_correct.
Qed.

Lemma add64_of_Z (a b : Z) :
  Z.abs (a + b) <= 1000000000 -> add64 (of_Z a) (of_Z b) = of_Z (a + b).
Proof.
  intros H. unfold of_Z. rewrite add64_fin by (rewrite <- inject_Z_plus; now apply modest_Z).
  apply fin_of_Z. rewrite <- inject_Z_plus. apply round64_Z. lia.
Qed.

Lemma mul64_of_Z (a b : Z) :
  Z.abs (a * b) <= 1000000000 -> mul64 (of_Z a) (of_Z b) = of_Z (a * b).
Proof.
  intros H. unfold of_Z. rewrite mul64_fin by (rewrite <- inject_Z_mult; now apply modest_Z).
  apply fin_of_Z. rewrite <- inject_Z_mult. apply round64_Z. lia.
Qed.

(** ** Floors *)

Lemma Qfloor_unique (x : Q) (z : Z) :
  (inject_Z z <= x)%Q -> (x < inject_Z (z + 1))%Q -> Qfloor x = z.
Proof.
  intros H1 H2.
  pose proof (Qfloor_le x) as F1. pose proof (Qlt_floor x) as F2.
  assert (z < Qfloor x + 1).
  { rewrite Zlt_Qlt. eapply Qle_lt_trans; eassumption. }
  assert (Qfloor x < z + 1).
  { rewrite Zlt_Qlt. eapply Qle_lt_trans; eassumption. }
  lia.
Qed.

Lemma Qfloor_bounds (x : Q) : (inject_Z (Qfloor x) <= x)%Q /\ (x < inject_Z (Qfloor x) + 1)%Q.
Proof.
  pose proof (Qfloor_le x) as F1. pose proof (Qlt_floor x) as F2.
  rewrite inject_Z_plus in F2. now split.
Qed.

(** ** The binary64 numbers *)

Lemma binary64_spec (q : Q) : binary64 q = true <-> (round64 q == q)%Q.
Proof. unfold binary64. apply Qeq_bool_iff. Qed.

(** From one half on, a binary64 number is a multiple of 2^-53. *)
Lemma binary64_scaled (q : Q) :
  binary64 q = true -> (1 # 2 <= q)%Q ->
  exists N : Z, (q * 9007199254740992 == inject_Z N)%Q.
Proof.
  intros B H. apply binary64_spec in B.
  assert (N0 : ~ (q == 0)%Q) by (intros E; rewrite E in H; lra).
  rewrite (round64_grid q N0) in B.
  destruct (Qlog2_spec q N0) as [_ S2]. rewrite Qabs_pos in S2 by lra.
  assert (L : -1 < Qlog2 q + 1).
  { apply pow2_lt_inv. change (pow2 (-1)) with (1 # 2)%Q. lra. }
  set (e := ulp_exp q) in *.
  assert (He : -53 <= e) by (unfold e, ulp_exp; lia).
  exists (rne (q / pow2 e) * 2 ^ (e + 53)).
  rewrite inject_Z_mult, <- (pow2_Z (e + 53)), pow2_add by lia.
  change (pow2 53) with 9007199254740992%Q.
  rewrite <- B at 1. ring.
Qed.

(** The fraction of a binary64 number is at most 1 - 2^-53. *)
Lemma binary64_fraction (q : Q) :
  binary64 q = true -> (0 <= q)%Q ->
  (q - inject_Z (Qfloor q) <= 1 - 1 / 9007199254740992)%Q.
Proof.
  intros B H0. destruct (Qfloor_bounds q) as [F1 F2].
  destruct (Qlt_le_dec q (1 # 2)) as [S|S].
  - assert (E : Qfloor q = 0).
    { apply Qfloor_unique; [exact H0|]. change (inject_Z (0 + 1)) with 1%Q. lra. }
    rewrite E. change (inject_Z 0) with 0%Q.
    assert (1 # 2 <= 1 - 1 / 9007199254740992)%Q by (apply Qle_bool_iff; reflexivity).
    lra.
  - destruct (binary64_scaled q B S) as [N EN].
    set (T := Qfloor q) in *.
    assert (M : N - T * 9007199254740992 < 9007199254740992).
    { rewrite Zlt_Qlt. unfold Z.sub. rewrite inject_Z_plus, inject_Z_opp, inject_Z_mult, <- EN.
      change (inject_Z 9007199254740992) with 9007199254740992%Q. lra. }
    assert (M' : N - T * 9007199254740992 <= 9007199254740991) by lia.
    rewrite Zle_Qle in M'. unfold Z.sub in M'.
    rewrite inject_Z_plus, inject_Z_opp, inject_Z_mult, <- EN in M'.
    change (inject_Z 9007199254740992) with 9007199254740992%Q in M'.
    change (inject_Z 9007199254740991) with 9007199254740991%Q in M'.
    assert (K : (1 - 1 / 9007199254740992 == 9007199254740991 / 9007199254740992)%Q)
      by reflexivity.
    rewrite K. apply Qle_shift_div_l; [reflexivity|]. lra.
Qed.

(** ** Rounding keeps the order *)

Lemma pow2_quotient (k e : Z) : e <= k -> (pow2 k / pow2 e == inject_Z (2 ^ (k - e)))%Q.
Proof. intros H. rewrite <- pow2_sub. apply pow2_Z. lia. Qed.

Lemma round64_le_pow2 (x : Q) (k : Z) :
  (0 < x)%Q -> (x <= pow2 k)%Q -> ulp_exp x <= k -> (round64 x <= pow2 k)%Q.
Proof.
  intros H0 Hx He.
  assert (N : ~ (x == 0)%Q) by (intros E; rewrite E in H0; lra).
  rewrite (round64_grid x N).
  set (e := ulp_exp x) in *. pose proof (pow2_pos e) as U.
  assert (D : (x / pow2 e <= pow2 k / pow2 e)%Q).
  { unfold Qdiv. apply Qmult_le_compat_r; [exact Hx|]. apply Qinv_le_0_compat. lra. }
  apply rne_mono in D. rewrite (rne_comp _ _ (pow2_quotient k e He)), rne_Z in D.
  rewrite Zle_Qle, <- (pow2_quotient k e He) in D.
  apply Qle_trans with (pow2 k / pow2 e * pow2 e)%Q.
  - apply Qmult_le_compat_r; [exact D | lra].
  - apply Qle_lteq. right. field. lra.
Qed.

Lemma round64_ge_pow2 (y : Q) (k : Z) :
  (pow2 k <= y)%Q -> ulp_exp y <= k -> (pow2 k <= round64 y)%Q.
Proof.
  intros Hy He. pose proof (pow2_pos k) as K.
  assert (N : ~ (y == 0)%Q) by (intros E; rewrite E in Hy; lra).
  rewrite (round64_grid y N).
  set (e := ulp_exp y) in *. pose proof (pow2_pos e) as U.
  assert (D : (pow2 k / pow2 e <= y / pow2 e)%Q).
  { unfold Qdiv. apply Qmult_le_compat_r; [exact Hy|]. apply Qinv_le_0_compat. lra. }
  apply rne_mono in D. rewrite (rne_comp _ _ (pow2_quotient k e He)), rne_Z in D.
  rewrite Zle_Qle, <- (pow2_quotient k e He) in D.
  apply Qle_trans with (pow2 k / pow2 e * pow2 e)%Q.
  - apply Qle_lteq. right. field. lra.
  - apply Qmult_le_compat_r; [exact D | lra].
Qed.

Lemma Qlog2_mono (x y : Q) : (0 < x)%Q -> (x <= y)%Q -> Qlog2 x <= Qlog2 y.
Proof.
  intros H0 H.
  assert (Nx : ~ (x == 0)%Q) by (intros E; rewrite E in H0; lra).
  assert (Ny : ~ (y == 0)%Q) by (intros E; rewrite E in H; lra).
  destruct (Qlog2_spec x Nx) as [X1 _], (Qlog2_spec y Ny) as [_ Y2].
  rewrite Qabs_pos in X1 by lra. rewrite Qabs_pos in Y2 by lra.
  assert (Qlog2 x < Qlog2 y + 1) by (apply pow2_lt_inv; lra).
  lia.
Qed.

(** On numbers from 0 on, rounding keeps the order. *)
Lemma round64_mono (x y : Q) : (0 <= x)%Q -> (x <= y)%Q -> (round64 x <= round64 y)%Q.
Proof.
  intros H0 H.
  destruct (Qeq_dec x 0) as [Z0|Nx].
  { rewrite (round64_comp x 0 Z0), round64_0. apply round64_nonneg. lra. }
  assert (P : (0 < x)%Q).
  { destruct (Qlt_le_dec 0 x) as [L|L]; [exact L|]. exfalso. apply Nx. lra. }
  assert (Ny : ~ (y == 0)%Q) by (intros E; rewrite E in H; lra).
  pose proof (Qlog2_mono x y P H) as L.
  destruct (Z.eq_dec (ulp_exp x) (ulp_exp y)) as [E|E].
  - rewrite (round64_grid x Nx), (round64_grid y Ny), E.
    pose proof (pow2_pos (ulp_exp y)) as U.
    apply Qmult_le_compat_r; [|lra].
    rewrite <- Zle_Qle. apply rne_mono.
    unfold Qdiv. apply Qmult_le_compat_r; [exact H|]. apply Qinv_le_0_compat. lra.
  - destruct (Qlog2_spec x Nx) as [_ X2], (Qlog2_spec y Ny) as [Y1 _].
    rewrite Qabs_pos in X2 by lra. rewrite Qabs_pos in Y1 by lra.
    assert (L2 : Qlog2 x + 1 <= Qlog2 y) by (unfold ulp_exp in E; lia).
    pose proof (pow2_le _ _ L2) as PL.
    apply Qle_trans with (pow2 (Qlog2 y)).
    + apply round64_le_pow2; [exact P | lra | unfold ulp_exp in *; lia].
    + apply round64_ge_pow2; [exact Y1 | unfold ulp_exp in *; lia].
Qed.

Lemma round64_nonpos (x : Q) : (x <= 0)%Q -> (round64 x <= 0)%Q.
Proof.
  intros H. unfold round64. destruct (Qeq_bool x 0); [lra|].
  pose proof (pow2_pos (ulp_exp x)) as U.
  assert (D : (x / pow2 (ulp_exp x) <= 0)%Q).
  { apply Qle_shift_div_r; [exact U | lra]. }
  apply rne_mono in D. change (rne 0) with (rne (inject_Z 0)) in D. rewrite rne_Z in D.
  rewrite Zle_Qle in D. change (inject_Z 0) with 0%Q in D.
  apply Qle_trans with (0 * pow2 (ulp_exp x))%Q; [|rewrite Qmult_0_l; apply Qle_refl].
  apply Qmult_le_compat_r; lra.
Qed.

(** The rounding of a number from 0 on: the error is relative. *)
Lemma round64_relative (x : Q) :
  (0 <= x)%Q ->
  (x - x / 9007199254740992 - pow2 (-1075) <= round64 x)%Q
  /\ (round64 x <= x + x / 9007199254740992 + pow2 (-1075))%Q.
Proof. intros H. apply round64_near; [exact H | apply Qle_refl]. Qed.

End Binary64Props.

(** * Properties of the subtitle codec *)

Module CodecProps.

Import Codec CodecSpec Codec64Spec Binary64Props.

(** ** Lists and strings *)

Section Spans.

Context {A : Type} (p : A -> bool).

Lemma takeWhile_dropWhile (l : list A) : takeWhile p l ++ dropWhile p l = l.
Proof.
  induction l as [|a l IH]; simpl; [reflexivity|].
  destruct (p a); simpl; [now rewrite IH | reflexivity].
Qed.

Lemma dropWhile_all (l : list A) : forallb p l = true -> dropWhile p l = [].
Proof.
  induction l as [|a l IH]; simpl; [reflexivity|].
  destruct (p a); simpl; [exact IH | discriminate].
Qed.

Lemma takeWhile_forallb (l : list A) : forallb p (takeWhile p l) = true.
Proof.
  induction l as [|a l IH]; simpl; [reflexivity|].
  destruct (p a) eqn:E; simpl; [now rewrite E | reflexivity].
Qed.

(** A run that stops at [b]: nothing of [b] is taken. *)
Lemma takeWhile_stop (a : list A) (x : A) (b : list A) :
  forallb p a = true -> p x = false -> takeWhile p (a ++ x :: b) = a.
Proof.
  intros Ha Hx. induction a as [|y a IH]; simpl in *.
  - now rewrite Hx.
  - apply andb_prop in Ha as [Hy Ha]. rewrite Hy. now rewrite IH.
Qed.

Lemma dropWhile_stop (a : list A) (x : A) (b : list A) :
  forallb p a = true -> p x = false -> dropWhile p (a ++ x :: b) = x :: b.
Proof.
  intros Ha Hx. induction a as [|y a IH]; simpl in *.
  - now rewrite Hx.
  - apply andb_prop in Ha as [Hy Ha]. rewrite Hy. now apply IH.
Qed.

Lemma dropWhile_first (l : list A) (x : A) (r : list A) :
  dropWhile p l = x :: r -> p x = false.
Proof.
  induction l as [|a l IH]; simpl; [discriminate|].
  destruct (p a) eqn:E; [exact IH|].
  intros H; injection H as -> _. exact E.
Qed.

Lemma takeWhile_In (l : list A) (x : A) : In x (takeWhile p l) -> p x = true.
Proof.
  intros H. pose proof (takeWhile_forallb l) as F.
  rewrite forallb_forall in F. now apply F.
Qed.
End Spans.

Lemma not_colon_true c : not_colon c = true <-> c <> ":"%char.
Proof.
  unfold not_colon. rewrite negb_true_iff. split.
  - intros H E. subst c. discriminate.
  - intros H. destruct (Ascii.eqb c ":") eqn:E; [|reflexivity].
    apply Ascii.eqb_eq in E. contradiction.
Qed.

Lemma not_colon_all (name : str) : ~ In ":"%char name -> forallb not_colon name = true.
Proof.
  intros H. apply forallb_forall. intros x Hx. apply not_colon_true.
  intros ->. contradiction.
Qed.

Lemma match_speaker_some (payload name tail : str) :
  colon_prefix payload name tail ->
  match_speaker payload = Some name /\ strip_speaker payload = dropWhile is_ws tail.
Proof.
  intros (Hne & Hnc & ->). unfold match_speaker, strip_speaker.
  rewrite (takeWhile_stop not_colon), (dropWhile_stop not_colon);
    try (now apply not_colon_all); try reflexivity.
  destruct name; [contradiction | split; reflexivity].
Qed.

Lemma match_speaker_none (payload : str) :
  (forall name tail, ~ colon_prefix payload name tail) ->
  match_speaker payload = None /\ strip_speaker payload = payload.
Proof.
  intros H. unfold match_speaker, strip_speaker.
  destruct (takeWhile not_colon payload) as [|c name] eqn:Et; [split; reflexivity|].
  destruct (dropWhile not_colon payload) as [|d rest] eqn:Ed; [split; reflexivity|].
  exfalso. apply (H (c :: name) rest). repeat split.
  - discriminate.
  - intros Hin. rewrite <- Et in Hin. apply takeWhile_In in Hin. discriminate.
  - pose proof (dropWhile_first _ _ _ _ Ed) as Hd.
    assert (d = ":"%char) as ->.
    { destruct (Ascii.eqb d ":") eqn:E; [now apply Ascii.eqb_eq in E|].
      unfold not_colon in Hd. rewrite E in Hd. discriminate. }
    rewrite <- Et, <- Ed. symmetry. apply takeWhile_dropWhile.
Qed.

Lemma timeToSec_defined (s : str) : exists t, timeToSec (Some s) = Ok t.
Proof. unfold timeToSec. eexists. reflexivity. Qed.

Lemma nth_error_defined {A} (l : list A) (n : nat) :
  (n < List.length l)%nat -> exists a, nth_error l n = Some a.
Proof.
  intros H. destruct (nth_error l n) eqn:E; [eauto|].
  apply nth_error_None in E. lia.
Qed.

(** ** Splitting *)

Section Split.

Variable m : str -> option nat.

Lemma split_go_nonempty (k : nat) (s : str) : split_go m k s <> [].
Proof.
  revert k. induction s as [|c s IH]; intros k; simpl; [discriminate|].
  destruct k; [|apply IH].
  destruct (m (c :: s)) as [[|j]|]; try discriminate;
    (specialize (IH 0%nat); destruct (split_go m 0 s); [contradiction | discriminate]).
Qed.

Lemma split_go_skip (pre rest : str) :
  split_go m (List.length pre) (pre ++ rest) = split_go m 0 rest.
Proof.
  induction pre as [|c pre IH]; simpl; [|exact IH].
  destruct rest; reflexivity.
Qed.

Lemma no_match_app (a b rest : str) :
  no_match m a (b ++ rest) -> no_match m b rest -> no_match m (a ++ b) rest.
Proof.
  induction a as [|c a IH]; simpl; [tauto|].
  intros [H1 H2] Hb. rewrite <- app_assoc. split; [exact H1 | now apply IH].
Qed.

(** A stretch without a match goes to the front of the first piece. *)
Lemma split_go_no_match (pre rest : str) :
  no_match m pre rest ->
  split_go m 0 (pre ++ rest)
  = (pre ++ hd [] (split_go m 0 rest)) :: tl (split_go m 0 rest).
Proof.
  induction pre as [|c pre IH]; simpl.
  - intros _. pose proof (split_go_nonempty 0 rest).
    destruct (split_go m 0 rest); [contradiction | reflexivity].
  - intros [H1 H2]. rewrite H1, (IH H2). reflexivity.
Qed.

Lemma split_go_end (pre : str) : no_match m pre [] -> split_go m 0 pre = [pre].
Proof.
  intros H. rewrite <- (app_nil_r pre) at 1.
  rewrite (split_go_no_match _ _ H). simpl. now rewrite app_nil_r.
Qed.

(** One step of a split: a stretch without a match, a separator, the rest. *)
Lemma split_go_step (pre sep rest : str) :
  no_match m pre (sep ++ rest) ->
  sep <> [] ->
  m (sep ++ rest) = Some (List.length sep) ->
  split_go m 0 (pre ++ sep ++ rest) = pre :: split_go m 0 rest.
Proof.
  intros Hpre Hne Hm. rewrite (split_go_no_match _ _ Hpre).
  destruct sep as [|c sep]; [contradiction|].
  simpl in *. rewrite Hm. simpl. rewrite app_nil_r, split_go_skip. reflexivity.
Qed.

Lemma no_match_without (c : ascii) (pre rest : str) :
  starts_at m c -> ~ In c pre -> no_match m pre rest.
Proof.
  intros Hc. induction pre as [|a pre IH]; simpl; [tauto|].
  intros Hin. split.
  - apply Hc. intros ->. tauto.
  - apply IH. tauto.
Qed.

End Split.

Lemma starts_with_app (sep rest : str) : starts_with sep (sep ++ rest) = true.
Proof.
  induction sep as [|c sep IH]; simpl; [reflexivity|].
  now rewrite Ascii.eqb_refl, IH.
Qed.

Lemma match_str_here (sep rest : str) :
  match_str sep (sep ++ rest) = Some (List.length sep).
Proof. unfold match_str. now rewrite starts_with_app. Qed.

Lemma match_str_starts_at (c : ascii) (sep : str) : starts_at (match_str (c :: sep)) c.
Proof.
  intros a s Ha. unfold match_str. simpl.
  destruct (Ascii.eqb c a) eqn:E; [|reflexivity].
  apply Ascii.eqb_eq in E. congruence.
Qed.

(** [split] on a separator that starts with [c], around pieces free of [c]. *)
Lemma split_cons (c : ascii) (sep pre rest : str) :
  ~ In c pre ->
  split (c :: sep) (pre ++ (c :: sep) ++ rest) = pre :: split (c :: sep) rest.
Proof.
  intros H. unfold split. apply split_go_step.
  - apply (no_match_without _ c); [apply match_str_starts_at | exact H].
  - discriminate.
  - apply match_str_here.
Qed.

Lemma split_last (c : ascii) (sep pre : str) :
  ~ In c pre -> split (c :: sep) pre = [pre].
Proof.
  intros H. unfold split. apply split_go_end.
  apply (no_match_without _ c); [apply match_str_starts_at | exact H].
Qed.

Lemma match_blank_line_starts_at : starts_at match_blank_line LF.
Proof.
  intros a s Ha. unfold match_blank_line.
  destruct (Ascii.eqb a LF) eqn:E; [|reflexivity].
  apply Ascii.eqb_eq in E. contradiction.
Qed.

Lemma last_index_of_absent (c : ascii) (l : str) (i : nat) (found : option nat) :
  ~ In c l -> last_index_of c l i found = found.
Proof.
  revert i found. induction l as [|a l IH]; intros i found H; simpl; [reflexivity|].
  simpl in H. rewrite IH by tauto.
  destruct (Ascii.eqb a c) eqn:E; [|reflexivity].
  apply Ascii.eqb_eq in E. tauto.
Qed.

(** A line feed before a line that has a visible code unit and no line feed
    does not start a blank line. *)
Lemma match_blank_line_before_text (ws : str) (x : ascii) (rest : str) :
  forallb is_ws ws = true -> ~ In LF ws -> is_ws x = false ->
  match_blank_line (LF :: ws ++ x :: rest) = None.
Proof.
  intros Hws Hlf Hx. unfold match_blank_line. rewrite Ascii.eqb_refl.
  rewrite (takeWhile_stop is_ws) by assumption.
  now rewrite last_index_of_absent.
Qed.

(** Two line feeds before a visible code unit are a blank line. *)
Lemma match_blank_line_here (x : ascii) (rest : str) :
  is_ws x = false ->
  match_blank_line (LF :: LF :: x :: rest) = Some 2%nat.
Proof.
  intros Hx. unfold match_blank_line. rewrite Ascii.eqb_refl.
  change (LF :: x :: rest) with ([LF] ++ x :: rest).
  rewrite (takeWhile_stop is_ws) by (assumption || reflexivity).
  reflexivity.
Qed.

(** ** Decimal fields *)

Lemma number_eqb_eq (x y : number) : number_eqb x y = true -> x = y.
Proof.
  destruct x as [| | |[a b]], y as [| | |[c d]]; simpl; try discriminate; try reflexivity.
  intros H. apply andb_prop in H as [H1 H2].
  apply Z.eqb_eq in H1. apply Pos.eqb_eq in H2. now subst.
Qed.

(** A check that holds for every index below [n] holds for every integer
    of the range. *)
Lemma checked_below (b : nat -> bool) (n : nat) :
  forallb b (seq 0 n) = true ->
  forall z : Z, 0 <= z < Z.of_nat n -> b (Z.to_nat z) = true.
Proof.
  intros H z Hz. rewrite forallb_forall in H. apply H.
  apply in_seq. lia.
Qed.

Lemma two_digits_all : forallb two_digits (seq 0 100) = true.
Proof. vm_compute. reflexivity. Qed.

Lemma three_digits_all : forallb three_digits (seq 0 1000) = true.
Proof. vm_compute. reflexivity. Qed.

Lemma pad2_spec (z : Z) :
  0 <= z < 100 ->
  List.length (pad 2 z) = 2%nat /\ forallb is_digit (pad 2 z) = true
  /\ Number (pad 2 z) = of_Z z.
Proof.
  intros Hz. pose proof (checked_below two_digits 100 two_digits_all z Hz) as H.
  unfold two_digits in H. rewrite Z2Nat.id in H by lia.
  apply andb_prop in H as [H H3]. apply andb_prop in H as [H1 H2].
  apply Nat.eqb_eq in H1. apply number_eqb_eq in H3. auto.
Qed.

Lemma pad3_spec (z : Z) :
  0 <= z < 1000 ->
  List.length (pad 3 z) = 3%nat /\ forallb is_digit (pad 3 z) = true
  /\ parseInt (pad 3 z) = of_Z z.
Proof.
  intros Hz. pose proof (checked_below three_digits 1000 three_digits_all z Hz) as H.
  unfold three_digits in H. rewrite Z2Nat.id in H by lia.
  apply andb_prop in H as [H H3]. apply andb_prop in H as [H1 H2].
  apply Nat.eqb_eq in H1. apply number_eqb_eq in H3. auto.
Qed.

Lemma digits_exclude (c : ascii) (s : str) :
  is_digit c = false -> forallb is_digit s = true -> ~ In c s.
Proof.
  intros Hc Hs Hin. rewrite forallb_forall in Hs. apply Hs in Hin. congruence.
Qed.

(** ** Time codes *)

Lemma not_in_app {A} (x : A) (a b : list A) : ~ In x a -> ~ In x b -> ~ In x (a ++ b).
Proof. intros Ha Hb H. apply in_app_or in H. tauto. Qed.

Lemma pad2_without (c : ascii) (z : Z) :
  is_digit c = false -> 0 <= z < 100 -> ~ In c (pad 2 z).
Proof. intros Hc Hz. apply digits_exclude; [exact Hc | apply pad2_spec, Hz]. Qed.

Lemma pad3_without (c : ascii) (z : Z) :
  is_digit c = false -> 0 <= z < 1000 -> ~ In c (pad 3 z).
Proof. intros Hc Hz. apply digits_exclude; [exact Hc | apply pad3_spec, Hz]. Qed.

Lemma not_in_one {A} (x y : A) : x <> y -> ~ In x [y].
Proof. intros H [E|[]]. congruence. Qed.

Ltac field_free :=
  repeat first
    [ now apply pad2_without | now apply pad3_without | now apply not_in_one
    | apply not_in_app ].

(** A time code has digits, two colons and a comma, nothing else. *)
Lemma timecode_without (c : ascii) (h m s ms : Z) :
  is_digit c = false -> c <> ":"%char -> c <> ","%char ->
  0 <= h < 100 -> 0 <= m < 100 -> 0 <= s < 100 -> 0 <= ms < 1000 ->
  ~ In c (timecode h m s ms).
Proof.
  intros Hd Hc1 Hc2 Hh Hm Hs Hms. unfold timecode.
  field_free.
Qed.

(** Over exact numbers [timeToSec] reads a time code as the sum of its
    fields. *)
Lemma timeToSec_timecode (h m s ms : Z) :
  0 <= h < 100 -> 0 <= m < 100 -> 0 <= s < 100 -> 0 <= ms < 1000 ->
  timeToSec (Some (timecode h m s ms))
  = Ok (fin (inject_Z (h * 3600 + m * 60 + s) + inject_Z ms / 1000)).
Proof.
  intros Hh Hm Hs Hms. unfold timeToSec, timecode.
  change (lit ",") with [","%char]. change (lit ":") with [":"%char].
  replace (pad 2 h ++ [":"%char] ++ pad 2 m ++ [":"%char] ++ pad 2 s ++ [","%char] ++ pad 3 ms)
    with ((pad 2 h ++ [":"%char] ++ pad 2 m ++ [":"%char] ++ pad 2 s) ++ [","%char] ++ pad 3 ms)
    by (now rewrite <- !app_assoc).
  rewrite split_cons by field_free.
  rewrite (split_last ","%char [] (pad 3 ms)) by field_free.
  cbn [hd nth_error String_of].
  rewrite !split_cons by field_free.
  rewrite split_last by field_free.
  cbn [map nth_error ToNumber].
  destruct (pad2_spec h Hh) as (_ & _ & ->), (pad2_spec m Hm) as (_ & _ & ->),
    (pad2_spec s Hs) as (_ & _ & ->), (pad3_spec ms Hms) as (_ & _ & ->).
  f_equal. unfold of_Z, num_mul, num_add, num_div.
  change (Qeq_bool (inject_Z 1000) 0) with false. cbv iota.
  apply fin_eq. unfold fin. rewrite !Qred_correct.
  rewrite !inject_Z_plus, !inject_Z_mult. reflexivity.
Qed.

(** ** Floors *)

Lemma Qfloor_shift (x : Q) (n : Z) : Qfloor (x - inject_Z n) = Qfloor x - n.
Proof.
  apply Qfloor_unique.
  - pose proof (Qfloor_le x). unfold Z.sub. rewrite inject_Z_plus, inject_Z_opp. lra.
  - pose proof (Qlt_floor x).
    replace (Qfloor x - n + 1) with (Qfloor x + 1 + - n) by lia.
    rewrite inject_Z_plus, inject_Z_opp. lra.
Qed.

Lemma Qtrunc_nonneg (q : Q) : (0 <= q)%Q -> Qtrunc q = Qfloor q.
Proof.
  destruct q as [n d]. unfold Qle, Qtrunc, Qfloor. simpl. intros H.
  apply Z.quot_div_nonneg; lia.
Qed.

Lemma Qfloor_range (q : Q) (n : Z) :
  (0 <= q)%Q -> (q < inject_Z n)%Q -> 0 <= Qfloor q < n.
Proof.
  intros H0 H1. split.
  - change 0 with (Qfloor 0). now apply Qfloor_resp_le.
  - rewrite Zlt_Qlt. eapply Qle_lt_trans; [apply Qfloor_le | exact H1].
Qed.

(** The milliseconds field: the fraction of the second, scaled and floored. *)
Lemma fraction_ms (q : Q) :
  let k := Qfloor ((q - inject_Z (Qfloor q)) * 1000) in
  0 <= k < 1000 /\ k = Qfloor (q * 1000) - 1000 * Qfloor q.
Proof.
  intros k. subst k.
  assert (E : Qfloor ((q - inject_Z (Qfloor q)) * 1000) = Qfloor (q * 1000) - 1000 * Qfloor q).
  { rewrite <- Qfloor_shift. apply Qfloor_comp.
    rewrite inject_Z_mult. change (inject_Z 1000) with 1000%Q. ring. }
  split; [|exact E].
  pose proof (Qfloor_le q) as F1. pose proof (Qlt_floor q) as F2.
  rewrite inject_Z_plus in F2. change (inject_Z 1) with 1%Q in F2.
  apply Qfloor_range; change (inject_Z 1000) with 1000%Q; lra.
Qed.

(** ** Dates *)

(** An integral number prints as its integer. *)
Lemma Number_toString_of_Z (z : Z) : Number_toString (of_Z z) = Z_toString z.
Proof. unfold Number_toString, of_Z. now rewrite Qred_inject_Z. Qed.

Lemma Date_setSeconds_epoch (q : Q) :
  (0 <= q)%Q -> (q < 86400)%Q ->
  Date_setSeconds (Some 0) (Fin q) = Some (Qfloor q * 1000).
Proof.
  intros H0 H1. unfold Date_setSeconds. rewrite (Qtrunc_nonneg q H0).
  pose proof (Qfloor_range q 86400 H0 H1) as R.
  change (0 / msPerDay) with 0. change (0 mod msPerDay) with 0.
  change (0 / 3600000) with 0. change (0 / 60000) with 0.
  change (0 mod 60) with 0. change (0 mod 1000) with 0.
  cbv zeta.
  replace (0 * msPerDay + (0 * 3600000 + 0 * 60000 + Qfloor q * 1000 + 0))
    with (Qfloor q * 1000) by lia.
  destruct (Z.leb_spec (Z.abs (Qfloor q * 1000)) maxTimeValue) as [_|L]; [reflexivity|].
  unfold maxTimeValue in L. lia.
Qed.

Lemma Date_toISOString_first_day (t : Z) :
  0 <= t < msPerDay ->
  Date_toISOString (Some t)
  = Ok (lit "1970-01-01T" ++ pad 2 (t / 3600000) ++ lit ":"
        ++ pad 2 ((t / 60000) mod 60) ++ lit ":" ++ pad 2 ((t / 1000) mod 60)
        ++ lit "." ++ pad 3 (t mod 1000) ++ lit "Z").
Proof.
  intros H. unfold Date_toISOString.
  rewrite (Z.mod_small t msPerDay), (Z.div_small t msPerDay) by assumption.
  change (civil_from_days 0) with (1970, 1, 1). cbv iota beta.
  reflexivity.
Qed.

Lemma length_two {A} (l : list A) : List.length l = 2%nat -> exists a b, l = [a; b].
Proof.
  destruct l as [|a [|b [|c l]]]; simpl; try discriminate. eauto.
Qed.

Lemma clock_fields (T : Z) :
  0 <= T < 86400 ->
  0 <= T / 3600 < 100 /\ 0 <= (T / 60) mod 60 < 100 /\ 0 <= T mod 60 < 100
  /\ T / 3600 * 3600 + (T / 60) mod 60 * 60 + T mod 60 = T.
Proof.
  intros H.
  pose proof (Z.div_mod T 60 ltac:(lia)). pose proof (Z.mod_pos_bound T 60 ltac:(lia)).
  pose proof (Z.div_mod (T / 60) 60 ltac:(lia)).
  pose proof (Z.mod_pos_bound (T / 60) 60 ltac:(lia)).
  pose proof (Z.div_div T 60 60 ltac:(lia) ltac:(lia)) as D. change (60 * 60) with 3600 in D.
  rewrite D in *.
  assert (0 <= T / 3600 < 24).
  { split; [apply Z.div_pos; lia | apply Z.div_lt_upper_bound; lia]. }
  lia.
Qed.

(** ** Time codes read over exact numbers *)

Lemma time_of_day_spec (x : number) :
  time_of_day x = true -> exists q, x = Fin q /\ (0 <= q)%Q /\ (q < 86400)%Q.
Proof.
  destruct x as [| | |q]; simpl; try discriminate.
  intros H. apply andb_prop in H as [H1 H2]. exists q. split; [reflexivity|].
  apply Qle_bool_iff in H1. split; [exact H1|].
  unfold Qltb in H2. apply negb_true_iff in H2.
  destruct (Qlt_le_dec q 86400) as [L|L]; [exact L|].
  apply Qle_bool_iff in L. congruence.
Qed.

Lemma timecode_of_fields (q : Q) :
  (0 <= q)%Q -> (q < 86400)%Q ->
  let T := Qfloor q in
  0 <= T / 3600 < 100 /\ 0 <= (T / 60) mod 60 < 100 /\ 0 <= T mod 60 < 100
  /\ 0 <= Qfloor ((q - inject_Z T) * 1000) < 1000.
Proof.
  intros H0 H1 T.
  destruct (clock_fields T (Qfloor_range q 86400 H0 H1)) as (? & ? & ? & _).
  destruct (fraction_ms q) as [? _]. auto.
Qed.

Lemma timeToSec_of_day (q : Q) :
  (0 <= q)%Q -> (q < 86400)%Q ->
  timeToSec (Some (timecode_of q)) = Ok (fin (truncate_ms q)).
Proof.
  intros H0 H1. unfold timecode_of.
  destruct (timecode_of_fields q H0 H1) as (Rh & Rm & Rs & Rms).
  rewrite timeToSec_timecode by assumption.
  destruct (clock_fields _ (Qfloor_range q 86400 H0 H1)) as (_ & _ & _ & ->).
  destruct (fraction_ms q) as [_ ->].
  f_equal. apply fin_eq. unfold truncate_ms.
  unfold Z.sub. rewrite inject_Z_plus, inject_Z_opp, inject_Z_mult.
  change (inject_Z 1000) with 1000%Q. field.
Qed.

Lemma timecode_of_without (c : ascii) (q : Q) :
  (0 <= q)%Q -> (q < 86400)%Q ->
  is_digit c = false -> c <> ":"%char -> c <> ","%char -> ~ In c (timecode_of q).
Proof.
  intros H0 H1 Hd Hc1 Hc2.
  destruct (timecode_of_fields q H0 H1) as (Rh & Rm & Rs & Rms).
  now apply timecode_without.
Qed.

Lemma timecode_of_head (q : Q) :
  (0 <= q)%Q -> (q < 86400)%Q ->
  exists d s, timecode_of q = d :: s /\ is_ws d = false.
Proof.
  intros H0 H1. destruct (timecode_of_fields q H0 H1) as (Rh & _).
  unfold timecode_of, timecode.
  destruct (pad2_spec _ Rh) as (L & D & _).
  destruct (length_two _ L) as (a & b & E). rewrite E in *.
  exists a. eexists. split; [reflexivity|].
  simpl in D. apply andb_prop in D as [D _]. revert D. clear.
  unfold is_digit, is_ws. intros D. apply andb_prop in D as [D1 D2].
  apply Nat.leb_le in D1, D2.
  destruct (Nat.leb_spec 9 (nat_of_ascii a)), (Nat.leb_spec (nat_of_ascii a) 13),
    (Nat.eqb_spec (nat_of_ascii a) 32), (Nat.eqb_spec (nat_of_ascii a) 160);
    simpl; try reflexivity; lia.
Qed.

(** ** Decimal notation *)

Lemma string_of_uint_digits (d : Decimal.uint) :
  forallb is_digit (lit (NilEmpty.string_of_uint d)) = true.
Proof. induction d; simpl; auto. Qed.

Lemma Z_toString_digits (z : Z) :
  0 <= z -> forallb is_digit (Z_toString z) = true /\ Z_toString z <> [].
Proof.
  intros H. unfold Z_toString.
  assert (E : exists d, Z.to_int z = Decimal.Pos d).
  { destruct z; simpl; eauto. lia. }
  destruct E as [d ->]. simpl. unfold NilZero.string_of_uint.
  destruct d; try (split; [apply (string_of_uint_digits (_ _)) | discriminate]).
  split; [reflexivity | discriminate].
Qed.

Lemma digit_visible (c : ascii) : is_digit c = true -> is_ws c = false.
Proof.
  unfold is_digit, is_ws. intros D. apply andb_prop in D as [D1 D2].
  apply Nat.leb_le in D1, D2.
  destruct (Nat.leb_spec 9 (nat_of_ascii c)), (Nat.leb_spec (nat_of_ascii c) 13),
    (Nat.eqb_spec (nat_of_ascii c) 32), (Nat.eqb_spec (nat_of_ascii c) 160);
    simpl; try reflexivity; lia.
Qed.

Lemma Z_toString_head (z : Z) :
  0 <= z -> exists d s, Z_toString z = d :: s /\ is_ws d = false.
Proof.
  intros H. destruct (Z_toString_digits z H) as [D N].
  destruct (Z_toString z) as [|d s]; [contradiction|].
  exists d, s. split; [reflexivity|]. simpl in D. apply andb_prop in D as [D _].
  now apply digit_visible.
Qed.

Lemma Z_toString_without (c : ascii) (z : Z) :
  0 <= z -> is_digit c = false -> ~ In c (Z_toString z).
Proof. intros H Hc. apply digits_exclude; [exact Hc | now apply Z_toString_digits]. Qed.

(** ** The text line of a block *)

Lemma plain_line_spec (s : str) : plain_line s = true -> ~ In LF s.
Proof.
  unfold plain_line. rewrite forallb_forall. intros H Hin.
  apply H in Hin. now rewrite Ascii.eqb_refl in Hin.
Qed.

Lemma visible_ends_spec (s : str) :
  visible_ends s = true ->
  (exists x t, s = x :: t /\ is_ws x = false)
  /\ (exists t y, s = t ++ [y] /\ is_ws y = false).
Proof.
  unfold visible_ends, visible. destruct s as [|x t]; [discriminate|].
  intros H. apply andb_prop in H as [H1 H2].
  apply negb_true_iff in H1, H2. split; [eauto|].
  assert (N : x :: t <> []) by discriminate.
  destruct (exists_last N) as (t' & y & E). rewrite E in *.
  rewrite last_last in H2. eauto.
Qed.

Lemma dropWhile_nil {A} (p : A -> bool) (l : list A) :
  dropWhile p l = [] -> forallb p l = true.
Proof.
  induction l as [|a l IH]; simpl; [reflexivity|].
  destruct (p a); [exact IH | discriminate].
Qed.

(** A line with a visible code unit: white space, then that code unit. *)
Lemma leading_space (l : str) (y : ascii) :
  In y l -> is_ws y = false ->
  exists ws x tail, l = ws ++ x :: tail /\ forallb is_ws ws = true /\ is_ws x = false.
Proof.
  intros Hin Hy. destruct (dropWhile is_ws l) as [|x tail] eqn:E.
  - apply dropWhile_nil in E. rewrite forallb_forall in E. apply E in Hin. congruence.
  - exists (takeWhile is_ws l), x, tail. repeat split.
    + rewrite <- E. symmetry. apply takeWhile_dropWhile.
    + apply takeWhile_forallb.
    + now apply (dropWhile_first is_ws l x tail).
Qed.

Ltac line_free :=
  repeat first
    [ assumption
    | apply timecode_of_without; (assumption || reflexivity || discriminate)
    | apply Z_toString_without; [lia | reflexivity]
    | apply plain_line_spec; reflexivity
    | apply not_in_app ].

(** ** Time codes in binary64 *)

(** [timeToSec] on a time code: the four fields go through the formula,
    every operation of which rounds. *)
Lemma timeToSec64_timecode (h m s ms : Z) :
  0 <= h < 100 -> 0 <= m < 100 -> 0 <= s < 100 -> 0 <= ms < 1000 ->
  Codec64.timeToSec (Some (timecode h m s ms))
  = Ok (add64
          (add64 (add64 (mul64 (of_Z h) (of_Z 3600)) (mul64 (of_Z m) (of_Z 60))) (of_Z s))
          (div64 (of_Z ms) (of_Z 1000))).
Proof.
  intros Hh Hm Hs Hms. unfold Codec64.timeToSec, timecode.
  change (lit ",") with [","%char]. change (lit ":") with [":"%char].
  replace (pad 2 h ++ [":"%char] ++ pad 2 m ++ [":"%char] ++ pad 2 s ++ [","%char] ++ pad 3 ms)
    with ((pad 2 h ++ [":"%char] ++ pad 2 m ++ [":"%char] ++ pad 2 s) ++ [","%char] ++ pad 3 ms)
    by (now rewrite <- !app_assoc).
  rewrite split_cons by field_free.
  rewrite (split_last ","%char [] (pad 3 ms)) by field_free.
  cbn [hd nth_error String_of].
  rewrite !split_cons by field_free.
  rewrite split_last by field_free.
  cbn [map nth_error ToNumber].
  destruct (pad2_spec h Hh) as (_ & _ & ->), (pad2_spec m Hm) as (_ & _ & ->),
    (pad2_spec s Hs) as (_ & _ & ->), (pad3_spec ms Hms) as (_ & _ & ->).
  rewrite !rounded_of_Z by lia. reflexivity.
Qed.

(** The value of the formula: the whole seconds are exact, the quotient
    and the last sum are rounded. *)
Lemma formula64_value (h m s ms : Z) :
  0 <= h < 100 -> 0 <= m < 100 -> 0 <= s < 100 -> 0 <= ms < 1000 ->
  add64 (add64 (add64 (mul64 (of_Z h) (of_Z 3600)) (mul64 (of_Z m) (of_Z 60))) (of_Z s))
    (div64 (of_Z ms) (of_Z 1000))
  = fin (read64 (h * 3600 + m * 60 + s) ms).
Proof.
  intros Hh Hm Hs Hms.
  rewrite !mul64_of_Z, !add64_of_Z by lia.
  assert (Q0 : (0 <= inject_Z ms / 1000)%Q /\ (inject_Z ms / 1000 <= 1)%Q).
  { split.
    - apply Qle_shift_div_l; [reflexivity|]. rewrite Qmult_0_l.
      change 0%Q with (inject_Z 0). rewrite <- Zle_Qle. lia.
    - apply Qle_shift_div_r; [reflexivity|]. change (1 * 1000)%Q with (inject_Z 1000).
      rewrite <- Zle_Qle. lia. }
  unfold of_Z at 2 3. rewrite div64_fin.
  - unfold fin at 1. unfold of_Z. rewrite add64_fin.
    + apply fin_eq, round64_comp. rewrite Qred_correct.
      change (inject_Z 1000) with 1000%Q. reflexivity.
    + rewrite Qred_correct.
      change (inject_Z 1000) with 1000%Q.
      destruct (round64_near _ 1 (proj1 Q0) (proj2 Q0)) as [R1 R2].
      destruct tiny_bound as [T0 T1].
      pose proof (round64_nonneg _ (proj1 Q0)) as R0.
      assert (ZT : (0 <= inject_Z (h * 3600 + m * 60 + s))%Q /\ (inject_Z (h * 3600 + m * 60 + s) <= 400000)%Q).
      { split.
        - change 0%Q with (inject_Z 0). rewrite <- Zle_Qle. lia.
        - change 400000%Q with (inject_Z 400000). rewrite <- Zle_Qle. lia. }
      rewrite Qabs_pos by lra.
      assert (1 / 9007199254740992 <= 1)%Q by (apply Qle_bool_iff; reflexivity).
      lra.
  - discriminate.
  - change (inject_Z 1000) with 1000%Q. rewrite Qabs_pos by tauto. lra.
Qed.

(** The fraction of a second, from 0 up to 1. *)
Lemma fraction_range (q : Q) :
  (0 <= q - inject_Z (Qfloor q))%Q /\ (q - inject_Z (Qfloor q) < 1)%Q.
Proof. destruct (Qfloor_bounds q). split; lra. Qed.

(** [formatTime] on a time of day: clock fields of the whole seconds, and
    the floor of the rounded product of the fraction and 1000. *)
Lemma formatTime64_timecode (q : Q) :
  (0 <= q)%Q -> (q < 86400)%Q -> Codec64.formatTime (Fin q) = Ok (timecode64_of q).
Proof.
  intros H0 H1. unfold Codec64.formatTime, timecode64_of. set (T := Qfloor q).
  pose proof (Qfloor_range q 86400 H0 H1) as R. fold T in R.
  rewrite (Date_setSeconds_epoch q H0 H1). fold T.
  rewrite Date_toISOString_first_day by (unfold msPerDay; lia).
  cbn [bind].
  replace (T * 1000 / 3600000) with (T / 3600)
    by (symmetry; apply (Z.div_mul_cancel_r T 3600 1000); lia).
  replace (T * 1000 / 60000) with (T / 60)
    by (symmetry; apply (Z.div_mul_cancel_r T 60 1000); lia).
  rewrite (Z.div_mul T 1000) by lia.
  destruct (clock_fields T R) as (Rh & Rm & Rs & _).
  destruct (pad2_spec _ Rh) as (Lh & _), (pad2_spec _ Rm) as (Lm & _),
    (pad2_spec _ Rs) as (Ls & _).
  unfold timecode.
  destruct (length_two _ Lh) as (h1 & h2 & ->), (length_two _ Lm) as (m1 & m2 & ->),
    (length_two _ Ls) as (s1 & s2 & ->).
  assert (E : Qtrunc (q / inject_Z 1) = T).
  { rewrite Qtrunc_nonneg.
    - apply Qfloor_comp. change (inject_Z 1) with 1%Q. field.
    - change (inject_Z 1) with 1%Q. setoid_replace (q / 1)%Q with q by field. exact H0. }
  destruct (fraction_range q) as [F0 F1]. fold T in F0, F1.
  assert (Ems : Math_floor (mul64 (num_rem (Fin q) (of_Z 1)) (of_Z 1000)) = of_Z (ms64 q)).
  { unfold num_rem, of_Z. change (Qeq_bool (inject_Z 1) 0) with false. cbv iota.
    rewrite E. unfold fin at 1.
    assert (EF : (Qred (q - inject_Z 1 * inject_Z T) * inject_Z 1000
                  == (q - inject_Z T) * 1000)%Q).
    { rewrite Qred_correct. change (inject_Z 1) with 1%Q.
      change (inject_Z 1000) with 1000%Q. ring. }
    rewrite mul64_fin by (rewrite EF, Qabs_pos; lra).
    unfold fin, Math_floor, of_Z, ms64. fold T. do 2 f_equal.
    apply Qfloor_comp. rewrite Qred_correct. now apply round64_comp. }
  rewrite Ems, Number_toString_of_Z.
  reflexivity.
Qed.

(** The milliseconds field of a binary64 time has three digits. *)
Lemma ms64_range (q : Q) : binary64 q = true -> (0 <= q)%Q -> 0 <= ms64 q < 1000.
Proof.
  intros B H0. unfold ms64.
  destruct (fraction_range q) as [F0 _].
  pose proof (binary64_fraction q B H0) as F1.
  set (f := (q - inject_Z (Qfloor q))%Q) in *.
  assert (P0 : (0 <= f * 1000)%Q) by lra.
  assert (K : (1 / 9007199254740992 == 1 # 9007199254740992)%Q) by reflexivity.
  rewrite K in F1.
  assert (P1 : (f * 1000 <= 1000 - (1000 # 9007199254740992))%Q) by lra.
  destruct (round64_near _ _ P0 P1) as [_ R2].
  pose proof (round64_nonneg _ P0) as R0.
  destruct tiny_bound as [_ T1].
  assert (D : ((1000 - (1000 # 9007199254740992)) / 9007199254740992
               <= (1000 # 9007199254740992) - (1 # 1000000000000000000000000000000))%Q)
    by (apply Qle_bool_iff; vm_compute; reflexivity).
  apply Qfloor_range; [exact R0|]. change (inject_Z 1000) with 1000%Q. lra.
Qed.

Lemma timecode64_of_fields (q : Q) :
  binary64 q = true -> (0 <= q)%Q -> (q < 86400)%Q ->
  let T := Qfloor q in
  0 <= T / 3600 < 100 /\ 0 <= (T / 60) mod 60 < 100 /\ 0 <= T mod 60 < 100
  /\ 0 <= ms64 q < 1000.
Proof.
  intros B H0 H1 T.
  destruct (clock_fields T (Qfloor_range q 86400 H0 H1)) as (? & ? & ? & _).
  pose proof (ms64_range q B H0). auto.
Qed.

(** [timeToSec] reads the time code of a time of day as the whole seconds
    plus the printed milliseconds. *)
Lemma timeToSec64_of_day (q : Q) :
  binary64 q = true -> (0 <= q)%Q -> (q < 86400)%Q ->
  Codec64.timeToSec (Some (timecode64_of q)) = Ok (reread (Fin q)).
Proof.
  intros B H0 H1. unfold timecode64_of.
  destruct (timecode64_of_fields q B H0 H1) as (Rh & Rm & Rs & Rms).
  rewrite timeToSec64_timecode, formula64_value by assumption.
  destruct (clock_fields _ (Qfloor_range q 86400 H0 H1)) as (_ & _ & _ & ->).
  reflexivity.
Qed.

Lemma timecode64_of_without (c : ascii) (q : Q) :
  binary64 q = true -> (0 <= q)%Q -> (q < 86400)%Q ->
  is_digit c = false -> c <> ":"%char -> c <> ","%char -> ~ In c (timecode64_of q).
Proof.
  intros B H0 H1 Hd Hc1 Hc2.
  destruct (timecode64_of_fields q B H0 H1) as (Rh & Rm & Rs & Rms).
  now apply timecode_without.
Qed.

Lemma timecode64_of_head (q : Q) :
  (0 <= q)%Q -> (q < 86400)%Q ->
  exists d s, timecode64_of q = d :: s /\ is_ws d = false.
Proof.
  intros H0 H1.
  destruct (clock_fields _ (Qfloor_range q 86400 H0 H1)) as (Rh & _).
  unfold timecode64_of, timecode.
  destruct (pad2_spec _ Rh) as (L & D & _).
  destruct (length_two _ L) as (a & b & E). rewrite E in *.
  exists a. eexists. split; [reflexivity|].
  simpl in D. apply andb_prop in D as [D _]. now apply digit_visible.
Qed.

(** A time of day comes back within a millisecond, up to the rounding of
    the sum. *)
Lemma reread_close (q : Q) :
  binary64 q = true -> (0 <= q)%Q -> (q < 86400)%Q -> close64 (Fin q) (reread (Fin q)).
Proof.
  intros B H0 H1. unfold reread, close64, fin. rewrite Qred_correct.
  change (pow2 (-36)) with (1 # 68719476736)%Q.
  unfold read64.
  pose proof (ms64_range q B H0) as Rms. unfold ms64 in *.
  pose proof (Qfloor_range q 86400 H0 H1) as RT.
  destruct (fraction_range q) as [F0 F1].
  set (T := Qfloor q) in *. set (f := (q - inject_Z T)%Q) in *.
  assert (P0 : (0 <= f * 1000)%Q) by lra.
  assert (P1 : (f * 1000 <= 1000)%Q) by lra.
  destruct (round64_near _ _ P0 P1) as [A1 A2].
  destruct (Qfloor_bounds (round64 (f * 1000))) as [M1 M2].
  set (ms := Qfloor (round64 (f * 1000))) in *.
  assert (Y0 : (0 <= inject_Z ms / 1000)%Q).
  { apply Qle_shift_div_l; [reflexivity|]. rewrite Qmult_0_l.
    change 0%Q with (inject_Z 0). rewrite <- Zle_Qle. lia. }
  assert (Y1 : (inject_Z ms / 1000 <= 1)%Q).
  { apply Qle_shift_div_r; [reflexivity|]. change (1 * 1000)%Q with (inject_Z 1000).
    rewrite <- Zle_Qle. lia. }
  destruct (round64_near _ _ Y0 Y1) as [B1 B2].
  pose proof (round64_nonneg _ Y0) as BN.
  set (y := round64 (inject_Z ms / 1000)) in *.
  assert (TQ : (0 <= inject_Z T)%Q /\ (inject_Z T <= 86399)%Q).
  { split.
    - change 0%Q with (inject_Z 0). rewrite <- Zle_Qle. lia.
    - change 86399%Q with (inject_Z 86399). rewrite <- Zle_Qle. lia. }
  destruct tiny_bound as [T0 T1].
  assert (K1 : (1 / 9007199254740992 == 1 # 9007199254740992)%Q) by reflexivity.
  assert (K2 : (1000 / 9007199254740992 == 1000 # 9007199254740992)%Q) by reflexivity.
  rewrite K1 in B1, B2. rewrite K2 in A1, A2.
  assert (Z0 : (0 <= inject_Z T + y)%Q) by lra.
  assert (Z1 : (inject_Z T + y <= 86401)%Q) by lra.
  destruct (round64_near _ _ Z0 Z1) as [C1 C2].
  assert (K3 : (86401 / 9007199254740992 == 86401 # 9007199254740992)%Q) by reflexivity.
  rewrite K3 in C1, C2.
  assert (YM : (inject_Z ms / 1000 * 1000 == inject_Z ms)%Q) by (field).
  assert (QF : (q == inject_Z T + f)%Q) by (unfold f; ring).
  set (w := (inject_Z ms / 1000)%Q) in *. set (t := pow2 (-1075)) in *.
  set (p := round64 (f * 1000)) in *. set (d := round64 (inject_Z T + y)) in *.
  clearbody w t p d y f. clear - A1 A2 M1 M2 B1 B2 C1 C2 T0 T1 YM QF.
  split; lra.
Qed.

(** ** One block through the codec *)

Lemma time64_spec (x : number) :
  time64 x = true ->
  exists q, x = Fin q /\ binary64 q = true /\ (0 <= q)%Q /\ (q < 86400)%Q.
Proof.
  destruct x as [| | |q]; try discriminate. unfold time64.
  intros H. apply andb_prop in H as [H1 H2].
  destruct (time_of_day_spec _ H1) as (q' & E & ? & ?). injection E as <-.
  exists q. auto.
Qed.

Lemma visible_end_spec (s : str) :
  visible_end s = true -> exists t y, s = t ++ [y] /\ is_ws y = false.
Proof.
  unfold visible_end, visible. destruct s as [|x t]; [discriminate|].
  intros H. apply negb_true_iff in H.
  assert (N : x :: t <> []) by discriminate.
  destruct (exists_last N) as (t' & y & E). rewrite E in *.
  rewrite last_last in H. eauto.
Qed.

Lemma colon_visible : is_ws ":"%char = false.
Proof. reflexivity. Qed.

Ltac line_free64 :=
  repeat first
    [ assumption
    | apply timecode64_of_without; (assumption || reflexivity || discriminate)
    | apply Z_toString_without; [lia | reflexivity]
    | apply plain_line_spec; reflexivity
    | apply not_in_app ].

Section Block64.

Variable c : Subtitle.
Variables a b : Q.
Hypothesis Ea : startTime c = Fin a.
Hypothesis Eb : endTime c = Fin b.
Hypothesis Ba : binary64 a = true.
Hypothesis A0 : (0 <= a)%Q.
Hypothesis A1 : (a < 86400)%Q.
Hypothesis Bb : binary64 b = true.
Hypothesis B0 : (0 <= b)%Q.
Hypothesis B1 : (b < 86400)%Q.

(** The text line: it has no line feed and a visible code unit, and the
    speaker heuristic reads the speaker and the text of [c] from it. *)
Variable ln : str.
Hypothesis ln_plain : ~ In LF ln.
Hypothesis ln_visible : exists y, In y ln /\ is_ws y = false.
Hypothesis ln_decodes :
  match_speaker ln = speaker c
  /\ match match_speaker ln with
     | Some _ => strip_speaker ln
     | None => ln
     end = text c.

Variable i : nat.

Lemma block64_lines :
  split [LF] (block64 c i ln)
  = [Z_toString (Z.of_nat i + 1); timecode64_of a ++ lit " --> " ++ timecode64_of b; ln].
Proof.
  unfold block64. rewrite Ea, Eb. cbn [timecode64_of_number].
  rewrite split_cons by (apply Z_toString_without; [lia | reflexivity]).
  replace (timecode64_of a ++ lit " --> " ++ timecode64_of b ++ [LF] ++ ln)
    with ((timecode64_of a ++ lit " --> " ++ timecode64_of b) ++ [LF] ++ ln)
    by (now rewrite <- !app_assoc).
  rewrite split_cons.
  - rewrite split_last by exact ln_plain. reflexivity.
  - line_free64.
Qed.

Lemma decodeBlock64_block (now : nat -> Z) (j : nat) :
  Codec64.decodeBlock now (block64 c i ln) j = Ok (Some (decoded64 now c j)).
Proof.
  unfold Codec64.decodeBlock. rewrite block64_lines.
  cbn [List.length Nat.ltb Nat.leb nth skipn join].
  change (lit " --> ") with (" "%char :: lit "--> ").
  rewrite split_cons
    by (apply timecode64_of_without; (assumption || reflexivity || discriminate)).
  rewrite split_last
    by (apply timecode64_of_without; (assumption || reflexivity || discriminate)).
  cbn [nth_error]. rewrite !timeToSec64_of_day by assumption. cbn [bind].
  destruct ln_decodes as [-> ->].
  unfold decoded64. now rewrite Ea, Eb.
Qed.

Lemma block64_head : exists d s, block64 c i ln = d :: s /\ is_ws d = false.
Proof.
  destruct (Z_toString_head (Z.of_nat i + 1)) as (d & s & E & Hd); [lia|].
  unfold block64. rewrite E. exists d. eexists. split; [reflexivity | exact Hd].
Qed.

(** No blank line starts inside the block, whatever follows it. *)
Lemma block64_no_blank (rest : str) : no_match match_blank_line (block64 c i ln) rest.
Proof.
  destruct (timecode64_of_head a A0 A1) as (d & s & Ed & Hd).
  destruct ln_visible as (y & Hin & Hy).
  destruct (leading_space ln y Hin Hy) as (ws & x & tail & El & Hws & Hx).
  assert (Hlf : ~ In LF ws).
  { intros H. apply ln_plain. rewrite El. apply in_or_app. now left. }
  unfold block64. rewrite Ea, Eb. cbn [timecode64_of_number].
  apply no_match_app.
  { apply (no_match_without _ LF); [apply match_blank_line_starts_at|].
    apply Z_toString_without; [lia | reflexivity]. }
  replace ([LF] ++ timecode64_of a ++ lit " --> " ++ timecode64_of b ++ [LF] ++ ln)
    with ([LF] ++ (timecode64_of a ++ lit " --> " ++ timecode64_of b) ++ [LF] ++ ln)
    by (now rewrite <- !app_assoc).
  apply no_match_app.
  { simpl. split; [|exact I]. rewrite Ed. simpl.
    apply (match_blank_line_before_text [] d); auto. }
  apply no_match_app.
  { apply (no_match_without _ LF); [apply match_blank_line_starts_at|].
    line_free64. }
  apply no_match_app.
  { simpl. split; [|exact I]. rewrite El, <- app_assoc. simpl.
    now apply match_blank_line_before_text. }
  apply (no_match_without _ LF); [apply match_blank_line_starts_at | exact ln_plain].
Qed.

End Block64.

(** ** The text line of a caption *)

Lemma carried_times (c : Subtitle) :
  carried c = true ->
  exists a b, startTime c = Fin a /\ endTime c = Fin b
    /\ binary64 a = true /\ (0 <= a)%Q /\ (a < 86400)%Q
    /\ binary64 b = true /\ (0 <= b)%Q /\ (b < 86400)%Q.
Proof.
  unfold carried. rewrite !andb_true_iff. intros ((Ha & Hb) & _).
  destruct (time64_spec _ Ha) as (a & ? & ? & ? & ?).
  destruct (time64_spec _ Hb) as (b & ? & ? & ? & ?).
  exists a, b. auto 9.
Qed.

(** The cases of a carried caption. *)
Lemma carried_words (c : Subtitle) :
  carried c = true ->
  ~ In LF (text c)
  /\ ((speaker c = None /\ match_speaker (text c) = None
       /\ exists t y, text c = t ++ [y] /\ is_ws y = false)
      \/ (exists sp, speaker c = Some sp /\ sp <> [] /\ ~ In ":"%char sp /\ ~ In LF sp
            /\ (text c = []
                \/ (exists x t, text c = x :: t /\ is_ws x = false)
                   /\ (exists t y, text c = t ++ [y] /\ is_ws y = false)))).
Proof.
  unfold carried, words_ok. rewrite !andb_true_iff. intros (_ & Hp & Hs).
  split; [now apply plain_line_spec|].
  destruct (speaker c) as [sp|].
  - right. rewrite !andb_true_iff in Hs. destruct Hs as (((H1 & H2) & H3) & H4).
    exists sp. split; [reflexivity|].
    split; [destruct sp; [discriminate H1 | discriminate]|].
    split.
    { intros Hin. rewrite forallb_forall in H2. apply H2 in Hin. discriminate. }
    split; [now apply plain_line_spec|].
    apply orb_prop in H4 as [H4|H4].
    + left. destruct (text c); [reflexivity | discriminate].
    + right. now apply visible_ends_spec.
  - left. apply andb_prop in Hs as [H1 H2].
    split; [reflexivity|].
    split; [destruct (match_speaker (text c)); [discriminate | reflexivity]|].
    now apply visible_end_spec.
Qed.

Lemma speakerLabel_some (c : Subtitle) (sp : str) :
  speaker c = Some sp -> sp <> [] -> speakerLabel c = sp ++ lit ": ".
Proof. unfold speakerLabel. intros -> H. destruct sp; [contradiction | reflexivity]. Qed.

Lemma speakerLabel_none (c : Subtitle) : speaker c = None -> speakerLabel c = [].
Proof. unfold speakerLabel. now intros ->. Qed.

(** The text line of a carried caption. *)
Lemma line_carried (c : Subtitle) :
  carried c = true ->
  let ln := speakerLabel c ++ text c in
  ~ In LF ln
  /\ (exists y, In y ln /\ is_ws y = false)
  /\ match_speaker ln = speaker c
  /\ match match_speaker ln with
     | Some _ => strip_speaker ln
     | None => ln
     end = text c.
Proof.
  intros H ln. subst ln.
  destruct (carried_words c H) as (Hlf & [(Es & Em & (t & y & Et & Hy))
    | (sp & Es & Hne & Hc & Hl & Ht)]).
  - rewrite (speakerLabel_none c Es), Es. cbn [app].
    split; [exact Hlf|]. split.
    + exists y. split; [rewrite Et; apply in_or_app; right; now left | exact Hy].
    + now rewrite Em.
  - rewrite (speakerLabel_some c sp Es Hne), Es.
    split; [line_free|]. split.
    + exists ":"%char. split; [|reflexivity].
      apply in_or_app. left. apply in_or_app. right. now left.
    + assert (P : colon_prefix ((sp ++ lit ": ") ++ text c) sp (" "%char :: text c)).
      { repeat split; try assumption. now rewrite <- app_assoc. }
      destruct (match_speaker_some _ _ _ P) as [-> ->]. split; [reflexivity|].
      destruct Ht as [-> | [(x & t & Et & Hx) _]]; [reflexivity|].
      rewrite Et. simpl. now rewrite Hx.
Qed.

(** What [trim] leaves of the text line at the end of a file. *)
Lemma kept_line_carried (c : Subtitle) :
  carried c = true ->
  ~ In LF (kept_line c)
  /\ (exists t y, kept_line c = t ++ [y] /\ is_ws y = false)
  /\ match_speaker (kept_line c) = speaker c
  /\ match match_speaker (kept_line c) with
     | Some _ => strip_speaker (kept_line c)
     | None => kept_line c
     end = text c.
Proof.
  intros H. destruct (line_carried c H) as (L1 & L2 & L3).
  destruct (carried_words c H) as (Hlf & [(Es & Em & (t & y & Et & Hy))
    | (sp & Es & Hne & Hc & Hl & Ht)]).
  - assert (K : kept_line c = speakerLabel c ++ text c).
    { unfold kept_line. now rewrite Es. }
    rewrite K. split; [exact L1|]. split; [|exact L3].
    rewrite (speakerLabel_none c Es). cbn [app]. eauto.
  - destruct Ht as [Et | [_ (t & y & Et & Hy)]].
    + assert (K : kept_line c = sp ++ lit ":").
      { unfold kept_line. rewrite Es, Et. destruct sp; [contradiction | reflexivity]. }
      rewrite K, Es, Et. split; [line_free|]. split; [exists sp, ":"%char; now split|].
      assert (P : colon_prefix (sp ++ lit ":") sp []) by (repeat split; assumption).
      destruct (match_speaker_some _ _ _ P) as [-> ->]. split; reflexivity.
    + assert (K : kept_line c = speakerLabel c ++ text c).
      { unfold kept_line. rewrite Es, Et. destruct sp; [contradiction|].
        destruct t; reflexivity. }
      rewrite K. split; [exact L1|]. split; [|exact L3].
      rewrite Et. exists (speakerLabel c ++ t), y. split; [now rewrite <- app_assoc | exact Hy].
Qed.

(** The text line is what [trim] leaves of it and a run of white space. *)
Lemma line_kept (c : Subtitle) :
  exists ws, speakerLabel c ++ text c = kept_line c ++ ws /\ forallb is_ws ws = true.
Proof.
  unfold kept_line, speakerLabel.
  destruct (speaker c) as [[|x sp]|], (text c) as [|y t];
    try (exists []; split; [now rewrite app_nil_r | reflexivity]).
  exists (lit " "). split; [|reflexivity].
  rewrite app_nil_r, <- app_assoc. reflexivity.
Qed.

(** ** The blocks of a carried caption *)

Lemma encodeBlock64_body (c : Subtitle) (i : nat) :
  carried c = true -> Codec64.encodeBlock c i = Ok (body64 c i ++ [LF]).
Proof.
  intros H. destruct (carried_times c H) as (a & b & Ea & Eb & Ba & A0 & A1 & Bb & B0 & B1).
  unfold Codec64.encodeBlock, body64, block64. rewrite Ea, Eb.
  rewrite !formatTime64_timecode by assumption. cbn [bind timecode64_of_number].
  f_equal. now rewrite <- !app_assoc.
Qed.

Lemma decodeBlock64_body (now : nat -> Z) (c : Subtitle) (i j : nat) :
  carried c = true ->
  Codec64.decodeBlock now (body64 c i) j = Ok (Some (decoded64 now c j)).
Proof.
  intros H. destruct (carried_times c H) as (a & b & Ea & Eb & Ba & A0 & A1 & Bb & B0 & B1).
  destruct (line_carried c H) as (L1 & L2 & L3).
  now apply (decodeBlock64_block c a b).
Qed.

Lemma decodeBlock64_stem (now : nat -> Z) (c : Subtitle) (i j : nat) :
  carried c = true ->
  Codec64.decodeBlock now (stem64 c i) j = Ok (Some (decoded64 now c j)).
Proof.
  intros H. destruct (carried_times c H) as (a & b & Ea & Eb & Ba & A0 & A1 & Bb & B0 & B1).
  destruct (kept_line_carried c H) as (L1 & _ & L3).
  now apply (decodeBlock64_block c a b).
Qed.

Lemma body64_good (c : Subtitle) (i : nat) : carried c = true -> good_block (body64 c i).
Proof.
  intros H. destruct (carried_times c H) as (a & b & Ea & Eb & Ba & A0 & A1 & Bb & B0 & B1).
  destruct (line_carried c H) as (L1 & L2 & L3).
  split; [intros rest; now apply (block64_no_blank c a b) | apply block64_head].
Qed.

Lemma stem64_good (c : Subtitle) (i : nat) : carried c = true -> good_block (stem64 c i).
Proof.
  intros H. destruct (carried_times c H) as (a & b & Ea & Eb & Ba & A0 & A1 & Bb & B0 & B1).
  destruct (kept_line_carried c H) as (L1 & (t & y & Et & Hy) & L3).
  split; [intros rest | apply block64_head].
  apply (block64_no_blank c a b); try assumption.
  exists y. split; [rewrite Et; apply in_or_app; right; now left | exact Hy].
Qed.

Lemma stem64_last (c : Subtitle) (i : nat) : carried c = true -> ends_visible (stem64 c i).
Proof.
  intros H. destruct (kept_line_carried c H) as (_ & (t & y & Et & Hy) & _).
  unfold stem64, block64. rewrite Et.
  exists (Z_toString (Z.of_nat i + 1) ++ [LF] ++ timecode64_of_number (startTime c)
          ++ lit " --> " ++ timecode64_of_number (endTime c) ++ [LF] ++ t), y.
  split; [now rewrite <- !app_assoc | exact Hy].
Qed.

Lemma body64_stem (c : Subtitle) (i : nat) :
  exists ws, body64 c i = stem64 c i ++ ws /\ forallb is_ws ws = true.
Proof.
  destruct (line_kept c) as (ws & E & Hws). exists ws. split; [|exact Hws].
  unfold body64, stem64, block64. rewrite E. now rewrite <- !app_assoc.
Qed.


(** ** A collection through the codec *)

Lemma filter_non_null_Some {A} (l : list A) : filter_non_null (map Some l) = l.
Proof. induction l as [|a l IH]; simpl; [reflexivity | now rewrite IH]. Qed.

Lemma join_terminated (b : str) (bs : list str) :
  join [LF] (map (fun b => b ++ [LF]) (b :: bs)) = join [LF; LF] (b :: bs) ++ [LF].
Proof.
  revert b. induction bs as [|b' bs IH]; intros b; [reflexivity|].
  change (join [LF] (map (fun b => b ++ [LF]) (b :: b' :: bs)))
    with ((b ++ [LF]) ++ [LF] ++ join [LF] (map (fun b => b ++ [LF]) (b' :: bs))).
  rewrite IH.
  change (join [LF; LF] (b :: b' :: bs)) with (b ++ [LF; LF] ++ join [LF; LF] (b' :: bs)).
  now rewrite <- !app_assoc.
Qed.

Lemma split_blank_joined (b : str) (bs : list str) :
  Forall good_block (b :: bs) -> split_blank_lines (join [LF; LF] (b :: bs)) = b :: bs.
Proof.
  revert b. induction bs as [|b' bs IH]; intros b H.
  - simpl. apply Forall_inv in H as [H _]. apply split_go_end, H.
  - change (join [LF; LF] (b :: b' :: bs)) with (b ++ [LF; LF] ++ join [LF; LF] (b' :: bs)).
    pose proof (Forall_inv H) as [Hb _]. pose proof (Forall_inv_tail H) as Ht.
    pose proof (Forall_inv Ht) as [_ (d & s & E & Hd)].
    unfold split_blank_lines. rewrite split_go_step.
    + f_equal. now apply IH.
    + apply Hb.
    + discriminate.
    + assert (J : exists r, join [LF; LF] (b' :: bs) = d :: r).
      { rewrite E. destruct bs; simpl; eauto. }
      destruct J as [r ->]. now apply match_blank_line_here.
Qed.

Lemma join_head (sep b : str) (bs : list str) (d : ascii) (s : str) :
  b = d :: s -> exists t, join sep (b :: bs) = d :: t.
Proof. intros ->. destruct bs; simpl; eauto. Qed.

Lemma encode_blocks64 (l : list Subtitle) (i : nat) :
  forallb carried l = true ->
  mapM_from Codec64.encodeBlock i l = Ok (map (fun b => b ++ [LF]) (bodies64_from i l)).
Proof.
  revert i. induction l as [|c l IH]; intros i H; simpl; [reflexivity|].
  simpl in H. apply andb_prop in H as [Hc Hl].
  rewrite (encodeBlock64_body c i Hc), (IH (S i) Hl). reflexivity.
Qed.

Lemma decode_pieces64 (now : nat -> Z) (l : list Subtitle) (i j : nat) :
  forallb carried l = true ->
  mapM_from (Codec64.decodeBlock now) j (pieces64_from i l)
  = Ok (map Some (decoded64_from now j l)).
Proof.
  revert i j. induction l as [|c l IH]; intros i j H; [reflexivity|].
  simpl in H. apply andb_prop in H as [Hc Hl].
  destruct l as [|c' l].
  - simpl. now rewrite (decodeBlock64_stem now c i j Hc).
  - change (pieces64_from i (c :: c' :: l)) with (body64 c i :: pieces64_from (S i) (c' :: l)).
    cbn [mapM_from]. rewrite (decodeBlock64_body now c i j Hc), (IH (S i) (S j) Hl).
    reflexivity.
Qed.

Lemma pieces64_good (l : list Subtitle) (i : nat) :
  forallb carried l = true -> Forall good_block (pieces64_from i l).
Proof.
  revert i. induction l as [|c l IH]; intros i H; [constructor|].
  simpl in H. apply andb_prop in H as [Hc Hl].
  destruct l as [|c' l].
  - constructor; [now apply stem64_good | constructor].
  - change (pieces64_from i (c :: c' :: l)) with (body64 c i :: pieces64_from (S i) (c' :: l)).
    constructor; [now apply body64_good | now apply IH].
Qed.

Lemma join_step (sep a : str) (l : list str) :
  l <> [] -> join sep (a :: l) = a ++ sep ++ join sep l.
Proof. destruct l; [contradiction | reflexivity]. Qed.

Lemma pieces64_nonempty (i : nat) (c : Subtitle) (l : list Subtitle) :
  pieces64_from i (c :: l) <> [].
Proof. destruct l; discriminate. Qed.

(** The blocks joined are the pieces joined and the white space that
    [trim] takes from the end. *)
Lemma pieces64_joined (l : list Subtitle) (i : nat) :
  exists ws,
    join [LF; LF] (bodies64_from i l) = join [LF; LF] (pieces64_from i l) ++ ws
    /\ forallb is_ws ws = true.
Proof.
  revert i. induction l as [|c l IH]; intros i.
  - exists []. split; reflexivity.
  - destruct l as [|c' l].
    + simpl. apply body64_stem.
    + destruct (IH (S i)) as (ws & E & Hws). exists ws. split; [|exact Hws].
      change (bodies64_from i (c :: c' :: l))
        with (body64 c i :: bodies64_from (S i) (c' :: l)).
      change (pieces64_from i (c :: c' :: l))
        with (body64 c i :: pieces64_from (S i) (c' :: l)).
      rewrite !join_step by (discriminate || apply pieces64_nonempty).
      rewrite E. now rewrite <- !app_assoc.
Qed.

Lemma pieces64_end (l : list Subtitle) (i : nat) :
  l <> [] -> forallb carried l = true ->
  ends_visible (join [LF; LF] (pieces64_from i l)).
Proof.
  revert i. induction l as [|c l IH]; intros i N H; [contradiction|].
  simpl in H. apply andb_prop in H as [Hc Hl].
  destruct l as [|c' l].
  - simpl. now apply stem64_last.
  - change (pieces64_from i (c :: c' :: l)) with (body64 c i :: pieces64_from (S i) (c' :: l)).
    rewrite join_step by apply pieces64_nonempty.
    destruct (IH (S i)) as (t & y & E & Hy); [discriminate | exact Hl|].
    rewrite E. exists (body64 c i ++ [LF; LF] ++ t), y.
    split; [now rewrite <- !app_assoc | exact Hy].
Qed.

Lemma forallb_rev {A} (p : A -> bool) (l : list A) :
  forallb p l = true -> forallb p (rev l) = true.
Proof.
  rewrite !forallb_forall. intros H x Hx. apply H. now apply in_rev.
Qed.

(** [trim] takes the white space after a string with visible ends. *)
Lemma trim_tail (s ws : str) :
  (exists d t, s = d :: t /\ is_ws d = false) ->
  ends_visible s ->
  forallb is_ws ws = true ->
  trim (s ++ ws) = s.
Proof.
  intros (d & t & E1 & Hd) (t' & y & E2 & Hy) Hws. unfold trim, trimStart, trimEnd.
  assert (S1 : dropWhile is_ws (s ++ ws) = s ++ ws).
  { rewrite E1. simpl. now rewrite Hd. }
  rewrite S1, rev_app_distr. rewrite E2 at 1. rewrite rev_app_distr. simpl.
  rewrite (dropWhile_stop is_ws (rev ws) y (rev t')) by (now apply forallb_rev || exact Hy).
  simpl. rewrite rev_involutive. now symmetry.
Qed.

(** Decoding the text of the encoded blocks gives back the captions. *)
Lemma decode_encoded64 (now : nat -> Z) (l : list Subtitle) :
  forallb carried l = true ->
  Codec64.decode now (join [LF] (map (fun b => b ++ [LF]) (bodies64_from 0 l)))
  = Ok (decoded64_from now 0 l).
Proof.
  intros H. destruct l as [|c l]; [reflexivity|].
  pose proof (pieces64_good _ 0 H) as G.
  pose proof (pieces64_end (c :: l) 0 ltac:(discriminate) H) as V.
  destruct (pieces64_joined (c :: l) 0) as (ws & E & Hws).
  unfold Codec64.decode.
  change (bodies64_from 0 (c :: l)) with (body64 c 0 :: bodies64_from 1 l) in *.
  rewrite join_terminated, E, <- app_assoc.
  destruct (pieces64_from 0 (c :: l)) as [|b bs] eqn:P;
    [now apply pieces64_nonempty in P|].
  rewrite trim_tail.
  - rewrite (split_blank_joined _ _ G). unfold mapMi. rewrite <- P.
    rewrite (decode_pieces64 now _ 0%nat 0%nat H). cbn [bind].
    now rewrite filter_non_null_Some.
  - destruct (Forall_inv G) as [_ (d & s & Eb & Hd)].
    destruct (join_head [LF; LF] _ bs d s Eb) as [t ->]. eauto.
  - exact V.
  - rewrite forallb_app, Hws. reflexivity.
Qed.

Lemma reread_carried (x : number) : time64 x = true -> close64 x (reread x).
Proof.
  intros H. destruct (time64_spec x H) as (q & -> & B & H0 & H1).
  now apply reread_close.
Qed.

Lemma decoded64_reproduces (now : nat -> Z) (l : list Subtitle) (j : nat) :
  forallb carried l = true -> Forall2 reproduces64 l (decoded64_from now j l).
Proof.
  revert j. induction l as [|c l IH]; intros j H; simpl; [constructor|].
  simpl in H. apply andb_prop in H as [Hc Hl]. constructor; [|now apply IH].
  unfold carried in Hc. rewrite !andb_true_iff in Hc.
  destruct Hc as ((Ha & Hb) & _).
  repeat split; simpl; now apply reread_carried.
Qed.


(** ** Sorting *)

Lemma insert_sorted_perm (a : Subtitle) (l : list Subtitle) :
  Permutation (a :: l) (insert_sorted a l).
Proof.
  induction l as [|b l IH]; simpl; [reflexivity|].
  destruct (after a b); [|reflexivity].
  rewrite perm_swap. now apply perm_skip.
Qed.

Lemma sort_by_start_perm (l : list Subtitle) : Permutation l (sort_by_start l).
Proof.
  induction l as [|a l IH]; simpl; [constructor|].
  rewrite <- insert_sorted_perm. now apply perm_skip.
Qed.

Lemma forallb_perm {A} (p : A -> bool) (l l' : list A) :
  Permutation l l' -> forallb p l = true -> forallb p l' = true.
Proof.
  intros P H. rewrite forallb_forall in *. intros x Hx.
  apply H. now apply (Permutation_in _ (Permutation_sym P)).
Qed.

(** ** The round trip *)

(** C1, amended.  For every collection whose captions all have binary64
    times from 0 up to, not including, 24 hours, a speaker and a text
    without line feed, and either no speaker and a text that ends with a
    visible code unit and has no colon prefix of its own, or a non-empty
    speaker without colon and a text that is empty or starts and ends with
    a visible code unit: [convertToSRT] succeeds, and [parseSRT] of its
    output replaces the collection by one caption for each caption of the
    input sorted by start time, which is a permutation of the input, with
    the same speaker, the same text, and start and end times less than a
    millisecond and 2^-36 seconds below the original ones and less than
    2^-36 seconds above them. *)
Theorem srt_round_trip (now : nat -> Z) (x : list Subtitle) (st : AppState) :
  forallb carried x = true ->
  exists srt,
    Codec64.convertToSRT x = Ok srt
    /\ Permutation x (sort_by_start x)
    /\ Forall2 reproduces64 (sort_by_start x) (subtitles (Codec64.parseSRT now srt st)).
Proof.
  intros H.
  pose proof (forallb_perm _ _ _ (sort_by_start_perm x) H) as Hs.
  exists (join [LF] (map (fun b => b ++ [LF]) (bodies64_from 0 (sort_by_start x)))).
  split; [|split].
  - unfold Codec64.convertToSRT, mapMi. now rewrite (encode_blocks64 _ 0%nat Hs).
  - apply sort_by_start_perm.
  - unfold Codec64.parseSRT. rewrite (decode_encoded64 now _ Hs). cbn [subtitles].
    now apply decoded64_reproduces.
Qed.

Lemma srt_round_trip_witness :
  let x := [mkSubtitle (lit "sub-0-1") (Fin 65.25) (Fin 70) (lit "Hello there") (Some (lit "Model 1 (F)"));
            mkSubtitle (lit "sub-0-3") (fin (round64 5.005)) (fin (round64 5.1)) (lit "  (laughs)") None;
            mkSubtitle (lit "sub-0-0") (Fin 1.5) (Fin 2) (lit "Hi: really?") (Some (lit "Sasha"));
            mkSubtitle (lit "sub-0-2") (Fin 80) (Fin 80) [] (Some (lit "Sasha"))] in
  forallb carried x = true
  /\ exists srt,
       Codec64.convertToSRT x = Ok srt
       /\ Permutation x (sort_by_start x)
       /\ Forall2 reproduces64 (sort_by_start x)
            (subtitles (Codec64.parseSRT (fun _ => 0) srt (mkState [] import_ok))).
Proof.
  intros x. split; [vm_compute; reflexivity|].
  exact (srt_round_trip (fun _ => 0) x (mkState [] import_ok) eq_refl).
Defined.

(** C1, as stated, fails.  The caption [note] has non-negative times with
    the start before the end and a text without any blank-line sequence,
    and no speaker.  [convertToSRT] encodes it, but [parseSRT] of that
    output gives a caption with speaker "Note" and text "hi": the decoded
    collection does not reproduce the speaker and the text. *)
Lemma srt_round_trip_loses_colon_text :
  forallb in_stated_domain [note] = true
  /\ exists srt,
       Codec64.convertToSRT [note] = Ok srt
       /\ map (fun d => (speaker d, text d))
            (subtitles (Codec64.parseSRT (fun _ => 0) srt (mkState [] import_ok)))
          = [(Some (lit "Note"), lit "hi")]
       /\ ~ Forall2 reproduces64 (sort_by_start [note])
              (subtitles (Codec64.parseSRT (fun _ => 0) srt (mkState [] import_ok))).
Proof.
  split; [reflexivity|].
  exists (lit "1" ++ [LF] ++ lit "00:00:01,000 --> 00:00:02,000" ++ [LF]
          ++ lit "Note: hi" ++ [LF]).
  split; [vm_compute; reflexivity|].
  split; [vm_compute; reflexivity|].
  assert (E : exists d, subtitles (Codec64.parseSRT (fun _ => 0)
                                    (lit "1" ++ [LF] ++ lit "00:00:01,000 --> 00:00:02,000" ++ [LF]
                                     ++ lit "Note: hi" ++ [LF]) (mkState [] import_ok)) = [d]
                        /\ speaker d = Some (lit "Note")).
  { eexists. split; [vm_compute; reflexivity | reflexivity]. }
  destruct E as (d & E & Hd). intros H.
  change (sort_by_start [note]) with [note] in H.
  rewrite E in H. inversion H as [|? ? ? ? R _]; subst.
  destruct R as (Hs & _). rewrite Hd in Hs. discriminate.
Qed.

(** The times need the tolerance of the amended claim.  The binary64
    number nearest to 5.005 is printed as 00:00:05,004, which is read as a
    number more than a millisecond below it; the one nearest to
    0.11699999999999999 is printed as 00:00:00,117, which is read as a
    number above it. *)
Example a_millisecond_is_exceeded :
  exists d,
    Codec64.formatTime (fin (round64 5.005)) = Ok (lit "00:00:05,004")
    /\ Codec64.timeToSec (Some (lit "00:00:05,004")) = Ok (Fin d)
    /\ (d + (1 # 1000) < round64 5.005)%Q.
Proof.
  eexists. split; [vm_compute; reflexivity|]. split; [vm_compute; reflexivity|].
  apply Qlt_alt. vm_compute. reflexivity.
Qed.

Example a_time_can_grow :
  exists d,
    Codec64.formatTime (fin (round64 0.11699999999999999)) = Ok (lit "00:00:00,117")
    /\ Codec64.timeToSec (Some (lit "00:00:00,117")) = Ok (Fin d)
    /\ (round64 0.11699999999999999 < d)%Q.
Proof.
  eexists. split; [vm_compute; reflexivity|]. split; [vm_compute; reflexivity|].
  apply Qlt_alt. vm_compute. reflexivity.
Qed.

(** What else the codec does not carry through. *)
Example hours_wrap_at_a_day :
  Codec64.formatTime (Fin 90000) = Ok (lit "01:00:00,000")
  /\ Codec64.timeToSec (Some (lit "01:00:00,000")) = Ok (Fin 3600).
Proof. split; vm_compute; reflexivity. Qed.

Example text_lines_are_joined :
  exists srt,
    Codec64.convertToSRT
      [mkSubtitle (lit "a") (Fin 0) (Fin 1) (lit "one" ++ [LF] ++ lit "two") None]
    = Ok srt
    /\ map text (subtitles (Codec64.parseSRT (fun _ => 0) srt (mkState [] import_failed)))
       = [lit "one two"].
Proof. eexists. split; [vm_compute; reflexivity | vm_compute; reflexivity]. Qed.

Example empty_speaker_is_lost :
  exists srt,
    Codec64.convertToSRT [mkSubtitle (lit "a") (Fin 0) (Fin 1) (lit "one") (Some [])] = Ok srt
    /\ map speaker (subtitles (Codec64.parseSRT (fun _ => 0) srt (mkState [] import_failed)))
       = [None].
Proof. eexists. split; [vm_compute; reflexivity | vm_compute; reflexivity]. Qed.

Example text_after_speaker_loses_leading_space :
  exists srt,
    Codec64.convertToSRT
      [mkSubtitle (lit "a") (Fin 0) (Fin 1) (lit "  one") (Some (lit "Ann"))]
    = Ok srt
    /\ map text (subtitles (Codec64.parseSRT (fun _ => 0) srt (mkState [] import_failed)))
       = [lit "one"].
Proof. eexists. split; [vm_compute; reflexivity | vm_compute; reflexivity]. Qed.

Example last_text_loses_trailing_space :
  exists srt,
    Codec64.convertToSRT [mkSubtitle (lit "a") (Fin 0) (Fin 1) (lit "one  ") None] = Ok srt
    /\ map text (subtitles (Codec64.parseSRT (fun _ => 0) srt (mkState [] import_failed)))
       = [lit "one"].
Proof. eexists. split; [vm_compute; reflexivity | vm_compute; reflexivity]. Qed.

Example blank_text_is_dropped :
  exists srt,
    Codec64.convertToSRT
      [mkSubtitle (lit "a") (Fin 0) (Fin 1) (lit " ") None;
       mkSubtitle (lit "b") (Fin 2) (Fin 3) (lit "two") None]
    = Ok srt
    /\ map text (subtitles (Codec64.parseSRT (fun _ => 0) srt (mkState [] import_failed)))
       = [lit "two"].
Proof. eexists. split; [vm_compute; reflexivity | vm_compute; reflexivity]. Qed.

(** ** The speaker heuristic *)

(** A well-formed block decodes to a caption whose speaker and text are
    what the two regular expressions make of the payload. *)
Lemma decodeBlock_payload (now : nat -> Z) (block : str) (i : nat) :
  well_formed_block block ->
  exists c, decodeBlock now block i = Ok (Some c)
    /\ speaker c = match_speaker (payload_of block)
    /\ text c = match match_speaker (payload_of block) with
                | Some _ => strip_speaker (payload_of block)
                | None => payload_of block
                end.
Proof.
  intros [Hlen Harrow]. unfold decodeBlock, payload_of, lines_of in *.
  destruct (Nat.ltb_spec (List.length (split [LF] block)) 3) as [Hlt|_]; [lia|].
  destruct (nth_error_defined (split (lit " --> ") (nth 1 (split [LF] block) [])) 0)
    as [s0 E0]; [lia|].
  destruct (nth_error_defined (split (lit " --> ") (nth 1 (split [LF] block) [])) 1)
    as [s1 E1]; [lia|].
  rewrite E0, E1.
  destruct (timeToSec_defined s0) as [t0 ->], (timeToSec_defined s1) as [t1 ->].
  cbn [bind]. eexists. split; [reflexivity|]. split; reflexivity.
Qed.

Lemma three_lines (idx timeLine line : str) :
  ~ In LF idx -> ~ In LF timeLine -> ~ In LF line ->
  lines_of (idx ++ [LF] ++ timeLine ++ [LF] ++ line) = [idx; timeLine; line].
Proof.
  intros H1 H2 H3. unfold lines_of.
  rewrite !split_cons by assumption. now rewrite split_last.
Qed.

Lemma decodeBlock_three_lines (now : nat -> Z) (i : nat) (idx timeLine line : str) :
  ~ In LF idx -> ~ In LF timeLine -> ~ In LF line ->
  (2 <= List.length (split (lit " --> ") timeLine))%nat ->
  exists c, decodeBlock now (idx ++ [LF] ++ timeLine ++ [LF] ++ line) i = Ok (Some c)
    /\ speaker c = match_speaker line
    /\ text c = match match_speaker line with
                | Some _ => strip_speaker line
                | None => line
                end.
Proof.
  intros H1 H2 H3 Harrow.
  pose proof (three_lines idx timeLine line H1 H2 H3) as L.
  destruct (decodeBlock_payload now (idx ++ [LF] ++ timeLine ++ [LF] ++ line) i)
    as (c & E & Hs & Ht).
  { unfold well_formed_block. rewrite L. simpl. split; [lia | exact Harrow]. }
  exists c. split; [exact E|]. unfold payload_of in *. rewrite L in *. auto.
Qed.

(** C2.  A block of at least three lines whose second line has an arrow
    decodes to a caption.  If its joined text payload starts with a
    non-empty run without colon followed by a colon, the speaker is that
    run and the text is the payload without the run, the colon and the
    white space that follows the colon; if the payload has no such prefix
    the speaker is absent and the text is the payload.  In particular a
    block with the text line "Model 1 (F): Hello there" decodes to speaker
    "Model 1 (F)" and text "Hello there", and one with the text line
    "Hello there" decodes to no speaker and text "Hello there". *)
Theorem decodeBlock_speaker_heuristic :
  (forall (now : nat -> Z) (block : str) (i : nat),
     well_formed_block block ->
     exists c, decodeBlock now block i = Ok (Some c)
       /\ (forall name ws rest,
             colon_prefix (payload_of block) name (ws ++ rest) ->
             forallb is_ws ws = true ->
             dropWhile is_ws rest = rest ->
             speaker c = Some name /\ text c = rest)
       /\ ((forall name tail, ~ colon_prefix (payload_of block) name tail) ->
             speaker c = None /\ text c = payload_of block))
  /\ (forall (now : nat -> Z) (i : nat) (idx timeLine : str),
        ~ In LF idx -> ~ In LF timeLine ->
        (2 <= List.length (split (lit " --> ") timeLine))%nat ->
        (exists c,
           decodeBlock now (idx ++ [LF] ++ timeLine ++ [LF] ++ lit "Model 1 (F): Hello there") i
           = Ok (Some c)
           /\ speaker c = Some (lit "Model 1 (F)") /\ text c = lit "Hello there")
        /\ (exists c,
           decodeBlock now (idx ++ [LF] ++ timeLine ++ [LF] ++ lit "Hello there") i
           = Ok (Some c)
           /\ speaker c = None /\ text c = lit "Hello there")).
Proof.
  split.
  - intros now block i W.
    destruct (decodeBlock_payload now block i W) as (c & E & Hs & Ht).
    exists c. split; [exact E|]. split.
    + intros name ws rest Hp Hws Hrest.
      destruct (match_speaker_some _ _ _ Hp) as [Em Es]. rewrite Em in *. rewrite Es in Ht.
      split; [exact Hs|]. rewrite Ht.
      destruct rest as [|x rest].
      * rewrite app_nil_r. now apply dropWhile_all.
      * rewrite (dropWhile_stop is_ws); [reflexivity | assumption |].
        now apply (dropWhile_first is_ws (x :: rest) x rest).
    + intros Hn. destruct (match_speaker_none _ Hn) as [Em _]. rewrite Em in *. auto.
  - intros now i idx timeLine H1 H2 Harrow. split.
    + apply decodeBlock_three_lines; try assumption. apply plain_line_spec. reflexivity.
    + apply decodeBlock_three_lines; try assumption. apply plain_line_spec. reflexivity.
Qed.

Lemma decodeBlock_speaker_heuristic_witness :
  let block := lit "7" ++ [LF] ++ lit "00:00:01,000 --> 00:00:02,500" ++ [LF]
               ++ lit "Sasha:   Hi there" in
  well_formed_block block
  /\ exists c, decodeBlock (fun _ => 0) block 3 = Ok (Some c)
       /\ speaker c = Some (lit "Sasha") /\ text c = lit "Hi there".
Proof.
  intros block. assert (W : well_formed_block block) by (split; vm_compute; lia).
  split; [exact W|].
  destruct (proj1 decodeBlock_speaker_heuristic (fun _ => 0) block 3%nat W)
    as (c & E & Hsome & _).
  exists c. split; [exact E|].
  apply (Hsome (lit "Sasha") (lit "   ") (lit "Hi there")).
  - split; [discriminate | split; [|reflexivity]].
    intros H; simpl in H; intuition discriminate.
  - reflexivity.
  - reflexivity.
Defined.

(** ** The arithmetic of time codes *)

(** The number read from a time code is the sum of its whole seconds and
    its milliseconds over 1000, up to 2^-34 seconds. *)
Lemma read64_near (T ms : Z) :
  0 <= T < 400000 -> 0 <= ms < 1000 ->
  (Qabs (read64 T ms - (inject_Z T + inject_Z ms / 1000)) <= pow2 (-34))%Q.
Proof.
  intros HT Hms. unfold read64. change (pow2 (-34)) with (1 # 17179869184)%Q.
  assert (Y0 : (0 <= inject_Z ms / 1000)%Q).
  { apply Qle_shift_div_l; [reflexivity|]. rewrite Qmult_0_l.
    change 0%Q with (inject_Z 0). rewrite <- Zle_Qle. lia. }
  assert (Y1 : (inject_Z ms / 1000 <= 1)%Q).
  { apply Qle_shift_div_r; [reflexivity|]. change (1 * 1000)%Q with (inject_Z 1000).
    rewrite <- Zle_Qle. lia. }
  destruct (round64_near _ _ Y0 Y1) as [B1 B2].
  pose proof (round64_nonneg _ Y0) as BN.
  set (w := (inject_Z ms / 1000)%Q) in *. set (y := round64 w) in *.
  assert (TQ : (0 <= inject_Z T)%Q /\ (inject_Z T <= 400000)%Q).
  { split.
    - change 0%Q with (inject_Z 0). rewrite <- Zle_Qle. lia.
    - change 400000%Q with (inject_Z 400000). rewrite <- Zle_Qle. lia. }
  destruct tiny_bound as [T0 T1].
  assert (K1 : (1 / 9007199254740992 == 1 # 9007199254740992)%Q) by reflexivity.
  rewrite K1 in B1, B2.
  assert (Z0 : (0 <= inject_Z T + y)%Q) by lra.
  assert (Z1 : (inject_Z T + y <= 400002)%Q) by lra.
  destruct (round64_near _ _ Z0 Z1) as [C1 C2].
  assert (K3 : (400002 / 9007199254740992 == 400002 # 9007199254740992)%Q) by reflexivity.
  rewrite K3 in C1, C2.
  set (t := pow2 (-1075)) in *. set (d := round64 (inject_Z T + y)) in *.
  clearbody w t d y. apply Qabs_Qle_condition. split; lra.
Qed.

(** C3.  [timeToSec] of the time code HH:MM:SS,mmm with fields h, m, s and
    ms is h * 3600 + m * 60 + s + ms / 1000 in the arithmetic of the
    program: the whole seconds are exact, the quotient and the last sum
    are rounded to binary64, and the result is within 2^-34 seconds of the
    exact sum; "00:01:05,250" decodes to 65.25 seconds.  [formatTime] of a
    time of day prints the hours, minutes and seconds of its integer part
    on two digits each and, on three digits, the floor of the rounded
    product of its fractional part and 1000, which for a binary64 time is
    at most 999; 65.25 seconds encodes to "00:01:05,250".  The floor is
    taken: 513/1024 seconds, with the product 500.9765625, encodes to
    "00:00:00,500"; and it is taken of the rounded product: the binary64
    number nearest to 4.1 encodes to "00:00:04,099". *)
Theorem timecode_arithmetic :
  (forall h m s ms : Z,
     0 <= h < 100 -> 0 <= m < 100 -> 0 <= s < 100 -> 0 <= ms < 1000 ->
     let sum :=
       add64
         (add64 (add64 (mul64 (of_Z h) (of_Z 3600)) (mul64 (of_Z m) (of_Z 60))) (of_Z s))
         (div64 (of_Z ms) (of_Z 1000)) in
     let T := h * 3600 + m * 60 + s in
     Codec64.timeToSec (Some (timecode h m s ms)) = Ok sum
     /\ sum = fin (round64 (inject_Z T + round64 (inject_Z ms / 1000)))
     /\ (Qabs (round64 (inject_Z T + round64 (inject_Z ms / 1000))
               - (inject_Z T + inject_Z ms / 1000)) <= pow2 (-34))%Q)
  /\ Codec64.timeToSec (Some (lit "00:01:05,250")) = Ok (fin 65.25)
  /\ (forall q : Q,
        (0 <= q)%Q -> (q < 86400)%Q ->
        let T := Qfloor q in
        let ms := Qfloor (round64 ((q - inject_Z T) * 1000)) in
        Codec64.formatTime (Fin q)
        = Ok (timecode (T / 3600) ((T / 60) mod 60) (T mod 60) ms)
        /\ (binary64 q = true -> 0 <= ms < 1000))
  /\ Codec64.formatTime (fin 65.25) = Ok (lit "00:01:05,250")
  /\ Codec64.formatTime (Fin (513 # 1024)) = Ok (lit "00:00:00,500")
  /\ Codec64.formatTime (fin (round64 4.1)) = Ok (lit "00:00:04,099").
Proof.
  split.
  { intros h m s ms Hh Hm Hs Hms sum T.
    split; [now apply timeToSec64_timecode|].
    split; [now apply formula64_value|].
    apply (read64_near T ms); [unfold T; lia | exact Hms]. }
  split; [vm_compute; reflexivity|].
  split.
  { intros q H0 H1 T ms. split; [now apply formatTime64_timecode|].
    intros B. now apply ms64_range. }
  split; [vm_compute; reflexivity|].
  split; vm_compute; reflexivity.
Qed.

Lemma timecode_arithmetic_witness :
  (0 <= 1 < 100 /\ 0 <= 5 < 100 /\ 0 <= 250 < 1000)
  /\ Codec64.timeToSec (Some (timecode 0 1 5 250)) = Ok (fin 65.25)
  /\ ((0 <= 3723.5)%Q /\ (3723.5 < 86400)%Q /\ binary64 3723.5 = true)
  /\ Codec64.formatTime (Fin 3723.5) = Ok (lit "01:02:03,500")
  /\ 0 <= Qfloor (round64 ((3723.5 - inject_Z (Qfloor 3723.5)) * 1000)) < 1000.
Proof.
  split; [lia|]. split.
  - destruct (proj1 timecode_arithmetic 0 1 5 250) as (E1 & E2 & _); try lia.
    rewrite E1, E2. vm_compute. reflexivity.
  - split; [repeat split; vm_compute; congruence|].
    destruct (proj1 (proj2 (proj2 timecode_arithmetic)) 3723.5%Q) as [E B].
    + unfold Qle; simpl; lia.
    + unfold Qlt; simpl; lia.
    + split; [rewrite E; vm_compute; reflexivity | apply B; vm_compute; reflexivity].
Defined.

(** ** Exceptions and short blocks *)

Lemma mapM_from_throw {A B} (f : A -> nat -> outcome B) (l : list A) (i k : nat) (a : A) (e : exn) :
  nth_error l k = Some a -> f a (i + k)%nat = Throw e ->
  exists e', mapM_from f i l = Throw e'.
Proof.
  revert i k. induction l as [|x l IH]; intros i k Hk Hf.
  - destruct k; discriminate.
  - simpl. destruct k as [|k].
    + injection Hk as ->. rewrite Nat.add_0_r in Hf. rewrite Hf. simpl. eauto.
    + destruct (f x i); simpl; [|eauto].
      destruct (IH (S i) k Hk) as [e' ->]; [now rewrite <- Nat.add_succ_comm in Hf|].
      simpl. eauto.
Qed.

Lemma mapM_from_ok {A B} (f : A -> nat -> outcome B) (l : list A) (i : nat) (rs : list B) :
  mapM_from f i l = Ok rs ->
  Forall2 (fun ia r => f (snd ia) (fst ia) = Ok r) (combine (seq i (List.length l)) l) rs.
Proof.
  revert i rs. induction l as [|x l IH]; intros i rs H; simpl in *.
  - injection H as <-. constructor.
  - destruct (f x i) as [b|] eqn:E; simpl in H; [|discriminate].
    destruct (mapM_from f (S i) l) as [bs|] eqn:E'; simpl in H; [|discriminate].
    injection H as <-. constructor; [exact E | now apply IH].
Qed.

(** A time line without an arrow leaves the end time undefined, and
    [timeToSec] of undefined is a TypeError. *)
Lemma arrowless_block_throws (now : nat -> Z) (block : str) (i : nat) :
  (3 <= List.length (lines_of block))%nat ->
  List.length (split (lit " --> ") (nth 1 (lines_of block) [])) = 1%nat ->
  decodeBlock now block i = Throw TypeError.
Proof.
  intros Hlen Harrow. unfold decodeBlock, lines_of in *.
  destruct (Nat.ltb_spec (List.length (split [LF] block)) 3) as [Hlt|_]; [lia|].
  destruct (split (lit " --> ") (nth 1 (split [LF] block) [])) as [|s0 [|s1 r]];
    try discriminate.
  cbn [nth_error]. destruct (timeToSec_defined s0) as [t0 ->]. reflexivity.
Qed.

(** C7.  If decoding any block of the input raises an exception,
    [parseSRT] leaves the caption collection as it was and reports the
    parse failure; a block of at least three lines whose time line has no
    arrow raises one.  When [parseSRT] reports success, no block raised an
    exception and the new collection holds the result of every block, the
    nulls removed: never part of them. *)
Theorem parseSRT_fails_as_a_unit (now : nat -> Z) (content : str) (st : AppState) :
  ((exists i block e,
      nth_error (blocks_of content) i = Some block /\ decodeBlock now block i = Throw e) ->
   parseSRT now content st = mkState (subtitles st) import_failed)
  /\ (forall block i,
        (3 <= List.length (lines_of block))%nat ->
        List.length (split (lit " --> ") (nth 1 (lines_of block) [])) = 1%nat ->
        decodeBlock now block i = Throw TypeError)
  /\ (status (parseSRT now content st) = import_ok ->
      exists rs,
        Forall2 (fun ib r => decodeBlock now (snd ib) (fst ib) = Ok r)
          (indexed_from 0 (blocks_of content)) rs
        /\ subtitles (parseSRT now content st) = filter_non_null rs).
Proof.
  unfold parseSRT, decode, mapMi, blocks_of, indexed_from. split; [|split].
  - intros (i & block & e & Hb & He).
    destruct (mapM_from_throw (decodeBlock now) _ 0%nat i block e Hb He) as [e' ->].
    reflexivity.
  - intros block i. apply arrowless_block_throws.
  - destruct (mapM_from (decodeBlock now) 0 (split_blank_lines (trim content)))
      as [rs|e] eqn:E; simpl.
    + intros _. exists rs. split; [now apply mapM_from_ok | reflexivity].
    + discriminate.
Qed.

Lemma parseSRT_fails_as_a_unit_witness :
  let content := lit "1" ++ [LF] ++ lit "00:00:01,000 --> 00:00:02,000" ++ [LF] ++ lit "one"
                 ++ [LF; LF]
                 ++ lit "2" ++ [LF] ++ lit "00:00:03,000 00:00:04,000" ++ [LF] ++ lit "two" in
  let st := mkState [mkSubtitle (lit "old") (Fin 0) (Fin 1) (lit "kept") None] import_ok in
  (exists i block e,
     nth_error (blocks_of content) i = Some block
     /\ decodeBlock (fun _ => 0) block i = Throw e)
  /\ parseSRT (fun _ => 0) content st = mkState (subtitles st) import_failed.
Proof.
  intros content st.
  assert (H : exists i block e,
             nth_error (blocks_of content) i = Some block
             /\ decodeBlock (fun _ => 0) block i = Throw e).
  { exists 1%nat. eexists. exists TypeError.
    split; [vm_compute; reflexivity | vm_compute; reflexivity]. }
  split; [exact H|].
  exact (proj1 (parseSRT_fails_as_a_unit (fun _ => 0) content st) H).
Defined.

(** Other malformed time lines raise nothing: the fields that are not
    numbers make the times NaN. *)
Example malformed_fields_decode_to_NaN :
  map (fun c => (startTime c, endTime c, text c))
    (subtitles (parseSRT (fun _ => 0)
                  (lit "1" ++ [LF] ++ lit "soon --> 00:00:02" ++ [LF] ++ lit "hello")
                  (mkState [] import_failed)))
  = [(NaN, NaN, lit "hello")].
Proof. vm_compute. reflexivity. Qed.

Lemma short_block_is_null (now : nat -> Z) (block : str) (i : nat) :
  (List.length (lines_of block) < 3)%nat -> decodeBlock now block i = Ok None.
Proof.
  intros H. unfold decodeBlock, lines_of in *.
  destruct (Nat.ltb_spec (List.length (split [LF] block)) 3); [reflexivity | lia].
Qed.

Lemma long_blocks_decoded (now : nat -> Z) (blocks : list str) (i : nat) :
  (forall k b, nth_error blocks k = Some b ->
     (3 <= List.length (lines_of b))%nat -> well_formed_block b) ->
  exists rs,
    mapM_from (decodeBlock now) i blocks = Ok rs
    /\ Forall2 (fun ib c => decodeBlock now (snd ib) (fst ib) = Ok (Some c))
         (filter long_block (indexed_from i blocks)) (filter_non_null rs).
Proof.
  revert i. induction blocks as [|b blocks IH]; intros i H.
  - exists []. split; [reflexivity | constructor].
  - destruct (IH (S i)) as (rs & E & F).
    { intros k b' Hk. now apply (H (S k)). }
    unfold indexed_from in *. cbn [List.length seq combine filter mapM_from].
    unfold long_block at 1. cbn [snd]. rewrite E.
    destruct (Nat.leb_spec 3 (List.length (lines_of b))) as [L|L].
    + destruct (decodeBlock_payload now b i (H 0%nat b eq_refl L)) as (c & Ec & _).
      rewrite Ec. exists (Some c :: rs). split; [reflexivity|].
      constructor; [exact Ec | exact F].
    + rewrite (short_block_is_null now b i L).
      exists (None :: rs). split; [reflexivity | exact F].
Qed.

Lemma long_blocks_checked (blocks : list str) :
  forallb (fun b => negb (long_block (0%nat, b)) || well_formed_blockb b) blocks = true ->
  forall k b, nth_error blocks k = Some b ->
    (3 <= List.length (lines_of b))%nat -> well_formed_block b.
Proof.
  intros H k b Hk L. rewrite forallb_forall in H.
  specialize (H b (nth_error_In _ _ Hk)). unfold long_block in H. cbn [snd] in H.
  apply Nat.leb_le in L. rewrite L in H. simpl in H.
  unfold well_formed_blockb in H. apply andb_prop in H as [H1 H2].
  apply Nat.leb_le in H1, H2. split; assumption.
Qed.

(** C8.  A block with fewer than three lines decodes to null without an
    exception.  When every block of at least three lines of an input is
    well formed, [parseSRT] reports success and the collection is, in
    order, the decoded caption of each block of at least three lines: the
    shorter blocks are dropped and nothing else is. *)
Theorem short_blocks_are_dropped (now : nat -> Z) (content : str) (st : AppState) :
  (forall i block, (List.length (lines_of block) < 3)%nat ->
     decodeBlock now block i = Ok None)
  /\ ((forall k b, nth_error (blocks_of content) k = Some b ->
         (3 <= List.length (lines_of b))%nat -> well_formed_block b) ->
      status (parseSRT now content st) = import_ok
      /\ Forall2 (fun ib c => decodeBlock now (snd ib) (fst ib) = Ok (Some c))
           (filter long_block (indexed_from 0 (blocks_of content)))
           (subtitles (parseSRT now content st))).
Proof.
  split.
  - intros i block. apply short_block_is_null.
  - intros H. destruct (long_blocks_decoded now _ 0%nat H) as (rs & E & F).
    unfold parseSRT, decode, mapMi. fold (blocks_of content). rewrite E.
    split; [reflexivity | exact F].
Qed.

Lemma short_blocks_are_dropped_witness :
  let content := lit "1" ++ [LF] ++ lit "00:00:01,000 --> 00:00:02,000" ++ [LF] ++ lit "one"
                 ++ [LF; LF]
                 ++ lit "2" ++ [LF] ++ lit "00:00:03,000 --> 00:00:04,000"
                 ++ [LF; LF]
                 ++ lit "3" ++ [LF] ++ lit "00:00:05,000 --> 00:00:06,000" ++ [LF] ++ lit "three" in
  let st := mkState [] import_failed in
  (forall k b, nth_error (blocks_of content) k = Some b ->
     (3 <= List.length (lines_of b))%nat -> well_formed_block b)
  /\ status (parseSRT (fun _ => 0) content st) = import_ok
  /\ map text (subtitles (parseSRT (fun _ => 0) content st)) = [lit "one"; lit "three"].
Proof.
  intros content st.
  assert (H : forall k b, nth_error (blocks_of content) k = Some b ->
                (3 <= List.length (lines_of b))%nat -> well_formed_block b).
  { apply long_blocks_checked. vm_compute. reflexivity. }
  split; [exact H|].
  split; [exact (proj1 (proj2 (short_blocks_are_dropped (fun _ => 0) content st) H))|].
  vm_compute. reflexivity.
Defined.

(** ** The two codecs

    [Codec] computes the times over exact numbers, [Codec64] in binary64.
    The two decode a file to the same ids, speakers and texts or fail the
    same way, and fail on the same collections when they encode: what is
    proved of [Codec] about blocks, lines, speakers, texts, ids and
    failures holds of [Codec64]. *)

Lemma timeToSec_same_failure (arg : option str) :
  agree (fun _ _ => True) (timeToSec arg) (Codec64.timeToSec arg).
Proof. destruct arg; simpl; auto. Qed.

Lemma decodeBlock_same_words (now : nat -> Z) (block : str) (i : nat) :
  agree same_words_if_any (decodeBlock now block i) (Codec64.decodeBlock now block i).
Proof.
  unfold decodeBlock, Codec64.decodeBlock.
  destruct (List.length (split [LF] block) <? 3)%nat; [exact I|].
  destruct (nth_error (split (lit " --> ") (nth 1 (split [LF] block) [])) 0) as [s0|];
    [|reflexivity].
  destruct (nth_error (split (lit " --> ") (nth 1 (split [LF] block) [])) 1) as [s1|];
    [|reflexivity].
  cbn. unfold same_words. auto.
Qed.

Lemma mapM_from_agree {A B} (R : B -> B -> Prop) (f g : A -> nat -> outcome B)
      (l : list A) (i : nat) :
  (forall a k, agree R (f a k) (g a k)) ->
  agree (Forall2 R) (mapM_from f i l) (mapM_from g i l).
Proof.
  intros H. revert i. induction l as [|a l IH]; intros i; simpl; [constructor|].
  specialize (H a i). specialize (IH (S i)).
  destruct (f a i), (g a i); simpl in *; try contradiction; [|exact H].
  destruct (mapM_from f (S i) l), (mapM_from g (S i) l); simpl in *;
    try contradiction; [now constructor | exact IH].
Qed.

Lemma filter_non_null_same_words (l l' : list (option Subtitle)) :
  Forall2 same_words_if_any l l' ->
  Forall2 same_words (filter_non_null l) (filter_non_null l').
Proof.
  induction 1 as [|c d l l' H _ IH]; simpl; [constructor|].
  destruct c, d; simpl in H; try contradiction; [now constructor | exact IH].
Qed.

Lemma decode_same_words (now : nat -> Z) (content : str) :
  agree (Forall2 same_words) (decode now content) (Codec64.decode now content).
Proof.
  unfold decode, Codec64.decode, mapMi.
  pose proof (mapM_from_agree same_words_if_any (decodeBlock now) (Codec64.decodeBlock now)
                (split_blank_lines (trim content)) 0 (decodeBlock_same_words now)) as H.
  destruct (mapM_from (decodeBlock now) 0 (split_blank_lines (trim content))),
    (mapM_from (Codec64.decodeBlock now) 0 (split_blank_lines (trim content)));
    simpl in *; try contradiction; [|exact H].
  now apply filter_non_null_same_words.
Qed.

(** [parseSRT] sets the same status in both and leaves captions with the
    same ids, speakers and texts. *)
Lemma parseSRT_same_words (now : nat -> Z) (content : str) (st : AppState) :
  status (Codec64.parseSRT now content st) = status (parseSRT now content st)
  /\ Forall2 same_words (subtitles (parseSRT now content st))
       (subtitles (Codec64.parseSRT now content st)).
Proof.
  unfold parseSRT, Codec64.parseSRT. pose proof (decode_same_words now content) as H.
  destruct (decode now content), (Codec64.decode now content); simpl in *;
    try contradiction; split; try reflexivity; try exact H.
  clear. induction (subtitles st); constructor; [unfold same_words; auto | assumption].
Qed.

Lemma formatTime_same_failure (x : number) :
  agree (fun _ _ => True) (formatTime x) (Codec64.formatTime x).
Proof.
  unfold formatTime, Codec64.formatTime.
  destruct (Date_toISOString (Date_setSeconds (Some 0) x)); simpl; auto.
Qed.

Lemma encodeBlock_same_failure (c : Subtitle) (i : nat) :
  agree (fun _ _ => True) (encodeBlock c i) (Codec64.encodeBlock c i).
Proof.
  unfold encodeBlock, Codec64.encodeBlock.
  pose proof (formatTime_same_failure (startTime c)) as Ha.
  pose proof (formatTime_same_failure (endTime c)) as Hb.
  destruct (formatTime (startTime c)), (Codec64.formatTime (startTime c));
    simpl in *; try contradiction; [|exact Ha].
  destruct (formatTime (endTime c)), (Codec64.formatTime (endTime c));
    simpl in *; try contradiction; [exact I | exact Hb].
Qed.

(** [convertToSRT] gives a text in both or throws the same exception. *)
Lemma convertToSRT_same_failure (l : list Subtitle) :
  agree (fun _ _ => True) (convertToSRT l) (Codec64.convertToSRT l).
Proof.
  unfold convertToSRT, Codec64.convertToSRT, mapMi.
  pose proof (mapM_from_agree (fun _ _ => True) encodeBlock Codec64.encodeBlock
                (sort_by_start l) 0 encodeBlock_same_failure) as H.
  destruct (mapM_from encodeBlock 0 (sort_by_start l)),
    (mapM_from Codec64.encodeBlock 0 (sort_by_start l));
    simpl in *; try contradiction; [exact I | exact H].
Qed.

End CodecProps.

(** * Properties of the audio range extractor *)

Module AudioProps.

Import Audio AudioSpec Binary64Props.

(** ** The WAV writer *)

Lemma Ok_inj {A} (a b : A) : Ok a = Ok b -> a = b.
Proof. intros H. now injection H. Qed.

Lemma store_app (pre old vs rest : bytes) :
  List.length old = List.length vs ->
  store (List.length pre) vs (pre ++ old ++ rest) = Ok (pre ++ vs ++ rest).
Proof.
  intros H. unfold store.
  rewrite !length_app, H.
  destruct (Nat.leb_spec (List.length pre + List.length vs)
              (List.length pre + (List.length vs + List.length rest))) as [_|L]; [|lia].
  rewrite firstn_app, Nat.sub_diag, firstn_all. simpl. rewrite app_nil_r.
  rewrite skipn_app, skipn_all2 by lia. simpl.
  replace (List.length pre + List.length vs - List.length pre)%nat
    with (List.length old) by lia.
  rewrite skipn_app, skipn_all, Nat.sub_diag. reflexivity.
Qed.

Lemma writeSamples_flat (samples : list number) (pre rest : bytes) :
  List.length rest = (2 * List.length samples)%nat ->
  writeSamples samples (List.length pre) (pre ++ rest)
  = Ok (pre ++ flat_map sample_bytes samples).
Proof.
  revert pre rest. induction samples as [|x samples IH]; intros pre rest H.
  - destruct rest; [reflexivity | discriminate].
  - destruct rest as [|a [|b rest]]; try (simpl in H; lia).
    cbn [writeSamples]. unfold setInt16.
    change (a :: b :: rest) with ([a; b] ++ rest).
    rewrite store_app by reflexivity. cbn [bind].
    replace (List.length pre + 2)%nat
      with (List.length (pre ++ le_bytes 2 (ToInt16 (scaleSample (clampSample x)) mod 2 ^ 16)))
      by (rewrite length_app; reflexivity).
    rewrite app_assoc, IH by (simpl in H; lia).
    now rewrite <- app_assoc.
Qed.

(** The header writes, on an array of 44 bytes and a tail. *)
Lemma header_written {B} (n : Z) (rate : number) (z : list Z) (tail : bytes)
    (k : bytes -> outcome B) :
  List.length z = 44%nat ->
  (do m <- writeString 0 (lit "RIFF") (z ++ tail);
   do m <- setUint32 4 (of_Z (32 + n * 2)) m;
   do m <- writeString 8 (lit "WAVE") m;
   do m <- writeString 12 (lit "fmt ") m;
   do m <- setUint32 16 (of_Z 16) m;
   do m <- setUint16 20 (of_Z 1) m;
   do m <- setUint16 22 (of_Z 1) m;
   do m <- setUint32 24 rate m;
   do m <- setUint32 28 (num_mul rate (of_Z 2)) m;
   do m <- setUint16 32 (of_Z 2) m;
   do m <- setUint16 34 (of_Z 16) m;
   do m <- writeString 36 (lit "data") m;
   do m <- setUint32 40 (of_Z (n * 2)) m;
   k m)
  = k (wav_header n rate ++ tail).
Proof.
  intros H.
  do 45 (destruct z as [|? z]; try discriminate). clear H.
  cbv beta iota zeta delta
    [bind writeString setUint8 setUint16 setUint32 store le_bytes lit list_ascii_of_string
     firstn skipn app List.length Nat.leb Nat.add wav_header tag map].
  reflexivity.
Qed.

Lemma wav_header_length (n : Z) (rate : number) : List.length (wav_header n rate) = 44%nat.
Proof. reflexivity. Qed.

(** The stream is the header and then two bytes for each sample. *)
Lemma audioBufferToWav_layout (buffer : AudioBuffer) :
  audioBufferToWav buffer
  = Ok (wav_header (Z.of_nat (length buffer)) (Fin (sampleRate buffer))
        ++ flat_map sample_bytes (channel0 buffer)).
Proof.
  unfold audioBufferToWav.
  rewrite Nat.add_comm, repeat_app.
  rewrite header_written by apply repeat_length.
  rewrite <- (wav_header_length (Z.of_nat (length buffer)) (Fin (sampleRate buffer))) at 1.
  apply writeSamples_flat. rewrite repeat_length. unfold length. lia.
Qed.

Lemma flat_map_sample_bytes_length (samples : list number) :
  List.length (flat_map sample_bytes samples) = (2 * List.length samples)%nat.
Proof.
  induction samples as [|x samples IH]; [reflexivity|].
  cbn [flat_map]. rewrite length_app, IH. simpl. lia.
Qed.

Lemma audioBufferToWav_length (buffer : AudioBuffer) (wav : bytes) :
  audioBufferToWav buffer = Ok wav ->
  Z.of_nat (List.length wav) = 44 + 2 * Z.of_nat (length buffer).
Proof.
  rewrite audioBufferToWav_layout. intros H. apply Ok_inj in H. subst wav.
  rewrite length_app, wav_header_length, flat_map_sample_bytes_length.
  unfold length. lia.
Qed.

Lemma le_value_le_bytes (n : nat) (v : Z) :
  0 <= v < 256 ^ Z.of_nat n -> le_value (le_bytes n v) = v.
Proof.
  revert v. induction n as [|n IH]; intros v H.
  - simpl in *. lia.
  - cbn [le_bytes le_value]. rewrite IH.
    + pose proof (Z.div_mod v 256 ltac:(lia)). lia.
    + rewrite Nat2Z.inj_succ, Z.pow_succ_r in H by lia.
      split; [apply Z.div_pos; lia | apply Z.div_lt_upper_bound; lia].
Qed.

Lemma Qtrunc_inject_Z (z : Z) : Qtrunc (inject_Z z) = z.
Proof. unfold Qtrunc. simpl. apply Z.quot_1_r. Qed.

Lemma ToUint32_of_Z (z : Z) : 0 <= z < 2 ^ 32 -> ToUint32 (of_Z z) = z.
Proof.
  intros H. unfold ToUint32, of_Z, to_integer_wrapping.
  rewrite Qtrunc_inject_Z. now apply Z.mod_small.
Qed.

(** ** Truncation and wrap-around *)

Lemma Qtrunc_alt (q : Q) :
  Qtrunc q = if Qle_bool 0 q then Qfloor q else - Qfloor (- q).
Proof.
  destruct q as [n d]. unfold Qtrunc, Qle_bool, Qfloor, Qopp. simpl.
  rewrite Z.mul_1_r. destruct (Z.leb_spec 0 n) as [H|H].
  - apply Z.quot_div_nonneg; lia.
  - rewrite <- (Z.opp_involutive n) at 1. rewrite Z.quot_opp_l by lia.
    f_equal. apply Z.quot_div_nonneg; lia.
Qed.

Lemma Qtrunc_comp (p q : Q) : (p == q)%Q -> Qtrunc p = Qtrunc q.
Proof.
  intros H. rewrite !Qtrunc_alt.
  rewrite (Qleb_comp 0%Q 0%Q (Qeq_refl 0%Q) p q H).
  destruct (Qle_bool 0 q).
  - now apply Qfloor_comp.
  - f_equal. apply Qfloor_comp. now rewrite H.
Qed.

Lemma Qtrunc_bounds (q : Q) (lo hi : Z) :
  lo <= 0 <= hi -> (inject_Z lo <= q)%Q -> (q <= inject_Z hi)%Q -> lo <= Qtrunc q <= hi.
Proof.
  intros Hz Hlo Hhi. rewrite Qtrunc_alt.
  destruct (Qle_bool 0 q) eqn:E.
  - apply Qle_bool_iff in E. split.
    + assert (0 <= Qfloor q) by (change 0 with (Qfloor 0); now apply Qfloor_resp_le). lia.
    + rewrite <- (Qfloor_Z hi). now apply Qfloor_resp_le.
  - assert (N : (q < 0)%Q).
    { destruct (Qlt_le_dec q 0) as [L|L]; [exact L|]. apply Qle_bool_iff in L. congruence. }
    assert (P : 0 <= Qfloor (- q)).
    { change 0 with (Qfloor 0). apply Qfloor_resp_le. lra. }
    assert (U : Qfloor (- q) <= - lo).
    { rewrite <- (Qfloor_Z (- lo)). apply Qfloor_resp_le. rewrite inject_Z_opp. lra. }
    lia.
Qed.

Lemma ToInt16_small (x : number) :
  - 2 ^ 15 <= to_integer_wrapping x < 2 ^ 15 -> ToInt16 x = to_integer_wrapping x.
Proof.
  intros H. unfold ToInt16, ToUint16.
  set (v := to_integer_wrapping x) in *.
  destruct (Z_lt_le_dec v 0) as [N|N].
  - replace (v mod 2 ^ 16) with (v + 2 ^ 16).
    + destruct (Z.ltb_spec (v + 2 ^ 16) (2 ^ 15)); lia.
    + apply (Z.mod_unique _ _ (-1)); lia.
  - rewrite Z.mod_small by lia. destruct (Z.ltb_spec v (2 ^ 15)); lia.
Qed.

Lemma ToInt16_range (x : number) : - 2 ^ 15 <= ToInt16 x < 2 ^ 15.
Proof.
  unfold ToInt16, ToUint16.
  pose proof (Z.mod_pos_bound (to_integer_wrapping x) (2 ^ 16) ltac:(lia)).
  destruct (Z.ltb_spec (to_integer_wrapping x mod 2 ^ 16) (2 ^ 15)); lia.
Qed.

(** Two bytes written by [setInt16] read back as the same integer. *)
Lemma int16_round_trip (v : Z) :
  - 2 ^ 15 <= v < 2 ^ 15 ->
  (let u := le_value (le_bytes 2 (v mod 2 ^ 16)) in
   if u <? 2 ^ 15 then u else u - 2 ^ 16) = v.
Proof.
  intros H. rewrite le_value_le_bytes
    by (change (256 ^ Z.of_nat 2) with (2 ^ 16); apply Z.mod_pos_bound; lia).
  cbv zeta. destruct (Z_lt_le_dec v 0) as [N|N].
  - replace (v mod 2 ^ 16) with (v + 2 ^ 16).
    + destruct (Z.ltb_spec (v + 2 ^ 16) (2 ^ 15)); lia.
    + apply (Z.mod_unique _ _ (-1)); lia.
  - rewrite Z.mod_small by lia. destruct (Z.ltb_spec v (2 ^ 15)); lia.
Qed.

(** ** The header fields *)

Ltac read_header :=
  cbv beta iota zeta delta
    [load firstn skipn app wav_header tag map lit list_ascii_of_string le_bytes];
  reflexivity.

Section Header.

Variables (n : Z) (rate : number) (tail : bytes).

Let wav : bytes := wav_header n rate ++ tail.

Lemma load_riff : load 0 4 wav = tag "RIFF".
Proof. read_header. Qed.

Lemma load_riff_size : load 4 4 wav = le_bytes 4 (ToUint32 (of_Z (32 + n * 2))).
Proof. read_header. Qed.

Lemma load_wave : load 8 4 wav = tag "WAVE".
Proof. read_header. Qed.

Lemma load_fmt : load 12 4 wav = tag "fmt ".
Proof. read_header. Qed.

Lemma load_fmt_size : load 16 4 wav = le_bytes 4 (ToUint32 (of_Z 16)).
Proof. read_header. Qed.

Lemma load_format_tag : load 20 2 wav = le_bytes 2 (ToUint16 (of_Z 1)).
Proof. read_header. Qed.

Lemma load_channels : load 22 2 wav = le_bytes 2 (ToUint16 (of_Z 1)).
Proof. read_header. Qed.

Lemma load_rate : load 24 4 wav = le_bytes 4 (ToUint32 rate).
Proof. read_header. Qed.

Lemma load_byte_rate : load 28 4 wav = le_bytes 4 (ToUint32 (num_mul rate (of_Z 2))).
Proof. read_header. Qed.

Lemma load_block_align : load 32 2 wav = le_bytes 2 (ToUint16 (of_Z 2)).
Proof. read_header. Qed.

Lemma load_bits : load 34 2 wav = le_bytes 2 (ToUint16 (of_Z 16)).
Proof. read_header. Qed.

Lemma load_data : load 36 4 wav = tag "data".
Proof. read_header. Qed.

Lemma load_data_size : load 40 4 wav = le_bytes 4 (ToUint32 (of_Z (n * 2))).
Proof. read_header. Qed.

End Header.

Lemma ToUint32_range (x : number) : 0 <= ToUint32 x < 256 ^ Z.of_nat 4.
Proof. unfold ToUint32. change (256 ^ Z.of_nat 4) with (2 ^ 32). apply Z.mod_pos_bound. lia. Qed.

Lemma ToUint16_range (x : number) : 0 <= ToUint16 x < 256 ^ Z.of_nat 2.
Proof. unfold ToUint16. change (256 ^ Z.of_nat 2) with (2 ^ 16). apply Z.mod_pos_bound. lia. Qed.

Lemma ToUint32_double (r : Z) :
  0 <= r -> r * 2 < 2 ^ 32 -> ToUint32 (num_mul (Fin (inject_Z r)) (of_Z 2)) = r * 2.
Proof.
  intros H0 H1. unfold ToUint32, num_mul, of_Z, fin, to_integer_wrapping.
  rewrite (Qtrunc_comp _ (inject_Z (r * 2))).
  - rewrite Qtrunc_inject_Z. apply Z.mod_small. lia.
  - rewrite Qred_correct, inject_Z_mult. reflexivity.
Qed.

(** C5.  For a buffer of N frames at the integral sample rate r, with r * 2
    and N * 2 below 2^32, [audioBufferToWav] returns 44 + 2 * N bytes that
    start with the tag RIFF, have the tags WAVE and "fmt " at offsets 8 and
    12, the sub-chunk size 16 at offset 16, the format tag 1 at offset 20,
    the channel count 1 at offset 22, the sample rate r at offset 24, the
    byte rate r * 2 at offset 28, the block align 2 at offset 32, the bits
    per sample 16 at offset 34, the tag data at offset 36 and the data size
    N * 2 at offset 40, all little-endian.  One second of silence at 44100
    Hz encodes to 44 + 88200 bytes. *)
Theorem wav_header_exact :
  (forall (r : Z) (samples : list number) (others : list (list number)),
     let N := Z.of_nat (List.length samples) in
     0 <= r -> r * 2 < 2 ^ 32 -> N * 2 < 2 ^ 32 ->
     exists wav,
       audioBufferToWav (mkBuffer (inject_Z r) samples others) = Ok wav
       /\ Z.of_nat (List.length wav) = 44 + 2 * N
       /\ load 0 4 wav = [82; 73; 70; 70]
       /\ load 8 4 wav = [87; 65; 86; 69]
       /\ load 12 4 wav = [102; 109; 116; 32]
       /\ getUint32 16 wav = 16
       /\ getUint16 20 wav = 1
       /\ getUint16 22 wav = 1
       /\ getUint32 24 wav = r
       /\ getUint32 28 wav = r * 2
       /\ getUint16 32 wav = 2
       /\ getUint16 34 wav = 16
       /\ load 36 4 wav = [100; 97; 116; 97]
       /\ getUint32 40 wav = N * 2)
  /\ exists wav,
       audioBufferToWav (mkBuffer 44100 (repeat (Fin 0) (Z.to_nat 44100)) []) = Ok wav
       /\ Z.of_nat (List.length wav) = 44 + 88200
       /\ getUint16 22 wav = 1 /\ getUint32 24 wav = 44100 /\ getUint16 34 wav = 16.
Proof.
  assert (G : forall (r : Z) (samples : list number) (others : list (list number)),
     let N := Z.of_nat (List.length samples) in
     0 <= r -> r * 2 < 2 ^ 32 -> N * 2 < 2 ^ 32 ->
     exists wav,
       audioBufferToWav (mkBuffer (inject_Z r) samples others) = Ok wav
       /\ Z.of_nat (List.length wav) = 44 + 2 * N
       /\ load 0 4 wav = [82; 73; 70; 70]
       /\ load 8 4 wav = [87; 65; 86; 69]
       /\ load 12 4 wav = [102; 109; 116; 32]
       /\ getUint32 16 wav = 16
       /\ getUint16 20 wav = 1
       /\ getUint16 22 wav = 1
       /\ getUint32 24 wav = r
       /\ getUint32 28 wav = r * 2
       /\ getUint16 32 wav = 2
       /\ getUint16 34 wav = 16
       /\ load 36 4 wav = [100; 97; 116; 97]
       /\ getUint32 40 wav = N * 2).
  { intros r samples others N H0 H1 H2.
    pose proof (audioBufferToWav_layout (mkBuffer (inject_Z r) samples others)) as L.
    eexists. split; [exact L|].
    split; [exact (audioBufferToWav_length _ _ L)|].
    unfold getUint32, getUint16, length. cbn [sampleRate channel0].
    rewrite load_riff, load_wave, load_fmt, load_fmt_size, load_format_tag, load_channels,
      load_rate, load_byte_rate, load_block_align, load_bits, load_data, load_data_size.
    rewrite !le_value_le_bytes by (apply ToUint32_range || apply ToUint16_range).
    rewrite ToUint32_double by assumption.
    change (Fin (inject_Z r)) with (of_Z r).
    fold N. rewrite !ToUint32_of_Z by lia.
    repeat split; reflexivity. }
  split; [exact G|].
  destruct (G 44100 (repeat (Fin 0) (Z.to_nat 44100)) []) as (wav & E & Hl & H); try lia.
  { rewrite repeat_length. lia. }
  exists wav. split; [exact E|]. rewrite repeat_length in Hl.
  split; [lia|]. tauto.
Qed.

Lemma wav_header_exact_witness :
  (0 <= 8000 /\ 8000 * 2 < 2 ^ 32 /\ Z.of_nat (List.length [Fin 0; Fin 1; NaN]) * 2 < 2 ^ 32)
  /\ exists wav,
       audioBufferToWav (mkBuffer 8000 [Fin 0; Fin 1; NaN] []) = Ok wav
       /\ Z.of_nat (List.length wav) = 50
       /\ getUint32 24 wav = 8000 /\ getUint32 40 wav = 6.
Proof.
  split; [simpl; lia|].
  destruct (proj1 wav_header_exact 8000 [Fin 0; Fin 1; NaN] []) as (wav & E & Hl & H);
    try (simpl; lia).
  exists wav. split; [exact E|]. split; [exact Hl|]. simpl in H. tauto.
Defined.

(** C10.  For a buffer of N frames with 32 + 2 * N below 2^32, the 32-bit
    little-endian field at offset 4 of the stream that [audioBufferToWav]
    returns is 32 + 2 * N: 4 less than the length of the stream minus 8,
    which is 36 + 2 * N. *)
Theorem riff_chunk_size_is_four_short (buffer : AudioBuffer) :
  let N := Z.of_nat (length buffer) in
  32 + 2 * N < 2 ^ 32 ->
  exists wav,
    audioBufferToWav buffer = Ok wav
    /\ getUint32 4 wav = 32 + 2 * N
    /\ Z.of_nat (List.length wav) = 44 + 2 * N
    /\ getUint32 4 wav = (Z.of_nat (List.length wav) - 8) - 4.
Proof.
  intros N H. subst N. pose proof (audioBufferToWav_layout buffer) as L.
  eexists. split; [exact L|].
  pose proof (audioBufferToWav_length _ _ L) as Hl.
  assert (F : getUint32 4 (wav_header (Z.of_nat (length buffer)) (Fin (sampleRate buffer))
                             ++ flat_map sample_bytes (channel0 buffer))
              = 32 + 2 * Z.of_nat (length buffer)).
  { unfold getUint32. rewrite load_riff_size.
    rewrite le_value_le_bytes by apply ToUint32_range.
    rewrite ToUint32_of_Z; lia. }
  split; [exact F|]. split; [exact Hl|]. rewrite F, Hl. lia.
Qed.

Lemma riff_chunk_size_is_four_short_witness :
  32 + 2 * Z.of_nat (length (mkBuffer 8000 [Fin 0; Fin 1; NaN] [])) < 2 ^ 32
  /\ exists wav,
       audioBufferToWav (mkBuffer 8000 [Fin 0; Fin 1; NaN] []) = Ok wav
       /\ getUint32 4 wav = 38
       /\ Z.of_nat (List.length wav) = 50.
Proof.
  split; [simpl; lia|].
  destruct (riff_chunk_size_is_four_short (mkBuffer 8000 [Fin 0; Fin 1; NaN] []))
    as (wav & E & F & Hl & _); [simpl; lia|].
  exists wav. split; [exact E|]. split; [exact F | exact Hl].
Defined.

(** ** Samples *)

Lemma Qltb_lt (a b : Q) : Qltb a b = true <-> (a < b)%Q.
Proof.
  unfold Qltb. rewrite negb_true_iff. split.
  - intros H. destruct (Qlt_le_dec a b) as [L|L]; [exact L|].
    apply Qle_bool_iff in L. congruence.
  - intros H. destruct (Qle_bool b a) eqn:E; [|reflexivity].
    apply Qle_bool_iff in E. lra.
Qed.

Lemma Qltb_ge (a b : Q) : Qltb a b = false <-> (b <= a)%Q.
Proof.
  unfold Qltb. rewrite negb_false_iff. apply Qle_bool_iff.
Qed.

Lemma clampSample_finite (q : Q) : clampSample (Fin q) = Fin (clampQ q).
Proof.
  unfold clampSample, clampQ, Math_min, Math_max, of_Z. cbn [num_lt].
  change (inject_Z 1) with 1%Q. change (inject_Z (-1)) with (-1)%Q.
  destruct (Qltb q 1); cbn [num_lt]; destruct (Qltb (-1) _); reflexivity.
Qed.

Lemma clampQ_spec (q : Q) :
  (-1 <= clampQ q)%Q /\ (clampQ q <= 1)%Q
  /\ ((-1 <= q)%Q -> (q <= 1)%Q -> (clampQ q == q)%Q)
  /\ ((q < -1)%Q -> clampQ q = (-1)%Q)
  /\ ((1 < q)%Q -> clampQ q = 1%Q).
Proof.
  unfold clampQ.
  destruct (Qltb q 1) eqn:E1.
  - apply Qltb_lt in E1. destruct (Qltb (-1) q) eqn:E2.
    + apply Qltb_lt in E2. repeat split; intros; try lra; try reflexivity.
    + apply Qltb_ge in E2. repeat split; intros; try lra; try reflexivity.
  - apply Qltb_ge in E1. change (Qltb (-1) 1) with true. cbv iota.
    repeat split; intros; try lra; try reflexivity.
Qed.

Lemma sample16_finite (q : Q) :
  let s := clampQ q in
  sample16 (Fin q) = Qtrunc (if Qltb s 0 then s * 32768 else s * 32767)%Q
  /\ -32768 <= sample16 (Fin q) <= 32767.
Proof.
  intros s. unfold sample16. rewrite clampSample_finite. fold s.
  destruct (clampQ_spec q) as (Lo & Hi & _). fold s in Lo, Hi.
  unfold scaleSample, of_Z. cbn [num_lt]. change (inject_Z 0) with 0%Q.
  assert (B : forall t : Q, (-32768 <= t)%Q -> (t <= 32767)%Q ->
                ToInt16 (fin t) = Qtrunc t /\ -32768 <= ToInt16 (fin t) <= 32767).
  { intros t T1 T2.
    assert (E : to_integer_wrapping (fin t) = Qtrunc t).
    { unfold fin, to_integer_wrapping. apply Qtrunc_comp, Qred_correct. }
    pose proof (Qtrunc_bounds t (-32768) 32767 ltac:(lia) T1 T2) as R.
    rewrite ToInt16_small; rewrite E; [split; [reflexivity | exact R] | lia]. }
  destruct (Qltb s 0) eqn:E.
  - apply Qltb_lt in E. unfold num_mul. change (inject_Z 32768) with 32768%Q.
    apply B; lra.
  - apply Qltb_ge in E. unfold num_mul. change (inject_Z 32767) with 32767%Q.
    apply B; lra.
Qed.

Lemma sample_bytes_length (x : number) : List.length (sample_bytes x) = 2%nat.
Proof. reflexivity. Qed.

Lemma load_sample (samples : list number) (i : nat) (x : number) :
  nth_error samples i = Some x ->
  load (2 * i) 2 (flat_map sample_bytes samples) = sample_bytes x.
Proof.
  revert i. induction samples as [|y samples IH]; intros i H.
  - destruct i; discriminate.
  - destruct i as [|i].
    + injection H as ->. reflexivity.
    + cbn [flat_map]. unfold load in *.
      replace (2 * S i)%nat with (2 * i + List.length (sample_bytes y))%nat
        by (rewrite sample_bytes_length; lia).
      rewrite <- skipn_skipn, skipn_app, skipn_all, Nat.sub_diag.
      cbn [skipn app]. now apply IH.
Qed.

Lemma getInt16_sample (n : Z) (rate : number) (samples : list number) (i : nat) (x : number) :
  nth_error samples i = Some x ->
  getInt16 (44 + 2 * i) (wav_header n rate ++ flat_map sample_bytes samples) = sample16 x.
Proof.
  intros H.
  assert (L : load (44 + 2 * i) 2 (wav_header n rate ++ flat_map sample_bytes samples)
              = sample_bytes x).
  { rewrite <- (load_sample _ _ _ H). unfold load.
    replace (44 + 2 * i)%nat with (2 * i + List.length (wav_header n rate))%nat
      by (rewrite wav_header_length; lia).
    rewrite <- skipn_skipn, skipn_app, skipn_all, Nat.sub_diag. reflexivity. }
  unfold getInt16, getUint16. rewrite L.
  unfold sample_bytes. apply int16_round_trip. apply ToInt16_range.
Qed.

(** C6.  The two bytes that [audioBufferToWav] writes at offset 44 + 2 * i
    are the 16-bit integer of sample i.  For a finite sample that integer
    is the sample clamped to the interval from -1 to 1, multiplied by 32768
    when the clamped value is negative and by 32767 otherwise, and
    truncated; it lies between -32768 and 32767, so the 16-bit wrap-around
    never applies.  -1 gives -32768 and 1 gives 32767, as the infinities
    do; NaN gives 0. *)
Theorem sample_conversion :
  (forall (buffer : AudioBuffer) (i : nat) (x : number),
     nth_error (channel0 buffer) i = Some x ->
     exists wav,
       audioBufferToWav buffer = Ok wav /\ getInt16 (44 + 2 * i) wav = sample16 x)
  /\ (forall q : Q,
        let s := clampQ q in
        clampSample (Fin q) = Fin s
        /\ (-1 <= s)%Q /\ (s <= 1)%Q
        /\ ((-1 <= q)%Q -> (q <= 1)%Q -> (s == q)%Q)
        /\ sample16 (Fin q) = Qtrunc (if Qltb s 0 then s * 32768 else s * 32767)%Q
        /\ -32768 <= sample16 (Fin q) <= 32767)
  /\ sample16 (Fin (-1)) = -32768 /\ sample16 (Fin 1) = 32767
  /\ sample16 NegInf = -32768 /\ sample16 PosInf = 32767 /\ sample16 NaN = 0.
Proof.
  split; [|split].
  - intros buffer i x H. eexists. split; [apply audioBufferToWav_layout|].
    now apply getInt16_sample.
  - intros q s. destruct (clampQ_spec q) as (Lo & Hi & Hid & _).
    destruct (sample16_finite q) as (E & R).
    repeat split; try assumption; try apply clampSample_finite; lia.
  - repeat split; vm_compute; reflexivity.
Qed.

Lemma sample_conversion_witness :
  nth_error (channel0 (mkBuffer 8000 [Fin 0.5; Fin (-2); NaN] [])) 1 = Some (Fin (-2))
  /\ exists wav,
       audioBufferToWav (mkBuffer 8000 [Fin 0.5; Fin (-2); NaN] []) = Ok wav
       /\ getInt16 (44 + 2 * 1) wav = -32768.
Proof.
  split; [reflexivity|].
  destruct (proj1 sample_conversion (mkBuffer 8000 [Fin 0.5; Fin (-2); NaN] []) 1%nat
              (Fin (-2)) eq_refl) as (wav & E & H).
  exists wav. split; [exact E | exact H].
Defined.

(** ** Slicing *)

Lemma well_sized_spec (b : AudioBuffer) :
  well_sized b = true ->
  (1 <= sampleRate b)%Q /\ (sampleRate b <= 1000000)%Q
  /\ 0 <= Z.of_nat (length b) < 2 ^ 32.
Proof.
  unfold well_sized. rewrite !andb_true_iff. intros ((H1 & H2) & H3).
  apply Qle_bool_iff in H1, H2. apply Z.ltb_lt in H3. repeat split; try assumption. lia.
Qed.

(** The duration times the rate is the length, up to the rounding of the
    quotient. *)
Lemma duration_frames (b : AudioBuffer) :
  well_sized b = true ->
  let n := inject_Z (Z.of_nat (length b)) in
  (0 <= duration b)%Q
  /\ (n - (1 # 1000000) <= duration b * sampleRate b)%Q
  /\ (duration b * sampleRate b <= n + (1 # 1000000))%Q.
Proof.
  intros W n. destruct (well_sized_spec b W) as (R1 & R2 & L).
  unfold duration. fold n.
  assert (N0 : (0 <= n)%Q /\ (n <= 4294967296)%Q).
  { unfold n. split.
    - change 0%Q with (inject_Z 0). rewrite <- Zle_Qle. lia.
    - change 4294967296%Q with (inject_Z 4294967296). rewrite <- Zle_Qle. lia. }
  set (r := sampleRate b) in *. set (y := (n / r)%Q).
  assert (Y0 : (0 <= y)%Q).
  { unfold y. apply Qle_shift_div_l; lra. }
  assert (YR : (y * r == n)%Q) by (unfold y; field; lra).
  destruct (round64_relative y Y0) as [D1 D2].
  pose proof (round64_nonneg y Y0) as D0.
  destruct tiny_bound as [T0 T1].
  set (d := round64 y) in *. set (t := pow2 (-1075)) in *.
  assert (M1 : ((y - y / 9007199254740992 - t) * r <= d * r)%Q)
    by (apply Qmult_le_compat_r; lra).
  assert (M2 : (d * r <= (y + y / 9007199254740992 + t) * r)%Q)
    by (apply Qmult_le_compat_r; lra).
  assert (E1 : ((y - y / 9007199254740992 - t) * r
                == n - n * (1 # 9007199254740992) - t * r)%Q).
  { rewrite <- YR. field. }
  assert (E2 : ((y + y / 9007199254740992 + t) * r
                == n + n * (1 # 9007199254740992) + t * r)%Q).
  { rewrite <- YR. field. }
  rewrite E1 in M1. rewrite E2 in M2.
  assert (TR : (0 <= t * r)%Q /\ (t * r <= 1 # 1000000000000)%Q).
  { split; [apply Qmult_le_0_compat; lra|].
    apply Qle_trans with ((1 # 10000000000000000000000000000000000000000) * 1000000)%Q.
    - apply Qle_trans with (t * 1000000)%Q.
      + rewrite !(Qmult_comm t). apply Qmult_le_compat_r; lra.
      + apply Qmult_le_compat_r; [exact T1 | discriminate].
    - apply Qle_bool_iff. reflexivity. }
  set (tr := (t * r)%Q) in *. clearbody tr d t y.
  split; [exact D0|]. split; lra.
Qed.

(** The end sample lies within the signal, and is the length or one less
    when the window reaches the end. *)
Lemma endSample_range (end_ : Q) (b : AudioBuffer) :
  (0 <= end_)%Q -> well_sized b = true ->
  0 <= Qfloor (round64 (Qmin end_ (duration b) * sampleRate b)) <= Z.of_nat (length b).
Proof.
  intros He W. destruct (well_sized_spec b W) as (R1 & R2 & L).
  destruct (duration_frames b W) as (D0 & D1 & D2).
  set (n := Z.of_nat (length b)) in *. set (r := sampleRate b) in *.
  assert (N1 : (inject_Z n <= 4294967295)%Q).
  { change 4294967295%Q with (inject_Z 4294967295). rewrite <- Zle_Qle. lia. }
  assert (M0 : (0 <= Qmin end_ (duration b))%Q) by (apply Q.min_glb; assumption).
  assert (X0 : (0 <= Qmin end_ (duration b) * r)%Q) by (apply Qmult_le_0_compat; lra).
  assert (X1 : (Qmin end_ (duration b) * r <= inject_Z n + (1 # 1000000))%Q).
  { apply Qle_trans with (duration b * r)%Q; [|exact D2].
    apply Qmult_le_compat_r; [apply Q.le_min_r | lra]. }
  assert (X2 : (Qmin end_ (duration b) * r <= 4294967296)%Q) by lra.
  destruct (round64_near _ _ X0 X2) as [_ F2].
  pose proof (round64_nonneg _ X0) as F0.
  destruct tiny_bound as [T0 T1].
  assert (K : (4294967296 / 9007199254740992 == 1 # 2097152)%Q) by reflexivity.
  rewrite K in F2.
  split.
  - change 0 with (Qfloor 0). now apply Qfloor_resp_le.
  - assert (Qfloor (round64 (Qmin end_ (duration b) * r)) < n + 1); [|lia].
    rewrite Zlt_Qlt, inject_Z_plus. change (inject_Z 1) with 1%Q.
    eapply Qle_lt_trans; [apply Qfloor_le|]. lra.
Qed.

Lemma endSample_whole (end_ : Q) (b : AudioBuffer) :
  well_sized b = true -> (duration b <= end_)%Q ->
  Z.of_nat (length b) - 1 <= Qfloor (round64 (Qmin end_ (duration b) * sampleRate b)).
Proof.
  intros W He. destruct (well_sized_spec b W) as (R1 & R2 & L).
  destruct (duration_frames b W) as (D0 & D1 & D2).
  set (n := Z.of_nat (length b)) in *. set (r := sampleRate b) in *.
  assert (N1 : (inject_Z n <= 4294967295)%Q).
  { change 4294967295%Q with (inject_Z 4294967295). rewrite <- Zle_Qle. lia. }
  assert (EM : (Qmin end_ (duration b) == duration b)%Q) by (apply Q.min_r; exact He).
  assert (X0 : (0 <= Qmin end_ (duration b) * r)%Q).
  { rewrite EM. apply Qmult_le_0_compat; lra. }
  assert (X2 : (Qmin end_ (duration b) * r <= 4294967296)%Q) by (rewrite EM; lra).
  destruct (round64_near _ _ X0 X2) as [F1 _].
  destruct tiny_bound as [T0 T1].
  assert (K : (4294967296 / 9007199254740992 == 1 # 2097152)%Q) by reflexivity.
  rewrite K in F1.
  assert (X3 : (inject_Z n - (1 # 1000000) <= Qmin end_ (duration b) * r)%Q)
    by (rewrite EM; exact D1).
  assert (n - 1 < Qfloor (round64 (Qmin end_ (duration b) * r)) + 1); [|lia].
  rewrite Zlt_Qlt. eapply Qlt_le_trans; [|apply Qlt_le_weak, Qlt_floor].
  unfold Z.sub. rewrite inject_Z_plus, inject_Z_opp. change (inject_Z 1) with 1%Q. lra.
Qed.

(** The window [start, end_) with both ends at or after 0: the frames from
    [floor (start * rate)] up to [floor (min end_ duration * rate)] of
    channel 0, none past the end of the source; the products are rounded. *)
Lemma sliceAudio_frames (start end_ : Q) (b : AudioBuffer) :
  (0 <= start)%Q -> (0 <= end_)%Q -> well_sized b = true ->
  let startSample := Qfloor (round64 (start * sampleRate b)) in
  let endSample := Qfloor (round64 (Qmin end_ (duration b) * sampleRate b)) in
  exists sliced,
    sliceAudio start end_ b = Ok sliced
    /\ Z.of_nat (length sliced) = Z.max 0 (endSample - startSample)
    /\ sampleRate sliced = sampleRate b
    /\ otherChannels sliced = []
    /\ 0 <= startSample /\ 0 <= endSample <= Z.of_nat (length b)
    /\ channel0 sliced
       = firstn (Z.to_nat (endSample - startSample))
           (skipn (Z.to_nat startSample) (channel0 b)).
Proof.
  intros Hs He W startSample endSample.
  destruct (well_sized_spec b W) as (R1 & _ & _).
  assert (S0 : 0 <= startSample).
  { unfold startSample. change 0 with (Qfloor 0). apply Qfloor_resp_le.
    apply round64_nonneg. apply Qmult_le_0_compat; lra. }
  pose proof (endSample_range end_ b He W) as E0. fold endSample in E0.
  unfold sliceAudio. fold startSample endSample.
  unfold length in E0.
  assert (Sub : subarray startSample endSample (channel0 b)
                = firstn (Z.to_nat (endSample - startSample))
                    (skipn (Z.to_nat startSample) (channel0 b))).
  { unfold subarray.
    destruct (Z.ltb_spec startSample 0) as [?|_]; [lia|].
    destruct (Z.ltb_spec endSample 0) as [?|_]; [lia|].
    rewrite (Z.min_l endSample) by lia.
    destruct (Z_le_gt_dec startSample (Z.of_nat (List.length (channel0 b)))) as [L|L].
    - rewrite (Z.min_l startSample) by lia. f_equal. lia.
    - rewrite (Z.min_r startSample) by lia.
      rewrite !skipn_all2 by lia. now rewrite !firstn_nil. }
  assert (Len : List.length (subarray startSample endSample (channel0 b))
                = Z.to_nat (Z.max 0 (endSample - startSample))).
  { rewrite Sub, length_firstn, length_skipn. lia. }
  unfold typed_set, createBuffer. cbn [channel0 otherChannels].
  rewrite repeat_length, Len, Nat.leb_refl.
  rewrite skipn_all2 by (rewrite repeat_length; lia). rewrite app_nil_r.
  eexists. split; [reflexivity|]. unfold length. cbn [channel0 sampleRate otherChannels].
  rewrite Len, Sub. repeat split; try lia.
Qed.

(** An empty or inverted window whose end is not negative gives no frames,
    where the host allocates a buffer of no frames. *)
Lemma sliceAudio_degenerate_window (start end_ : Q) (b : AudioBuffer) :
  (0 <= end_)%Q -> (end_ <= start)%Q -> well_sized b = true ->
  exists sliced, sliceAudio start end_ b = Ok sliced /\ length sliced = 0%nat.
Proof.
  intros He Hs W. destruct (well_sized_spec b W) as (R1 & _ & _).
  destruct (duration_frames b W) as (D0 & _).
  destruct (sliceAudio_frames start end_ b) as (sliced & E & L & _); try lra; [exact W|].
  exists sliced. split; [exact E|].
  assert (M : Qfloor (round64 (Qmin end_ (duration b) * sampleRate b))
              <= Qfloor (round64 (start * sampleRate b))).
  { apply Qfloor_resp_le, round64_mono.
    - apply Qmult_le_0_compat; [apply Q.min_glb; assumption | lra].
    - apply Qmult_le_compat_r; [|lra].
      eapply Qle_trans; [apply Q.le_min_l | exact Hs]. }
  lia.
Qed.

(** The window from 10 to 1000 seconds of 12 seconds at 44100 Hz ends with
    the signal: 2 * 44100 frames. *)
Lemma sliceAudio_clamps_end (data : list number) (others : list (list number)) :
  List.length data = Z.to_nat 529200 ->
  exists sliced,
    sliceAudio 10 1000 (mkBuffer 44100 data others) = Ok sliced
    /\ Z.of_nat (length sliced) = Qfloor (2 * 44100)
    /\ channel0 sliced = skipn (Z.to_nat 441000) data.
Proof.
  intros H.
  assert (P1 : (0 <= 10)%Q) by (unfold Qle; simpl; lia).
  assert (P2 : (0 <= 1000)%Q) by (unfold Qle; simpl; lia).
  assert (P3 : well_sized (mkBuffer 44100 data others) = true).
  { unfold well_sized, length. cbn [channel0 sampleRate]. rewrite H. reflexivity. }
  destruct (sliceAudio_frames 10 1000 (mkBuffer 44100 data others) P1 P2 P3)
    as (sliced & E & L & _ & _ & _ & _ & C).
  unfold duration, length in L, C. cbn [channel0 sampleRate] in L, C.
  rewrite H, Z2Nat.id in L, C by lia.
  assert (V1 : Qfloor (round64 (10 * 44100)) = 441000) by (vm_compute; reflexivity).
  assert (V2 : Qfloor (round64 (Qmin 1000 (round64 (inject_Z 529200 / 44100)) * 44100))
               = 529200) by (vm_compute; reflexivity).
  rewrite V1, V2 in L, C.
  exists sliced. split; [exact E|]. split; [exact L|].
  rewrite C. apply firstn_all2. rewrite length_skipn, H. lia.
Qed.

(** C4.  On a signal of 2 seconds at 8000 Hz, the inverted window from 0 to
    -1 makes the end sample -8000 and the frame count 0, but [subarray]
    counts a negative end from the end of the channel and yields 8000
    frames, which [set] cannot copy into the empty target: the slice is a
    RangeError, not an empty buffer. *)
Theorem sliceAudio_negative_end_throws :
  let signal := mkBuffer 8000 (repeat (Fin 0) (Z.to_nat 16000)) [] in
  (duration signal == 2)%Q
  /\ Qfloor (Qmin (-1) (duration signal) * sampleRate signal) = -8000
  /\ List.length (subarray 0 (-8000) (channel0 signal)) = Z.to_nat 8000
  /\ sliceAudio 0 (-1) signal = Throw RangeError.
Proof.
  intros signal. split; [vm_compute; reflexivity|].
  split; [vm_compute; reflexivity|].
  split; vm_compute; reflexivity.
Qed.

End AudioProps.

(** * Properties of the translation wrapper *)

Module TranslateProps.

Import Translate TranslateSpec.

(** ** Translation *)

(** C9, as stated, fails.  When the collaborator answers with an empty
    array, [translateSubtitles] returns the empty array for a collection of
    one caption: the id, the times and the speaker of that caption are not
    preserved. *)
Lemma translateSubtitles_trusts_the_response :
  translateSubtitles answers_empty_array no_data parse_empty_array [one_caption] false = Ok []
  /\ ~ preserves [one_caption] [].
Proof.
  split; [reflexivity|]. intros H. inversion H.
Qed.

(** C9, amended.  For every input collection and every response of the
    collaborator whose trimmed text is not empty and parses to an array
    that carries the id, the start time, the end time and the speaker of
    each input caption, in order, [translateSubtitles] returns that array
    unchanged, so the returned collection preserves those fields. *)
Theorem translateSubtitles_returns_the_response
    (generateContent : Request -> outcome (option str))
    (JSON_stringify : list Subtitle -> str) (JSON_parse : str -> outcome json)
    (subs : list Subtitle) (adultContext : bool) (response : str) (items : list json) :
  generateContent
    (mkRequest adultContext (lit "JSON DATA TO PROCESS: " ++ JSON_stringify subs))
  = Ok (Some response) ->
  trim response <> [] ->
  JSON_parse (trim response) = Ok (JArr items) ->
  preserves subs items ->
  exists out,
    translateSubtitles generateContent JSON_stringify JSON_parse subs adultContext = Ok out
    /\ out = items /\ preserves subs out.
Proof.
  intros G T P H. exists items. unfold translateSubtitles. rewrite G. cbn [bind option_map].
  destruct (trim response) as [|c t]; [contradiction|].
  rewrite P. cbn [bind]. auto.
Qed.

Lemma translateSubtitles_returns_the_response_witness :
  (answers_echo (mkRequest true (lit "JSON DATA TO PROCESS: " ++ no_data [one_caption]))
   = Ok (Some (echo_text ++ [LF]))
   /\ trim (echo_text ++ [LF]) <> []
   /\ parse_echo (trim (echo_text ++ [LF])) = Ok (JArr echo_translated)
   /\ preserves [one_caption] echo_translated)
  /\ exists out,
       translateSubtitles answers_echo no_data parse_echo [one_caption] true = Ok out
       /\ out = echo_translated /\ preserves [one_caption] out.
Proof.
  assert (P : preserves [one_caption] echo_translated).
  { constructor; [|constructor]. repeat split; reflexivity. }
  assert (T : trim (echo_text ++ [LF]) <> []) by (vm_compute; discriminate).
  split; [repeat split; (reflexivity || assumption)|].
  exact (translateSubtitles_returns_the_response answers_echo no_data parse_echo
           [one_caption] true (echo_text ++ [LF]) echo_translated eq_refl T eq_refl P).
Defined.

End TranslateProps.

(** * Further properties of the subtitle codec *)

Module CodecEdges.

Import Codec CodecSpec CodecTerms Binary64Props CodecProps.

(** ** White space around a file *)

Lemma dropWhile_app_all {A} (p : A -> bool) (a b : list A) :
  forallb p a = true -> dropWhile p (a ++ b) = dropWhile p b.
Proof.
  induction a as [|x a IH]; simpl; [reflexivity|].
  intros H. apply andb_prop in H as [Hx Ha]. rewrite Hx. now apply IH.
Qed.

Lemma trimEnd_app_ws (s ws : str) : forallb is_ws ws = true -> trimEnd (s ++ ws) = trimEnd s.
Proof.
  intros H. unfold trimEnd. rewrite rev_app_distr, dropWhile_app_all; [reflexivity|].
  rewrite forallb_forall in *. intros x Hx. apply H. now apply in_rev.
Qed.

Lemma trim_surrounded (a s b : str) :
  forallb is_ws a = true -> forallb is_ws b = true -> trim (a ++ s ++ b) = trim s.
Proof.
  intros Ha Hb. unfold trim, trimStart. rewrite (dropWhile_app_all _ _ _ Ha).
  destruct (dropWhile is_ws s) as [|x t] eqn:E.
  - rewrite dropWhile_app_all by (now apply dropWhile_nil).
    now rewrite (dropWhile_all _ _ Hb).
  - assert (S : s = takeWhile is_ws s ++ x :: t).
    { rewrite <- E. symmetry. apply takeWhile_dropWhile. }
    rewrite S at 1. rewrite <- app_assoc.
    rewrite dropWhile_app_all by apply takeWhile_forallb.
    pose proof (dropWhile_first _ _ _ _ E) as Hx.
    cbn [app dropWhile]. rewrite Hx.
    change (x :: t ++ b) with ((x :: t) ++ b). now apply trimEnd_app_ws.
Qed.

(** X1.  White space before and after the content of a file does not
    change what [parseSRT] makes of it: the same collection, the same
    status, the same failure. *)
Theorem parseSRT_ignores_surrounding_space
    (now : nat -> Z) (before content after_ : str) (st : AppState) :
  forallb is_ws before = true -> forallb is_ws after_ = true ->
  parseSRT now (before ++ content ++ after_) st = parseSRT now content st.
Proof.
  intros Ha Hb. unfold parseSRT, decode. now rewrite trim_surrounded.
Qed.

Lemma parseSRT_ignores_surrounding_space_witness :
  parseSRT (fun _ => 0) ((LF :: lit "  ") ++ two_blocks ++ [LF; LF]) (mkState [] import_failed)
  = parseSRT (fun _ => 0) two_blocks (mkState [] import_failed).
Proof.
  apply (parseSRT_ignores_surrounding_space (fun _ => 0) (LF :: lit "  ") two_blocks [LF; LF]);
    reflexivity.
Defined.

(** X2.  A file of white space only, the empty file included, is imported
    without an error: the collection becomes empty, whatever it was, and
    the status reports a successful import. *)
Theorem parseSRT_of_blank_file (now : nat -> Z) (content : str) (st : AppState) :
  forallb is_ws content = true ->
  parseSRT now content st = mkState [] import_ok.
Proof.
  intros H. unfold parseSRT, decode, trim, trimStart.
  rewrite (dropWhile_all _ _ H). reflexivity.
Qed.

Lemma parseSRT_of_blank_file_witness :
  parseSRT (fun _ => 0) (LF :: lit "  ") (mkState three_captions import_failed)
  = mkState [] import_ok.
Proof.
  apply (parseSRT_of_blank_file (fun _ => 0) (LF :: lit "  ")). reflexivity.
Defined.

(** ** The index line *)

(** X3.  The first line of a block is never read: two blocks that differ
    in that line only decode to the same caption, or fail alike.  The
    number of a caption is its position, not what the file says. *)
Theorem decodeBlock_ignores_index (now : nat -> Z) (i : nat) (index index' rest : str) :
  ~ In LF index -> ~ In LF index' ->
  decodeBlock now (index ++ [LF] ++ rest) i = decodeBlock now (index' ++ [LF] ++ rest) i.
Proof.
  intros H H'. unfold decodeBlock. rewrite !split_cons by assumption. reflexivity.
Qed.

Lemma decodeBlock_ignores_index_witness :
  decodeBlock (fun _ => 0)
    (lit "1" ++ [LF] ++ lit "00:00:01,000 --> 00:00:02,000" ++ [LF] ++ lit "Hello") 4
  = decodeBlock (fun _ => 0)
      (lit "one" ++ [LF] ++ lit "00:00:01,000 --> 00:00:02,000" ++ [LF] ++ lit "Hello") 4.
Proof.
  apply (decodeBlock_ignores_index (fun _ => 0) 4 (lit "1") (lit "one"));
    cbv; intros H; repeat (destruct H as [H|H]; [discriminate|]); exact H.
Defined.

(** ** Identifiers *)

Lemma Z_toString_inj (a b : Z) : Z_toString a = Z_toString b -> a = b.
Proof.
  unfold Z_toString, lit. intros H.
  apply (f_equal string_of_list_ascii) in H.
  rewrite !string_of_list_ascii_of_string in H.
  apply to_int_inj.
  assert (N : forall z, NilZero.int_of_string (NilZero.string_of_int (Z.to_int z))
                        = Some (Z.to_int z)).
  { intros z. apply NilZero.isi; destruct z; simpl; try discriminate;
      intros E; injection E as E; now apply Unsigned.to_uint_nonnil in E. }
  pose proof (N a) as Na. rewrite H, N in Na. now injection Na.
Qed.

(** Two strings cut at the first occurrence of [c] agree part by part. *)
Lemma first_occurrence (c : ascii) (a b x y : str) :
  ~ In c a -> ~ In c b -> a ++ c :: x = b ++ c :: y -> a = b /\ x = y.
Proof.
  revert b. induction a as [|u a IH]; intros [|v b] Ha Hb E; simpl in *.
  - injection E as ->. auto.
  - injection E as -> _. tauto.
  - injection E as -> _. tauto.
  - injection E as -> E. destruct (IH b) as [-> ->]; tauto.
Qed.

Lemma last_occurrence (c : ascii) (a b x y : str) :
  ~ In c x -> ~ In c y -> a ++ c :: x = b ++ c :: y -> a = b /\ x = y.
Proof.
  intros Hx Hy E. apply (f_equal (@rev ascii)) in E.
  rewrite !rev_app_distr in E. simpl in E. rewrite <- !app_assoc in E. simpl in E.
  destruct (first_occurrence c (rev x) (rev y) (rev a) (rev b)) as [E1 E2];
    try (rewrite <- in_rev; assumption); try exact E.
  split; apply rev_inj; assumption.
Qed.

(** An id that ends with a dash and the decimal index names its index. *)
Lemma indexed_id_inj (tag_ : str) (now : nat -> Z) (i j : nat) :
  tag_ ++ Z_toString (now i) ++ lit "-" ++ Z_toString (Z.of_nat i)
  = tag_ ++ Z_toString (now j) ++ lit "-" ++ Z_toString (Z.of_nat j) ->
  i = j.
Proof.
  intros E. apply app_inv_head in E.
  change (lit "-") with ["-"%char] in E. cbn [app] in E.
  apply last_occurrence in E;
    try (apply Z_toString_without; [lia | reflexivity]).
  destruct E as [_ E]. apply Z_toString_inj in E. lia.
Qed.

Lemma srt_id_inj (now : nat -> Z) (i j : nat) : srt_id now i = srt_id now j -> i = j.
Proof. apply indexed_id_inj. Qed.

Lemma decodeBlock_id (now : nat -> Z) (block : str) (i : nat) (c : Subtitle) :
  decodeBlock now block i = Ok (Some c) -> id c = srt_id now i.
Proof.
  unfold decodeBlock.
  destruct (List.length (split [LF] block) <? 3)%nat; [discriminate|].
  destruct (timeToSec (nth_error _ 0)) as [t0|]; cbn [bind]; [|discriminate].
  destruct (timeToSec (nth_error _ 1)) as [t1|]; cbn [bind]; [|discriminate].
  intros H. injection H as <-. reflexivity.
Qed.

(** The ids of the captions decoded from the blocks numbered from [i] are
    the ids of an increasing run of indices from [i] on. *)
Lemma decoded_ids (now : nat -> Z) (blocks : list str) (i : nat) (rs : list (option Subtitle)) :
  mapM_from (decodeBlock now) i blocks = Ok rs ->
  exists ks, map id (filter_non_null rs) = map (srt_id now) ks
    /\ Forall (fun k => (i <= k)%nat) ks /\ NoDup ks.
Proof.
  revert i rs. induction blocks as [|b blocks IH]; intros i rs H; simpl in H.
  - injection H as <-. exists []. repeat split; constructor.
  - destruct (decodeBlock now b i) as [r|] eqn:E; cbn [bind] in H; [|discriminate].
    destruct (mapM_from (decodeBlock now) (S i) blocks) as [rs'|] eqn:E'; cbn [bind] in H;
      [|discriminate].
    injection H as <-. destruct (IH (S i) rs' E') as (ks & Hk & Hge & Hnd).
    assert (Hge' : Forall (fun k => (i <= k)%nat) ks).
    { eapply Forall_impl; [|exact Hge]. simpl. intros; lia. }
    destruct r as [c|]; cbn [filter_non_null map].
    + exists (i :: ks). rewrite (decodeBlock_id _ _ _ _ E), Hk.
      repeat split; [constructor; [lia | exact Hge'] |].
      constructor; [|exact Hnd]. intros Hin.
      rewrite Forall_forall in Hge. apply Hge in Hin. lia.
    + exists ks. auto.
Qed.

(** X4.  After a successful import no two captions of the collection have
    the same id, whatever the clock reads: the id ends with the position of
    the block in the file. *)
Theorem parseSRT_ids_are_distinct (now : nat -> Z) (content : str) (st : AppState) :
  status (parseSRT now content st) = import_ok ->
  NoDup (map id (subtitles (parseSRT now content st))).
Proof.
  unfold parseSRT, decode, mapMi.
  destruct (mapM_from (decodeBlock now) 0 (split_blank_lines (trim content))) as [rs|e] eqn:E;
    cbn [bind status subtitles]; [intros _ | discriminate].
  destruct (decoded_ids now _ _ _ E) as (ks & -> & _ & Hnd).
  apply Injective_map_NoDup; [|exact Hnd].
  intros i j. apply srt_id_inj.
Qed.

Lemma parseSRT_ids_are_distinct_witness :
  NoDup (map id (subtitles (parseSRT (fun _ => 7) two_blocks (mkState [] import_failed)))).
Proof.
  apply (parseSRT_ids_are_distinct (fun _ => 7) two_blocks (mkState [] import_failed)).
  reflexivity.
Defined.

(** ** Time codes without a comma *)

Lemma num_add_NaN (x : number) : num_add x NaN = NaN.
Proof. destruct x; reflexivity. Qed.

Lemma timeToSec_without_comma (s : str) :
  ~ In ","%char s -> timeToSec (Some s) = Ok NaN.
Proof.
  intros H. unfold timeToSec.
  change (lit ",") with [","%char]. rewrite (split_last ","%char [] s H).
  cbn [hd nth_error String_of].
  change (parseInt (lit "undefined")) with NaN.
  cbn [num_div]. now rewrite num_add_NaN.
Qed.

(** X5.  A block of three lines whose time line is [a --> b], with [a] and
    [b] free of spaces, always decodes to a caption; a side of the arrow
    that has no comma, as in [00:00:01.500], is read as NaN without any
    error. *)
Theorem decodeBlock_reads_a_time_without_comma_as_NaN
    (now : nat -> Z) (i : nat) (idx a b line : str) :
  ~ In LF idx -> ~ In LF a -> ~ In LF b -> ~ In LF line ->
  ~ In " "%char a -> ~ In " "%char b ->
  exists c,
    decodeBlock now (idx ++ [LF] ++ (a ++ lit " --> " ++ b) ++ [LF] ++ line) i = Ok (Some c)
    /\ (~ In ","%char a -> startTime c = NaN)
    /\ (~ In ","%char b -> endTime c = NaN).
Proof.
  intros H1 Ha Hb H3 Sa Sb.
  assert (H2 : ~ In LF (a ++ lit " --> " ++ b)).
  { apply not_in_app; [exact Ha|]. apply not_in_app; [|exact Hb].
    cbv. intros H. repeat (destruct H as [H|H]; [discriminate|]). exact H. }
  pose proof (three_lines idx _ line H1 H2 H3) as L. unfold lines_of in L.
  unfold decodeBlock. rewrite L. cbn [List.length Nat.ltb Nat.leb nth].
  change (lit " --> ") with (" "%char :: lit "--> ").
  rewrite (split_cons " "%char (lit "--> ") a b Sa), (split_last " "%char (lit "--> ") b Sb).
  cbn [nth_error].
  destruct (timeToSec_defined a) as [t0 E0], (timeToSec_defined b) as [t1 E1].
  rewrite E0, E1. cbn [bind]. eexists. split; [reflexivity|].
  cbn [startTime endTime]. split; intros C.
  - rewrite (timeToSec_without_comma a C) in E0. congruence.
  - rewrite (timeToSec_without_comma b C) in E1. congruence.
Qed.

Lemma decodeBlock_reads_a_time_without_comma_as_NaN_witness :
  exists c,
    decodeBlock (fun _ => 0)
      (lit "1" ++ [LF] ++ (lit "00:00:01.500" ++ lit " --> " ++ lit "00:00:02")
       ++ [LF] ++ lit "Hello") 0 = Ok (Some c)
    /\ (~ In ","%char (lit "00:00:01.500") -> startTime c = NaN)
    /\ (~ In ","%char (lit "00:00:02") -> endTime c = NaN).
Proof.
  apply (decodeBlock_reads_a_time_without_comma_as_NaN (fun _ => 0) 0 (lit "1")
           (lit "00:00:01.500") (lit "00:00:02") (lit "Hello"));
    cbv; intros H; repeat (destruct H as [H|H]; [discriminate|]); exact H.
Defined.

(** ** The order of the export *)

Lemma after_spec (a b : Subtitle) (x y : Q) :
  startTime a = Fin x -> startTime b = Fin y -> (after a b = true <-> (y < x)%Q).
Proof.
  intros Ha Hb. unfold after. rewrite Ha, Hb. unfold num_sub, num_neg, num_add, fin, of_Z.
  cbn [num_lt]. unfold Qltb. rewrite negb_true_iff.
  change (inject_Z 0) with 0%Q. split.
  - intros H. destruct (Qlt_le_dec y x) as [L|L]; [exact L|].
    assert (Qred (x + Qred (- y)) <= 0)%Q by (rewrite !Qred_correct; lra).
    apply Qle_bool_iff in H0. congruence.
  - intros H. destruct (Qle_bool (Qred (x + Qred (- y))) 0) eqn:E; [|reflexivity].
    apply Qle_bool_iff in E. rewrite !Qred_correct in E. lra.
Qed.

Lemma finite_start_spec (c : Subtitle) : finite_start c = true -> exists x, startTime c = Fin x.
Proof. unfold finite_start. destruct (startTime c); try discriminate. eauto. Qed.

Lemma insert_sorted_In (a c : Subtitle) (l : list Subtitle) :
  In c (insert_sorted a l) -> c = a \/ In c l.
Proof.
  intros H. apply (Permutation_in _ (Permutation_sym (insert_sorted_perm a l))) in H.
  destruct H; auto.
Qed.

Lemma insert_sorted_sorted (a : Subtitle) (l : list Subtitle) :
  finite_start a = true -> forallb finite_start l = true ->
  StronglySorted starts_before l -> StronglySorted starts_before (insert_sorted a l).
Proof.
  intros Ha Hl Hs. destruct (finite_start_spec a Ha) as [x Ex].
  induction l as [|b l IH]; simpl.
  - repeat constructor.
  - simpl in Hl. apply andb_prop in Hl as [Hb Hl].
    destruct (finite_start_spec b Hb) as [y Ey].
    apply StronglySorted_inv in Hs as [Hs Hall].
    destruct (after a b) eqn:E.
    + apply (after_spec a b x y Ex Ey) in E.
      constructor; [now apply IH|].
      apply Forall_forall. intros c Hc. apply insert_sorted_In in Hc as [->|Hc].
      * unfold starts_before. rewrite Ex, Ey. lra.
      * rewrite Forall_forall in Hall. now apply Hall.
    + assert (L : (x <= y)%Q).
      { destruct (Qlt_le_dec y x) as [L|L]; [|exact L].
        apply (after_spec a b x y Ex Ey) in L. congruence. }
      constructor; [now constructor|].
      constructor; [unfold starts_before; now rewrite Ex, Ey|].
      eapply Forall_impl; [|exact Hall].
      intros c. unfold starts_before. rewrite Ex, Ey.
      destruct (startTime c); try tauto. lra.
Qed.

Lemma insert_sorted_finite (a : Subtitle) (l : list Subtitle) :
  finite_start a = true -> forallb finite_start l = true ->
  forallb finite_start (insert_sorted a l) = true.
Proof.
  intros Ha Hl. apply (forallb_perm _ (a :: l)); [apply insert_sorted_perm|].
  simpl. now rewrite Ha.
Qed.

Lemma insert_sorted_filter (k : Q) (a : Subtitle) (l : list Subtitle) :
  finite_start a = true -> forallb finite_start l = true ->
  filter (starts_at_time k) (insert_sorted a l) = filter (starts_at_time k) (a :: l).
Proof.
  intros Ha Hl. destruct (finite_start_spec a Ha) as [x Ex].
  induction l as [|b l IH]; [reflexivity|].
  simpl in Hl. apply andb_prop in Hl as [Hb Hl].
  destruct (finite_start_spec b Hb) as [y Ey].
  cbn [insert_sorted]. destruct (after a b) eqn:E; [|reflexivity].
  apply (after_spec a b x y Ex Ey) in E.
  assert (Sa : starts_at_time k a = Qeq_bool x k) by (unfold starts_at_time; now rewrite Ex).
  assert (Sb : starts_at_time k b = Qeq_bool y k) by (unfold starts_at_time; now rewrite Ey).
  cbn [filter]. rewrite (IH Hl). cbn [filter]. rewrite Sa, Sb.
  destruct (Qeq_bool y k) eqn:Ky; [|reflexivity].
  destruct (Qeq_bool x k) eqn:Kx; [|reflexivity].
  apply Qeq_bool_iff in Ky, Kx. lra.
Qed.

Lemma sort_by_start_invariants (l : list Subtitle) :
  forallb finite_start l = true ->
  forallb finite_start (sort_by_start l) = true
  /\ StronglySorted starts_before (sort_by_start l)
  /\ forall k : Q, filter (starts_at_time k) (sort_by_start l) = filter (starts_at_time k) l.
Proof.
  intros H. induction l as [|a l IH]; [repeat split; constructor|].
  simpl in H. apply andb_prop in H as [Ha Hl].
  destruct (IH Hl) as (F & S & K). cbn [sort_by_start fold_right].
  fold (sort_by_start l). repeat split.
  - now apply insert_sorted_finite.
  - now apply insert_sorted_sorted.
  - intros k. rewrite insert_sorted_filter by assumption.
    cbn [filter]. now rewrite K.
Qed.

(** X6.  On captions with finite start times the sort of the export, which
    is also the sort of the append mode, puts every caption at or before
    all that follow it, and keeps the captions that start at the same time
    in the order they had. *)
Theorem sort_by_start_is_a_stable_sort (l : list Subtitle) :
  forallb finite_start l = true ->
  StronglySorted starts_before (sort_by_start l)
  /\ forall k : Q, filter (starts_at_time k) (sort_by_start l) = filter (starts_at_time k) l.
Proof.
  intros H. destruct (sort_by_start_invariants l H) as (_ & S & K). split; assumption.
Qed.

Lemma sort_by_start_is_a_stable_sort_witness :
  StronglySorted starts_before (sort_by_start three_captions)
  /\ forall k : Q,
      filter (starts_at_time k) (sort_by_start three_captions)
      = filter (starts_at_time k) three_captions.
Proof.
  apply (sort_by_start_is_a_stable_sort three_captions). reflexivity.
Defined.

Lemma sorted_perm_unique (l1 l2 : list Subtitle) :
  StronglySorted starts_before l1 -> StronglySorted starts_before l2 ->
  Permutation l1 l2 -> distinct_starts l1 -> l1 = l2.
Proof.
  revert l2. induction l1 as [|a l1 IH]; intros l2 S1 S2 P D.
  - apply Permutation_nil in P. now subst.
  - destruct l2 as [|b l2]; [apply Permutation_sym, Permutation_nil in P; discriminate|].
    apply StronglySorted_inv in S1 as [S1 A1]. apply StronglySorted_inv in S2 as [S2 A2].
    rewrite Forall_forall in A1, A2.
    assert (E : a = b).
    { assert (Ia : In a (b :: l2)) by (apply (Permutation_in _ P); now left).
      assert (Ib : In b (a :: l1))
        by (apply (Permutation_in _ (Permutation_sym P)); now left).
      destruct Ia as [->|Ia]; [reflexivity|]. destruct Ib as [->|Ib]; [reflexivity|].
      apply D; [now left | now right | now apply A1 | now apply A2]. }
    subst b. f_equal. apply IH; try assumption.
    + now apply Permutation_cons_inv in P.
    + intros x y Hx Hy. apply D; now right.
Qed.

(** X7.  The export does not depend on the order of the collection when
    the start times are finite and no two different captions start at the
    same time: two collections with the same captions give the same file,
    or the same failure. *)
Theorem convertToSRT_ignores_the_order_of_distinct_starts (x y : list Subtitle) :
  Permutation x y -> forallb finite_start x = true -> distinct_starts x ->
  convertToSRT x = convertToSRT y.
Proof.
  intros P F D.
  pose proof (forallb_perm _ _ _ P F) as F'.
  destruct (sort_by_start_invariants x F) as (_ & Sx & _).
  destruct (sort_by_start_invariants y F') as (_ & Sy & _).
  unfold convertToSRT. f_equal.
  rewrite (sorted_perm_unique _ _ Sx Sy); [reflexivity | |].
  - rewrite <- (sort_by_start_perm x), <- (sort_by_start_perm y). exact P.
  - intros a b Ha Hb.
    apply D; apply (Permutation_in _ (Permutation_sym (sort_by_start_perm x))); assumption.
Qed.

Lemma convertToSRT_ignores_the_order_of_distinct_starts_witness :
  convertToSRT [mkSubtitle (lit "a") (Fin 5) (Fin 6) (lit "late") None;
                mkSubtitle (lit "b") (Fin 1) (Fin 2) (lit "first") None]
  = convertToSRT [mkSubtitle (lit "b") (Fin 1) (Fin 2) (lit "first") None;
                  mkSubtitle (lit "a") (Fin 5) (Fin 6) (lit "late") None].
Proof.
  apply convertToSRT_ignores_the_order_of_distinct_starts;
    [apply perm_swap | reflexivity |].
  intros a b Ha Hb. simpl in Ha, Hb.
  destruct Ha as [<-|[<-|[]]]; destruct Hb as [<-|[<-|[]]];
    try reflexivity; intros H1 H2; exfalso; cbv in H1, H2; auto.
Defined.

(** ** When the export fails *)

Lemma Date_setSeconds_from_epoch (x : number) :
  Date_setSeconds (Some 0) x
  = match x with
    | Fin q => if formattable x then Some (Qtrunc q * 1000) else None
    | _ => None
    end.
Proof.
  destruct x as [| | |q]; try reflexivity.
  unfold Date_setSeconds, formattable.
  change (0 / msPerDay) with 0. change (0 mod msPerDay) with 0.
  change (0 / 3600000) with 0. change (0 / 60000) with 0.
  change (0 mod 60) with 0. change (0 mod 1000) with 0. cbv zeta.
  replace (0 * msPerDay + (0 * 3600000 + 0 * 60000 + Qtrunc q * 1000 + 0))
    with (Qtrunc q * 1000) by lia.
  reflexivity.
Qed.

Lemma Date_toISOString_valid (t : Z) : exists s, Date_toISOString (Some t) = Ok s.
Proof.
  unfold Date_toISOString. destruct (civil_from_days (t / msPerDay)) as [[y mo] d].
  eexists. reflexivity.
Qed.

Lemma formatTime_outcome (x : number) :
  if formattable x then exists s, formatTime x = Ok s
  else formatTime x = Throw RangeError.
Proof.
  unfold formatTime. rewrite Date_setSeconds_from_epoch.
  destruct x as [| | |q]; try reflexivity.
  destruct (formattable (Fin q)); [|reflexivity].
  destruct (Date_toISOString_valid (Qtrunc q * 1000)) as [s ->].
  cbn [bind]. eexists. reflexivity.
Qed.

Lemma encodeBlock_outcome (c : Subtitle) (i : nat) :
  if exportable c then exists s, encodeBlock c i = Ok s
  else encodeBlock c i = Throw RangeError.
Proof.
  unfold exportable, encodeBlock.
  pose proof (formatTime_outcome (startTime c)) as Hs.
  pose proof (formatTime_outcome (endTime c)) as He.
  destruct (formattable (startTime c)).
  - destruct Hs as [a ->]. cbn [bind andb].
    destruct (formattable (endTime c)).
    + destruct He as [b ->]. cbn [bind]. eexists. reflexivity.
    + now rewrite He.
  - now rewrite Hs.
Qed.

Lemma encode_all_outcome (l : list Subtitle) (i : nat) :
  if forallb exportable l then exists blocks, mapM_from encodeBlock i l = Ok blocks
  else mapM_from encodeBlock i l = Throw RangeError.
Proof.
  revert i. induction l as [|c l IH]; intros i; cbn [forallb mapM_from].
  - eexists. reflexivity.
  - pose proof (encodeBlock_outcome c i) as Hc. specialize (IH (S i)).
    destruct (exportable c); cbn [andb].
    + destruct Hc as [s ->]. cbn [bind].
      destruct (forallb exportable l).
      * destruct IH as [bs ->]. cbn [bind]. eexists. reflexivity.
      * now rewrite IH.
    + now rewrite Hc.
Qed.

Lemma forallb_perm_eq {A} (p : A -> bool) (l l' : list A) :
  Permutation l l' -> forallb p l = forallb p l'.
Proof.
  intros P. destruct (forallb p l) eqn:E.
  - symmetry. now apply (forallb_perm p l l').
  - destruct (forallb p l') eqn:E'; [|reflexivity].
    apply (forallb_perm p l' l) in E'; [congruence | now apply Permutation_sym].
Qed.

(** X8.  [convertToSRT] returns a file exactly when every start and end
    time of the collection is finite and, truncated to whole seconds, within
    the range of dates (8.64e15 milliseconds either side of the epoch); with
    one time that is NaN, infinite or out of that range it throws a
    RangeError, and no file is produced. *)
Theorem convertToSRT_fails_on_unprintable_times (subs : list Subtitle) :
  if forallb exportable subs then exists srt, convertToSRT subs = Ok srt
  else convertToSRT subs = Throw RangeError.
Proof.
  unfold convertToSRT, mapMi.
  rewrite (forallb_perm_eq exportable subs _ (sort_by_start_perm subs)).
  pose proof (encode_all_outcome (sort_by_start subs) 0) as H.
  destruct (forallb exportable (sort_by_start subs)).
  - destruct H as [bs ->]. cbn [bind]. eexists. reflexivity.
  - now rewrite H.
Qed.

(** ** Exporting what was imported *)

(** X10.  An export of what was imported is not always the file that was
    imported.  The time code 00:00:01,001 is read as the binary64 number
    nearest to 1.001, which lies below it, and 1000 times its fraction
    rounds to a number below 1: the export prints 00:00:01,000. *)
Theorem export_of_an_import_moves_a_time (now : nat -> Z) (st : AppState) :
  let file := lit "1" ++ [LF] ++ lit "00:00:01,001 --> 00:00:02,000" ++ [LF]
              ++ lit "Hello" ++ [LF] in
  exists t,
    map (fun c => (startTime c, endTime c, speaker c, text c))
      (subtitles (Codec64.parseSRT now file st))
    = [(Fin t, Fin 2, None, lit "Hello")]
    /\ (t < 1.001)%Q
    /\ Codec64.convertToSRT (subtitles (Codec64.parseSRT now file st))
       = Ok (lit "1" ++ [LF] ++ lit "00:00:01,000 --> 00:00:02,000" ++ [LF]
             ++ lit "Hello" ++ [LF]).
Proof.
  intros file. eexists. split; [vm_compute; reflexivity|].
  split; [apply Qlt_alt; vm_compute; reflexivity|].
  vm_compute. reflexivity.
Qed.

(** ** Lines that end with a carriage return *)

Lemma three_digits_CR_all : forallb three_digits_CR (seq 0 1000) = true.
Proof. vm_compute. reflexivity. Qed.

Lemma parseInt_pad3_CR (z : Z) : 0 <= z < 1000 -> parseInt (pad 3 z ++ [CR]) = of_Z z.
Proof.
  intros Hz. pose proof (checked_below three_digits_CR 1000 three_digits_CR_all z Hz) as H.
  unfold three_digits_CR in H. rewrite Z2Nat.id in H by lia. now apply number_eqb_eq.
Qed.

Lemma timeToSec_timecode_CR (h m s ms : Z) :
  0 <= h < 100 -> 0 <= m < 100 -> 0 <= s < 100 -> 0 <= ms < 1000 ->
  timeToSec (Some (timecode h m s ms ++ [CR]))
  = Ok (fin (inject_Z (h * 3600 + m * 60 + s) + inject_Z ms / 1000)).
Proof.
  intros Hh Hm Hs Hms. unfold timeToSec, timecode.
  change (lit ",") with [","%char]. change (lit ":") with [":"%char].
  replace ((pad 2 h ++ [":"%char] ++ pad 2 m ++ [":"%char] ++ pad 2 s ++ [","%char]
            ++ pad 3 ms) ++ [CR])
    with ((pad 2 h ++ [":"%char] ++ pad 2 m ++ [":"%char] ++ pad 2 s) ++ [","%char]
          ++ (pad 3 ms ++ [CR]))
    by (now rewrite <- !app_assoc).
  assert (C : ~ In ","%char (pad 3 ms ++ [CR])).
  { apply not_in_app; [now apply pad3_without | apply not_in_one; discriminate]. }
  rewrite split_cons by field_free.
  rewrite (split_last ","%char [] (pad 3 ms ++ [CR]) C).
  cbn [hd nth_error String_of].
  rewrite !split_cons by field_free.
  rewrite split_last by field_free.
  cbn [map nth_error ToNumber].
  destruct (pad2_spec h Hh) as (_ & _ & ->), (pad2_spec m Hm) as (_ & _ & ->),
    (pad2_spec s Hs) as (_ & _ & ->).
  rewrite (parseInt_pad3_CR ms Hms).
  f_equal. unfold of_Z, num_mul, num_add, num_div.
  change (Qeq_bool (inject_Z 1000) 0) with false. cbv iota.
  apply fin_eq. unfold fin. rewrite !Qred_correct.
  rewrite !inject_Z_plus, !inject_Z_mult. reflexivity.
Qed.

Lemma timeToSec_of_day_CR (q : Q) :
  (0 <= q)%Q -> (q < 86400)%Q ->
  timeToSec (@Some str (timecode_of q ++ [CR])) = timeToSec (Some (timecode_of q)).
Proof.
  intros H0 H1. unfold timecode_of.
  destruct (timecode_of_fields q H0 H1) as (Rh & Rm & Rs & Rms).
  cbv zeta. rewrite timeToSec_timecode_CR, timeToSec_timecode by assumption. reflexivity.
Qed.

Lemma LF_not_in_arrow : ~ In LF (lit " --> ").
Proof. cbv. intros H. repeat (destruct H as [H|H]; [discriminate|]). exact H. Qed.

Section CrlfBlock.

Variables (c : Subtitle) (i : nat) (tail : str).
Hypothesis ok : crlf_ok c = true.
Hypothesis tail_ws : tail = [] \/ tail = [CR].

Lemma crlf_times :
  exists a b, startTime c = Fin a /\ endTime c = Fin b
    /\ (0 <= a)%Q /\ (a < 86400)%Q /\ (0 <= b)%Q /\ (b < 86400)%Q.
Proof.
  unfold crlf_ok in ok. rewrite !andb_true_iff in ok.
  destruct ok as ((((Ha & Hb) & _) & _) & _).
  destruct (time_of_day_spec _ Ha) as (a & Ea & A0 & A1).
  destruct (time_of_day_spec _ Hb) as (b & Eb & B0 & B1).
  exists a, b. auto 7.
Qed.

Lemma crlf_text :
  ~ In LF (text c ++ tail) /\ ~ In ":"%char (text c ++ tail)
  /\ exists x t, text c = x :: t /\ is_ws x = false.
Proof.
  unfold crlf_ok in ok. rewrite !andb_true_iff in ok.
  destruct ok as ((((_ & _) & Hp) & Hv) & Hc).
  apply plain_line_spec in Hp. destruct (visible_ends_spec _ Hv) as [Hx _].
  assert (Hcol : ~ In ":"%char (text c)).
  { intros Hin. rewrite forallb_forall in Hc. apply Hc in Hin. discriminate Hin. }
  repeat split; try exact Hx;
    (apply not_in_app; [assumption|]; destruct tail_ws as [-> | ->];
     [intros [] | apply not_in_one; discriminate]).
Qed.

(** The piece as three lines. *)
Lemma crlf_piece_shape :
  crlf_body c i ++ tail
  = (Z_toString (Z.of_nat i + 1) ++ [CR]) ++ [LF]
    ++ (timecode_of_number (startTime c) ++ lit " --> "
        ++ timecode_of_number (endTime c) ++ [CR])
    ++ [LF] ++ (text c ++ tail).
Proof. unfold crlf_body. rewrite <- !app_assoc. reflexivity. Qed.

Lemma crlf_time_line_plain (a b : Q) :
  (0 <= a)%Q -> (a < 86400)%Q -> (0 <= b)%Q -> (b < 86400)%Q ->
  ~ In LF (timecode_of a ++ lit " --> " ++ timecode_of b ++ [CR]).
Proof.
  intros A0 A1 B0 B1.
  apply not_in_app; [apply timecode_of_without; (assumption || reflexivity || discriminate)|].
  apply not_in_app; [apply LF_not_in_arrow|].
  apply not_in_app; [apply timecode_of_without; (assumption || reflexivity || discriminate)|].
  apply not_in_one. discriminate.
Qed.

Lemma decodeBlock_crlf_piece (now : nat -> Z) (j : nat) :
  decodeBlock now (crlf_body c i ++ tail) j = Ok (Some (imported now c j tail)).
Proof.
  destruct crlf_times as (a & b & Ea & Eb & A0 & A1 & B0 & B1).
  destruct crlf_text as (Hlf & Hcol & _).
  rewrite crlf_piece_shape, Ea, Eb. cbn [timecode_of_number].
  assert (L : lines_of ((Z_toString (Z.of_nat i + 1) ++ [CR]) ++ [LF]
                        ++ (timecode_of a ++ lit " --> " ++ timecode_of b ++ [CR])
                        ++ [LF] ++ (text c ++ tail))
              = [Z_toString (Z.of_nat i + 1) ++ [CR];
                 timecode_of a ++ lit " --> " ++ timecode_of b ++ [CR];
                 text c ++ tail]).
  { apply three_lines; [| now apply crlf_time_line_plain | exact Hlf].
    apply not_in_app; [apply Z_toString_without; [lia | reflexivity]|].
    apply not_in_one. discriminate. }
  unfold lines_of in L. unfold decodeBlock. rewrite L.
  cbn [List.length Nat.ltb Nat.leb nth skipn join].
  change (lit " --> ") with (" "%char :: lit "--> ").
  rewrite (split_cons " "%char (lit "--> ") (timecode_of a) (timecode_of b ++ [CR]))
    by (apply timecode_of_without; (assumption || reflexivity || discriminate)).
  rewrite (split_last " "%char (lit "--> ") (timecode_of b ++ [CR]))
    by (apply not_in_app; [apply timecode_of_without;
                           (assumption || reflexivity || discriminate)
                          | apply not_in_one; discriminate]).
  cbn [nth_error].
  rewrite (timeToSec_of_day a A0 A1). cbn [bind].
  rewrite (timeToSec_of_day_CR b B0 B1), (timeToSec_of_day b B0 B1). cbn [bind].
  assert (M : match_speaker (text c ++ tail) = None).
  { apply match_speaker_none. intros name rest (_ & _ & E).
    apply Hcol. rewrite E. apply in_elt. }
  rewrite M. unfold imported. rewrite Ea, Eb. reflexivity.
Qed.

Lemma crlf_piece_head : exists d s, crlf_body c i ++ tail = d :: s /\ is_ws d = false.
Proof.
  destruct (Z_toString_head (Z.of_nat i + 1)) as (d & s & E & Hd); [lia|].
  unfold crlf_body. rewrite E. exists d. eexists. split; [reflexivity | exact Hd].
Qed.

(** No blank line starts inside the piece, whatever follows it. *)
Lemma crlf_piece_no_blank (rest : str) :
  no_match match_blank_line (crlf_body c i ++ tail) rest.
Proof.
  destruct crlf_times as (a & b & Ea & Eb & A0 & A1 & B0 & B1).
  destruct (timecode_of_head a A0 A1) as (d & s & Ed & Hd).
  destruct crlf_text as (Hlf & _ & (x & t & Et & Hx)).
  rewrite crlf_piece_shape, Ea, Eb. cbn [timecode_of_number].
  apply no_match_app.
  { apply (no_match_without _ LF); [apply match_blank_line_starts_at|].
    apply not_in_app; [apply Z_toString_without; [lia | reflexivity]|].
    apply not_in_one. discriminate. }
  apply no_match_app.
  { simpl. split; [|exact I]. rewrite Ed. simpl.
    apply (match_blank_line_before_text [] d); auto. }
  apply no_match_app.
  { apply (no_match_without _ LF); [apply match_blank_line_starts_at|].
    now apply crlf_time_line_plain. }
  apply no_match_app.
  { simpl. split; [|exact I]. rewrite Et. simpl.
    apply (match_blank_line_before_text [] x); auto. }
  apply (no_match_without _ LF); [apply match_blank_line_starts_at | exact Hlf].
Qed.

Lemma crlf_piece_good : good_block (crlf_body c i ++ tail).
Proof. split; [exact crlf_piece_no_blank | exact crlf_piece_head]. Qed.

End CrlfBlock.

(** ** A file with CRLF line ends *)

Lemma crlf_pieces_good (l : list Subtitle) (i : nat) :
  forallb crlf_ok l = true -> Forall good_block (crlf_pieces_from i l).
Proof.
  revert i. induction l as [|c l IH]; intros i H; [constructor|].
  cbn [forallb] in H. apply andb_prop in H as [Hc Hl].
  destruct l as [|c' l].
  - constructor; [|constructor]. rewrite <- (app_nil_r (crlf_body c i)).
    apply crlf_piece_good; auto.
  - change (crlf_pieces_from i (c :: c' :: l))
      with ((crlf_body c i ++ [CR]) :: crlf_pieces_from (S i) (c' :: l)).
    constructor; [apply crlf_piece_good; auto | now apply IH].
Qed.

Lemma join_cons (sep a : str) (l : list str) :
  l <> [] -> join sep (a :: l) = a ++ sep ++ join sep l.
Proof. destruct l; [contradiction | reflexivity]. Qed.

Lemma crlf_pieces_nonempty (i : nat) (c : Subtitle) (l : list Subtitle) :
  crlf_pieces_from i (c :: l) <> [].
Proof. destruct l; discriminate. Qed.

Lemma crlf_file_pieces (l : list Subtitle) (i : nat) :
  join [CR; LF; CR; LF] (crlf_bodies_from i l) = join [LF; CR; LF] (crlf_pieces_from i l).
Proof.
  revert i. induction l as [|c l IH]; intros i; [reflexivity|].
  destruct l as [|c' l]; [reflexivity|].
  change (crlf_bodies_from i (c :: c' :: l))
    with (crlf_body c i :: crlf_bodies_from (S i) (c' :: l)).
  change (crlf_pieces_from i (c :: c' :: l))
    with ((crlf_body c i ++ [CR]) :: crlf_pieces_from (S i) (c' :: l)).
  rewrite !join_cons by (apply crlf_pieces_nonempty || discriminate).
  rewrite IH, <- app_assoc. reflexivity.
Qed.

(** A line feed, a carriage return and a line feed before a visible code
    unit are a blank line. *)
Lemma match_blank_line_CRLF (x : ascii) (rest : str) :
  is_ws x = false ->
  match_blank_line (LF :: CR :: LF :: x :: rest) = Some 3%nat.
Proof.
  intros Hx. unfold match_blank_line. rewrite Ascii.eqb_refl.
  change (CR :: LF :: x :: rest) with ([CR; LF] ++ x :: rest).
  rewrite (takeWhile_stop is_ws) by (assumption || reflexivity).
  reflexivity.
Qed.

Lemma split_blank_joined_CRLF (b : str) (bs : list str) :
  Forall good_block (b :: bs) -> split_blank_lines (join [LF; CR; LF] (b :: bs)) = b :: bs.
Proof.
  revert b. induction bs as [|b' bs IH]; intros b H.
  - simpl. apply Forall_inv in H as [H _]. apply split_go_end, H.
  - change (join [LF; CR; LF] (b :: b' :: bs))
      with (b ++ [LF; CR; LF] ++ join [LF; CR; LF] (b' :: bs)).
    pose proof (Forall_inv H) as [Hb _]. pose proof (Forall_inv_tail H) as Ht.
    pose proof (Forall_inv Ht) as [_ (d & s & E & Hd)].
    unfold split_blank_lines. rewrite split_go_step.
    + f_equal. now apply IH.
    + apply Hb.
    + discriminate.
    + destruct (join_head [LF; CR; LF] b' bs d s E) as [r ->].
      now apply match_blank_line_CRLF.
Qed.

Lemma decode_crlf_pieces (now : nat -> Z) (l : list Subtitle) (i j : nat) :
  forallb crlf_ok l = true ->
  mapM_from (decodeBlock now) j (crlf_pieces_from i l)
  = Ok (map Some (imported_from now j l)).
Proof.
  revert i j. induction l as [|c l IH]; intros i j H; [reflexivity|].
  cbn [forallb] in H. apply andb_prop in H as [Hc Hl].
  destruct l as [|c' l].
  - cbn [crlf_pieces_from imported_from mapM_from map].
    rewrite <- (app_nil_r (crlf_body c i)).
    rewrite (decodeBlock_crlf_piece c i [] Hc (or_introl eq_refl)). reflexivity.
  - change (crlf_pieces_from i (c :: c' :: l))
      with ((crlf_body c i ++ [CR]) :: crlf_pieces_from (S i) (c' :: l)).
    change (imported_from now j (c :: c' :: l))
      with (imported now c j [CR] :: imported_from now (S j) (c' :: l)).
    cbn [mapM_from map].
    rewrite (decodeBlock_crlf_piece c i [CR] Hc (or_intror eq_refl)).
    rewrite (IH (S i) (S j) Hl). reflexivity.
Qed.

Lemma trim_visible (s : str) :
  (exists d t, s = d :: t /\ is_ws d = false) ->
  (exists t y, s = t ++ [y] /\ is_ws y = false) ->
  trim s = s.
Proof.
  intros (d & t & E1 & Hd) (t' & y & E2 & Hy). unfold trim, trimStart, trimEnd.
  assert (S1 : dropWhile is_ws s = s).
  { rewrite E1. simpl. now rewrite Hd. }
  rewrite S1. rewrite E2 at 1. rewrite rev_app_distr. simpl. rewrite Hy.
  change (y :: rev t') with (rev [y] ++ rev t'). rewrite <- rev_app_distr, rev_involutive.
  now symmetry.
Qed.

Lemma crlf_file_ends_visible (l : list Subtitle) (i : nat) :
  l <> [] -> forallb crlf_ok l = true ->
  ends_visible (join [CR; LF; CR; LF] (crlf_bodies_from i l)).
Proof.
  revert i. induction l as [|c l IH]; intros i N H; [contradiction|].
  cbn [forallb] in H. apply andb_prop in H as [Hc Hl].
  destruct l as [|c' l].
  - unfold crlf_ok in Hc. rewrite !andb_true_iff in Hc.
    destruct Hc as ((((_ & _) & _) & Hv) & _).
    destruct (visible_ends_spec _ Hv) as [_ (t & y & E & Hy)].
    cbn [crlf_bodies_from join]. unfold crlf_body. rewrite E.
    eexists _, y. split; [|exact Hy]. rewrite !app_assoc. reflexivity.
  - destruct (IH (S i) ltac:(discriminate) Hl) as (t & y & E & Hy).
    change (join [CR; LF; CR; LF] (crlf_bodies_from i (c :: c' :: l)))
      with (crlf_body c i ++ [CR; LF; CR; LF]
            ++ join [CR; LF; CR; LF] (crlf_bodies_from (S i) (c' :: l))).
    rewrite E. eexists _, y. split; [|exact Hy]. rewrite !app_assoc. reflexivity.
Qed.



End CodecEdges.

(** * Further properties of the audio range extractor *)

Module AudioEdges.

Import Audio AudioSpec AudioTerms Binary64Props AudioProps.

(** ** The bytes of the stream *)

Lemma le_bytes_are_bytes (n : nat) (v : Z) : Forall is_byte (le_bytes n v).
Proof.
  revert v. induction n as [|n IH]; intros v; cbn [le_bytes]; constructor.
  - unfold is_byte. apply Z.mod_pos_bound. lia.
  - apply IH.
Qed.

Lemma tag_is_bytes (s : string) : Forall is_byte (tag s).
Proof.
  unfold tag. apply Forall_map, Forall_forall. intros c _.
  unfold is_byte, ToUint8. apply Z.mod_pos_bound. lia.
Qed.

Lemma wav_header_is_bytes (n : Z) (rate : number) : Forall is_byte (wav_header n rate).
Proof.
  unfold wav_header.
  repeat (apply Forall_app; split);
    first [apply tag_is_bytes | apply le_bytes_are_bytes].
Qed.

Lemma samples_are_bytes (samples : list number) :
  Forall is_byte (flat_map sample_bytes samples).
Proof.
  induction samples as [|x samples IH]; [constructor|].
  cbn [flat_map]. apply Forall_app. split; [apply le_bytes_are_bytes | exact IH].
Qed.

(** X11.  [audioBufferToWav] never throws: for every buffer, whatever its
    rate and its samples (NaN and the infinities included), every store
    falls inside the array, the result has 44 bytes and two more for each
    frame, and each of its elements is a byte. *)
Theorem audioBufferToWav_never_fails (buffer : AudioBuffer) :
  exists wav,
    audioBufferToWav buffer = Ok wav
    /\ List.length wav = (44 + 2 * length buffer)%nat
    /\ Forall is_byte wav.
Proof.
  eexists. split; [apply audioBufferToWav_layout|]. split.
  - rewrite length_app, wav_header_length, flat_map_sample_bytes_length. reflexivity.
  - apply Forall_app. split; [apply wav_header_is_bytes | apply samples_are_bytes].
Qed.

(** ** The extracted window *)

(** X12.  For a signal of a size that a host decodes and a window that
    starts at or after 0 and has at least one frame,
    [extractAudioForTranscription] gives the WAV stream of that window: the
    header for as many frames as lie between the start sample and the end
    sample, at the rate of the source, and then the 16-bit samples of those
    frames of channel 0.  The sample numbers are the floors of the rounded
    products, as the program computes them. *)
Theorem extractAudioForTranscription_window (start end_ : Q) (b : AudioBuffer) :
  (0 <= start)%Q -> well_sized b = true ->
  startSample_of start b < endSample_of end_ b ->
  let s := startSample_of start b in
  let e := endSample_of end_ b in
  extractAudioForTranscription start end_ b
  = Ok (wav_header (e - s) (Fin (sampleRate b))
        ++ flat_map sample_bytes
             (firstn (Z.to_nat (e - s)) (skipn (Z.to_nat s) (channel0 b)))).
Proof.
  intros Hs W Hlt s e. destruct (well_sized_spec b W) as (R1 & _ & _).
  assert (S0 : 0 <= s).
  { unfold s, startSample_of. change 0 with (Qfloor 0). apply Qfloor_resp_le.
    apply round64_nonneg. apply Qmult_le_0_compat; lra. }
  assert (He : (0 <= end_)%Q).
  { destruct (Qlt_le_dec end_ 0) as [N|N]; [exfalso | exact N].
    assert (M : (Qmin end_ (duration b) * sampleRate b <= 0)%Q).
    { pose proof (Q.le_min_l end_ (duration b)). nra. }
    apply round64_nonpos, Qfloor_resp_le in M. change (Qfloor 0) with 0 in M.
    unfold startSample_of, endSample_of in *. lia. }
  destruct (sliceAudio_frames start end_ b Hs He W)
    as (sliced & E & L & R & _ & _ & _ & C).
  unfold extractAudioForTranscription. rewrite E. cbn [bind].
  rewrite audioBufferToWav_layout, L, R, C.
  fold (startSample_of start b) (endSample_of end_ b). fold s e.
  rewrite Z.max_r by lia. reflexivity.
Qed.

Lemma extractAudioForTranscription_window_witness :
  extractAudioForTranscription 0.5 1 two_seconds
  = Ok (wav_header 2 (Fin 4) ++ flat_map sample_bytes [Fin 1; Fin 2]).
Proof.
  exact (extractAudioForTranscription_window 0.5 1 two_seconds
           ltac:(unfold Qle; simpl; lia) eq_refl eq_refl).
Defined.

(** X13.  For a signal of a size that a host decodes, the window from 0
    to the duration, or to any later end, ends at the last frame or one
    frame before it: the end sample is the floor of the rounded product of
    the rounded duration and the rate, which is the length or the length
    less 1, and is the length when the quotient of the length and the rate
    is a binary64 number.  When that leaves at least one frame, the slice
    is those first frames of channel 0 at the rate of the source, and the
    other channels are dropped.  Of fifteen frames at 44100 Hz the window
    keeps fourteen. *)
Theorem sliceAudio_of_the_whole_signal (end_ : Q) (b : AudioBuffer) :
  well_sized b = true -> (duration b <= end_)%Q ->
  let n := endSample_of end_ b in
  Z.of_nat (length b) - 1 <= n <= Z.of_nat (length b)
  /\ (binary64 (inject_Z (Z.of_nat (length b)) / sampleRate b) = true ->
      n = Z.of_nat (length b))
  /\ (0 < n ->
      sliceAudio 0 end_ b
      = Ok (mkBuffer (sampleRate b) (firstn (Z.to_nat n) (channel0 b)) [])).
Proof.
  intros W HE n. destruct (well_sized_spec b W) as (R1 & R2 & LB).
  destruct (duration_frames b W) as (D0 & _).
  assert (He : (0 <= end_)%Q) by lra.
  pose proof (endSample_range end_ b He W) as Rg.
  pose proof (endSample_whole end_ b W HE) as Lo.
  fold (endSample_of end_ b) in Rg, Lo. fold n in Rg, Lo.
  split; [lia|]. split.
  - intros B. apply binary64_spec in B. unfold n, endSample_of.
    rewrite <- (Qfloor_Z (Z.of_nat (length b))). apply Qfloor_comp.
    rewrite <- (round64_Z (Z.of_nat (length b))) by lia.
    apply round64_comp. rewrite (Q.min_r end_ (duration b)) by exact HE.
    unfold duration. rewrite B. field. lra.
  - intros Hn.
    destruct (sliceAudio_frames 0 end_ b) as (sliced & E & _ & R & O & _ & _ & C);
      [lra | lra | exact W |].
    rewrite E. f_equal. destruct sliced as [r c o].
    cbn [sampleRate channel0 otherChannels] in *. subst r o. f_equal.
    fold (endSample_of end_ b) in C. fold n in C.
    assert (S0 : Qfloor (round64 (0 * sampleRate b)) = 0).
    { rewrite <- (Qfloor_Z 0). apply Qfloor_comp.
      rewrite (round64_comp _ 0 (Qmult_0_l _)). reflexivity. }
    rewrite C, S0. cbn [Z.to_nat skipn]. now rewrite Z.sub_0_r.
Qed.

Lemma sliceAudio_of_the_whole_signal_witness :
  sliceAudio 0 5 two_seconds = Ok (mkBuffer 4 (channel0 two_seconds) []).
Proof.
  exact (proj2 (proj2 (sliceAudio_of_the_whole_signal 5 two_seconds
                         eq_refl ltac:(unfold Qle; vm_compute; discriminate)))
           eq_refl).
Defined.

(** Fifteen frames at 44100 Hz have a duration below 15 / 44100, whose
    product with the rate rounds below 15: the window from 0 to any end at
    or after the duration keeps fourteen frames. *)
Example last_frame_is_lost :
  endSample_of 1000 fifteen_frames = 14
  /\ sliceAudio 0 1000 fifteen_frames
     = Ok (mkBuffer 44100 (firstn 14 (channel0 fifteen_frames)) []).
Proof. split; vm_compute; reflexivity. Qed.

Lemma subarray_length {A} (s e : Z) (a : list A) :
  let len := Z.of_nat (List.length a) in
  let clamp (k : Z) := if k <? 0 then Z.max (len + k) 0 else Z.min k len in
  Z.of_nat (List.length (subarray s e a)) = Z.max (clamp e - clamp s) 0.
Proof.
  intros len clamp. unfold subarray. fold len. rewrite length_firstn, length_skipn.
  subst clamp. cbv beta.
  destruct (Z.ltb_spec s 0), (Z.ltb_spec e 0); lia.
Qed.

(** X14.  The slice throws for every window whose start sample is not
    negative, whose end sample is negative, and whose start sample lies
    before the end sample counted back from the end of the signal: the
    frame count is 0 and [subarray] yields frames.  For every window whose
    end sample lies after its start sample, the allocation and the copy go
    through and the slice has as many frames as lie between the two. *)
Theorem sliceAudio_throws_on_a_negative_end (start end_ : Q) (b : AudioBuffer) :
  (unsliceable start end_ b = true -> exists e, sliceAudio start end_ b = Throw e)
  /\ (startSample_of start b < endSample_of end_ b ->
      exists sliced,
        sliceAudio start end_ b = Ok sliced
        /\ Z.of_nat (length sliced) = endSample_of end_ b - startSample_of start b).
Proof.
  unfold unsliceable, sliceAudio, typed_set, createBuffer.
  fold (startSample_of start b) (endSample_of end_ b).
  set (s := startSample_of start b). set (e := endSample_of end_ b).
  cbn [channel0 otherChannels]. rewrite repeat_length.
  pose proof (subarray_length s e (channel0 b)) as L. cbv zeta in L.
  unfold length.
  set (src := subarray s e (channel0 b)) in *.
  set (len := Z.of_nat (List.length (channel0 b))) in *.
  revert L.
  destruct (Z.leb_spec 0 s) as [S0|S0], (Z.ltb_spec e 0) as [E0|E0],
    (Z.ltb_spec s 0) as [S1|S1], (Z.ltb_spec s (len + e)) as [T|T],
    (Nat.leb_spec (List.length src) (Z.to_nat (Z.max 0 (e - s)))) as [G|G];
    cbn [andb]; intros L; split; intros H; try discriminate; try lia;
    try (eexists; reflexivity);
    (eexists; split; [reflexivity|]; cbn [channel0];
     rewrite length_app, length_skipn, repeat_length; lia).
Qed.

Lemma sliceAudio_throws_on_a_negative_end_witness :
  (exists e, sliceAudio 0.5 (-1) two_seconds = Throw e)
  /\ exists sliced,
       sliceAudio (-0.5) 1 two_seconds = Ok sliced /\ Z.of_nat (length sliced) = 4 - -2.
Proof.
  split.
  - exact (proj1 (sliceAudio_throws_on_a_negative_end 0.5 (-1) two_seconds) eq_refl).
  - exact (proj2 (sliceAudio_throws_on_a_negative_end (-0.5) 1 two_seconds) eq_refl).
Defined.

(** ** The order of the samples *)

Lemma clampQ_mono (p q : Q) : (p <= q)%Q -> (clampQ p <= clampQ q)%Q.
Proof.
  intros H. unfold clampQ.
  destruct (Qltb p 1) eqn:P1; destruct (Qltb q 1) eqn:Q1;
    try apply Qltb_lt in P1; try apply Qltb_ge in P1;
    try apply Qltb_lt in Q1; try apply Qltb_ge in Q1;
    match goal with
    | |- context [Qltb (-1) p] => destruct (Qltb (-1) p) eqn:P2;
        [apply Qltb_lt in P2 | apply Qltb_ge in P2]
    | _ => change (Qltb (-1) 1) with true; cbv iota
    end;
    match goal with
    | |- context [Qltb (-1) q] => destruct (Qltb (-1) q) eqn:Q2;
        [apply Qltb_lt in Q2 | apply Qltb_ge in Q2]
    | _ => try (change (Qltb (-1) 1) with true; cbv iota)
    end; lra.
Qed.

Lemma Qtrunc_mono (p q : Q) : (p <= q)%Q -> Qtrunc p <= Qtrunc q.
Proof.
  intros H. rewrite !Qtrunc_alt.
  destruct (Qle_bool 0 p) eqn:P; destruct (Qle_bool 0 q) eqn:Q0.
  - now apply Qfloor_resp_le.
  - apply Qle_bool_iff in P.
    assert (0 <= q)%Q by lra. apply Qle_bool_iff in H0. congruence.
  - apply Qle_bool_iff in Q0.
    assert (0 <= Qfloor q) by (change 0 with (Qfloor 0); now apply Qfloor_resp_le).
    assert (N : (p < 0)%Q).
    { destruct (Qlt_le_dec p 0) as [L|L]; [exact L|]. apply Qle_bool_iff in L. congruence. }
    assert (0 <= Qfloor (- p)) by (change 0 with (Qfloor 0); apply Qfloor_resp_le; lra).
    lia.
  - assert (Qfloor (- q) <= Qfloor (- p)) by (apply Qfloor_resp_le; lra). lia.
Qed.

(** X15.  The conversion of a sample to 16 bits keeps the order: a finite
    sample that is at most another gives a 16-bit value that is at most the
    other's, across the clamp, the two scales and the truncation. *)
Theorem sample16_is_monotone (p q : Q) :
  (p <= q)%Q -> sample16 (Fin p) <= sample16 (Fin q).
Proof.
  intros H. destruct (sample16_finite p) as [-> _], (sample16_finite q) as [-> _].
  pose proof (clampQ_mono p q H) as M.
  apply Qtrunc_mono.
  destruct (Qltb (clampQ p) 0) eqn:P; destruct (Qltb (clampQ q) 0) eqn:Q0;
    try apply Qltb_lt in P; try apply Qltb_ge in P;
    try apply Qltb_lt in Q0; try apply Qltb_ge in Q0; nra.
Qed.

Lemma sample16_is_monotone_witness : sample16 (Fin (-0.25)) <= sample16 (Fin 0.5).
Proof.
  exact (sample16_is_monotone (-0.25) 0.5 ltac:(unfold Qle; simpl; lia)).
Defined.

End AudioEdges.

(** * Properties of the transcription wrapper *)

Module TranscribeProps.

Import Translate Transcribe TranscribeSpec CodecEdges.

Lemma str_eqb_eq (a b : str) : str_eqb a b = true <-> a = b.
Proof.
  unfold str_eqb. split.
  - intros H. apply andb_prop in H as [L S]. apply Nat.eqb_eq in L.
    revert b L S. induction a as [|x a IH]; intros [|y b] L S; simpl in *;
      try discriminate; [reflexivity|].
    apply andb_prop in S as [E S]. apply Ascii.eqb_eq in E. subst y.
    f_equal. apply IH; [lia | exact S].
  - intros <-. rewrite Nat.eqb_refl. cbn [andb].
    induction a as [|x a IH]; simpl; [reflexivity|]. now rewrite Ascii.eqb_refl.
Qed.

Lemma str_eqb_neq (a b : str) : a <> b -> str_eqb a b = false.
Proof.
  intros H. destruct (str_eqb a b) eqn:E; [|reflexivity].
  apply str_eqb_eq in E. contradiction.
Qed.

Lemma lookup_set_property (k : str) (v : json) (fields : list (str * json)) :
  lookup k (set_property k v fields) = Some v
  /\ forall k', k' <> k -> lookup k' (set_property k v fields) = lookup k' fields.
Proof.
  assert (R : str_eqb k k = true) by now apply str_eqb_eq.
  induction fields as [|[k0 v0] rest [IH1 IH2]]; cbn [set_property lookup].
  - rewrite R. split; [reflexivity|]. intros k' H. now rewrite str_eqb_neq.
  - destruct (str_eqb k k0) eqn:E; cbn [lookup].
    + apply str_eqb_eq in E. subst k0. rewrite R. split; [reflexivity|].
      intros k' H. now rewrite str_eqb_neq.
    + rewrite E. split; [exact IH1|]. intros k' H.
      destruct (str_eqb k' k0); [reflexivity | now apply IH2].
Qed.

Lemma with_id_renumbered (now : nat -> Z) (raw : json) (i : nat) :
  renumbered now i raw (with_id now raw i).
Proof.
  unfold renumbered, with_id, get.
  destruct (lookup_set_property (lit "id") (JStr (sub_id now i)) (own_properties raw))
    as [L1 L2].
  split; [exact L1|]. eexists. split; [reflexivity|]. exact L2.
Qed.

Lemma map_from_renumbered (now : nat -> Z) (i : nat) (raws : list json) :
  renumbered_from now i raws (map_from (with_id now) i raws).
Proof.
  revert i. induction raws as [|raw raws IH]; intros i; simpl; [exact I|].
  split; [apply with_id_renumbered | apply IH].
Qed.

Lemma sub_id_inj (now : nat -> Z) (i j : nat) : sub_id now i = sub_id now j -> i = j.
Proof. apply indexed_id_inj. Qed.

Lemma map_from_ids (now : nat -> Z) (i : nat) (raws : list json) :
  map (get "id") (map_from (with_id now) i raws)
  = map (fun k => Some (JStr (sub_id now k))) (seq i (List.length raws)).
Proof.
  revert i. induction raws as [|raw raws IH]; intros i; [reflexivity|].
  cbn [map_from map List.length seq]. rewrite IH. f_equal.
  apply with_id_renumbered.
Qed.

(** X16.  When the collaborator answers with a non-empty text that parses
    to an array, [transcribeAudio] returns one object for each element, in
    order: its id is [sub-<clock>-<position>], written over any id that the
    element carried, and every other property is the one of the element,
    unchecked.  The ids of the result are pairwise distinct. *)
Theorem transcribeAudio_renumbers_the_answer
    (generateContent : AudioRequest -> outcome (option str))
    (JSON_parse : str -> outcome json)
    (now : nat -> Z) (audioBase64 : str) (startTime : number)
    (enhancedMode adultContext : bool) (response : str) (items : list json) :
  generateContent (mkAudioRequest startTime enhancedMode adultContext audioBase64)
  = Ok (Some response) ->
  response <> [] ->
  JSON_parse response = Ok (JArr items) ->
  exists out,
    transcribeAudio generateContent JSON_parse now audioBase64 startTime
      enhancedMode adultContext = Ok out
    /\ renumbered_from now 0 items out
    /\ NoDup (map (get "id") out).
Proof.
  intros G T P. exists (map_from (with_id now) 0 items).
  unfold transcribeAudio. rewrite G. cbn [bind].
  destruct response as [|c t]; [contradiction|]. rewrite P. cbn [bind].
  split; [reflexivity|]. split; [apply map_from_renumbered|].
  rewrite map_from_ids. apply Injective_map_NoDup; [|apply seq_NoDup].
  intros i j E. apply (sub_id_inj now). congruence.
Qed.

Lemma transcribeAudio_renumbers_the_answer_witness :
  exists out,
    transcribeAudio answers_segment parse_segment (fun _ => 0) [] (Fin 0) false true = Ok out
    /\ renumbered_from (fun _ => 0) 0 segment out
    /\ NoDup (map (get "id") out).
Proof.
  apply (transcribeAudio_renumbers_the_answer answers_segment parse_segment (fun _ => 0)
           [] (Fin 0) false true segment_text segment);
    [reflexivity | discriminate | reflexivity].
Defined.

End TranscribeProps.

(** * A further property of the translation wrapper *)

Module TranslateEdges.

Import Translate TranslateSpec TranslateTerms CodecProps.

(** X18.  When the collaborator answers with white space only,
    [translateSubtitles] throws the error "No translation response
    received.": the text is trimmed before it is tested, and the parser is
    never consulted. *)
Theorem translateSubtitles_rejects_a_blank_answer
    (generateContent : Request -> outcome (option str))
    (JSON_stringify : list Subtitle -> str) (JSON_parse : str -> outcome json)
    (subs : list Subtitle) (adultContext : bool) (response : str) :
  generateContent
    (mkRequest adultContext (lit "JSON DATA TO PROCESS: " ++ JSON_stringify subs))
  = Ok (Some response) ->
  forallb is_ws response = true ->
  translateSubtitles generateContent JSON_stringify JSON_parse subs adultContext
  = Throw (Error "No translation response received.").
Proof.
  intros G W. unfold translateSubtitles. rewrite G. cbn [bind option_map].
  unfold trim, trimStart. rewrite (dropWhile_all _ _ W). reflexivity.
Qed.

Lemma translateSubtitles_rejects_a_blank_answer_witness :
  translateSubtitles answers_blank no_data parse_empty_array [one_caption] false
  = Throw (Error "No translation response received.").
Proof.
  apply (translateSubtitles_rejects_a_blank_answer answers_blank no_data parse_empty_array
           [one_caption] false (LF :: lit "  ")); reflexivity.
Defined.

End TranslateEdges.
